(** * PINKMacroTool: the macro engine and the trigger engine

    A shallow embedding of [core/macro-engine.js] (classes [MacroAction],
    [Macro], [MacroEngine]) and [core/trigger-engine.js] (classes [Trigger],
    [TriggerEngine]), and the properties of the two engines.

    Conventions of the embedding.
    - Identifiers and key names are [string]s, read as sequences of code
      units below 256 (Latin-1); millisecond quantities, timestamps and the
      repeat count are [Z]; the axis threshold, the one fractional field,
      is a rational [Q].
    - A JavaScript [Map] is an association list in insertion order
      ([JsMap]) where iteration order is observable (the two catalogues),
      and a [gmap]/[gset] where it is not.  A plain object used as a
      dictionary is a [JsObject]: its own properties in the order
      [Object.entries] lists them, with what it inherits from
      [Object.prototype].
    - [uuidv4()] is read from a supply: [Host A] threads the number of
      identifiers handed out so far.  [new Date()] and [Date.now()] are an
      explicit [now] argument.
    - An [async] function is modelled at its suspension points; what other
      code does to shared objects while a session is suspended is an
      explicit argument (a schedule) or an explicit interleaving of calls. *)

From Stdlib Require Import ZArith QArith Qabs List String Ascii Bool Lia.
From Stdlib Require Import DecimalString DecimalNat.
From stdpp Require Import base option list strings gmap.

Local Open Scope string_scope.
Local Open Scope Z_scope.
Local Open Scope list_scope.

(** ** JavaScript odds and ends *)

(** [x || d] on a number that may be absent: [undefined], and the falsy
    number [0], both yield [d]. *)
Definition or_num (x : option Z) (d : Z) : Z :=
  match x with
  | Some v => if v =? 0 then d else v
  | None => d
  end.

Definition or_rat (x : option Q) (d : Q) : Q :=
  match x with
  | Some v => if Qeq_bool v 0 then d else v
  | None => d
  end.

(** [x || d] on a string: [undefined] and the empty string yield [d]. *)
Definition or_str (x : option string) (d : string) : string :=
  match x with
  | Some EmptyString => d
  | Some v => v
  | None => d
  end.

(** [x !== undefined ? x : d], and a default parameter value, which
    replaces [undefined] only. *)
Definition or_undefined {A : Type} (x : option A) (d : A) : A :=
  match x with
  | Some v => v
  | None => d
  end.

(** The host's identifier supply: [uuids h k] is the [k]-th identifier
    that [uuidv4()] returns, [issued h] counts the calls made so far. *)
Record host := mkHost {
  uuids : nat -> string;
  issued : nat
}.

Definition Host (A : Type) : Type := host -> A * host.

Definition ret {A : Type} (a : A) : Host A := fun h => (a, h).

Definition bind {A B : Type} (m : Host A) (k : A -> Host B) : Host B :=
  fun h => let '(a, h') := m h in k a h'.

Notation "x <- m ;; k" := (bind m (fun x => k))
  (at level 100, m at next level, right associativity).

Definition uuidv4 : Host string :=
  fun h => (uuids h (issued h), {| uuids := uuids h; issued := S (issued h) |}).

(** [x || uuidv4()]: a fresh identifier unless [x] is a non-empty string. *)
Definition or_uuidv4 (x : option string) : Host string :=
  match x with
  | Some (String c s) => ret (String c s)
  | _ => uuidv4
  end.

Fixpoint mapM {A B : Type} (f : A -> Host B) (l : list A) : Host (list B) :=
  match l with
  | [] => ret []
  | a :: l' => b <- f a ;; bs <- mapM f l' ;; ret (b :: bs)
  end.

(** [`${i}`] for a non-negative integer: its decimal digits. *)
Definition decimal (i : nat) : string :=
  NilEmpty.string_of_uint (Nat.to_uint i).

(** [s.includes(sub)] *)
Fixpoint includes (sub s : string) : bool :=
  String.prefix sub s
  || match s with
     | EmptyString => false
     | String _ s' => includes sub s'
     end.

(** [s.split(c)] for a one-character separator. *)
Fixpoint split (c : ascii) (s : string) : list string :=
  match s with
  | EmptyString => [EmptyString]
  | String a s' =>
      if Ascii.eqb a c then EmptyString :: split c s'
      else match split c s' with
           | piece :: pieces => String a piece :: pieces
           | [] => [String a EmptyString]
           end
  end.

(** [parseInt(s)]: white space is skipped, a sign is read, [0x] or [0X]
    selects base 16, and the digits are read up to the first character that
    is none; [None] stands for [NaN].  [parseInt(undefined)] is [NaN].
    White space below code unit 256: tab to carriage return, space and the
    no-break space. *)
Definition is_space (a : ascii) : bool :=
  let n := nat_of_ascii a in
  (((9 <=? n) && (n <=? 13)) || (n =? 32) || (n =? 160))%nat.

Definition digit_of (radix : Z) (a : ascii) : option Z :=
  let n := Z.of_nat (nat_of_ascii a) in
  let d := if (48 <=? n) && (n <=? 57) then Some (n - 48)
           else if (97 <=? n) && (n <=? 122) then Some (n - 87)
           else if (65 <=? n) && (n <=? 90) then Some (n - 55)
           else None in
  match d with
  | Some v => if v <? radix then Some v else None
  | None => None
  end.

Fixpoint parse_digits (radix : Z) (acc : option Z) (s : string) : option Z :=
  match s with
  | EmptyString => acc
  | String a s' =>
      match digit_of radix a with
      | Some d => parse_digits radix (Some (default 0 acc * radix + d)) s'
      | None => acc
      end
  end.

Fixpoint skip_spaces (s : string) : string :=
  match s with
  | String a s' => if is_space a then skip_spaces s' else s
  | EmptyString => s
  end.

Definition parse_unsigned (s : string) : option Z :=
  match s with
  | String "0" (String "x" s') | String "0" (String "X" s') =>
      parse_digits 16 None s'
  | _ => parse_digits 10 None s
  end.

Definition parseInt (x : option string) : option Z :=
  match x with
  | None => None
  | Some s =>
      match skip_spaces s with
      | String "-" s' => Z.opp <$> parse_unsigned s'
      | String "+" s' => parse_unsigned s'
      | s' => parse_unsigned s'
      end
  end.

(** A loop over an array with its index. *)
Fixpoint for_each {A St : Type} (f : nat -> A -> St -> St) (i : nat)
    (l : list A) (s : St) : St :=
  match l with
  | [] => s
  | x :: l' => for_each f (S i) l' (f i x s)
  end.

(** A gamepad as [navigator.getGamepads()] reports it: its id, which of its
    buttons are pressed, and the values of its axes.  The array of gamepads
    has [null] ([None]) in the slots that are empty. *)
Record Gamepad := mkGamepad {
  pad_id : string;
  buttons : list bool;
  axes : list Q
}.

(** An insertion-ordered [Map] with string keys. *)
Module JsMap.
Section Defs.
Context {V : Type}.

Definition t : Type := list (string * V).

Definition empty : t := [].

Fixpoint get (k : string) (m : t) : option V :=
  match m with
  | [] => None
  | (k', v) :: m' => if String.eqb k k' then Some v else get k m'
  end.

Definition has (k : string) (m : t) : bool :=
  match get k m with
  | Some _ => true
  | None => false
  end.

(** [set] keeps the position of a key that is already present. *)
Fixpoint set (k : string) (v : V) (m : t) : t :=
  match m with
  | [] => [(k, v)]
  | (k', v') :: m' =>
      if String.eqb k k' then (k, v) :: m' else (k', v') :: set k v m'
  end.

Fixpoint delete (k : string) (m : t) : t :=
  match m with
  | [] => []
  | (k', v') :: m' =>
      if String.eqb k k' then delete k m' else (k', v') :: delete k m'
  end.

Definition keys (m : t) : list string := map fst m.
Definition values (m : t) : list V := map snd m.
End Defs.
Arguments t : clear implicits.
End JsMap.

(** A plain object ([{}]) used as a dictionary. *)
Module JsObject.
(** The names of the members of [Object.prototype], which every object
    literal inherits. *)
Definition Object_prototype : list string :=
  [ "constructor"; "__defineGetter__"; "__defineSetter__";
    "hasOwnProperty"; "__lookupGetter__"; "__lookupSetter__";
    "isPrototypeOf"; "propertyIsEnumerable"; "toString"; "valueOf";
    "__proto__"; "toLocaleString" ].

Definition inherited (k : string) : bool :=
  existsb (String.eqb k) Object_prototype.

Definition is_digit (a : ascii) : bool :=
  let n := nat_of_ascii a in ((48 <=? n) && (n <=? 57))%nat.

Fixpoint all_digits (s : string) : bool :=
  match s with
  | EmptyString => true
  | String a s' => is_digit a && all_digits s'
  end.

(** An array index: the canonical decimal numeral of an integer from 0 to
    [2^32 - 2]. *)
Definition array_index (k : string) : option Z :=
  match k with
  | EmptyString => None
  | String "0" (String _ _) => None
  | _ =>
      if all_digits k
      then match parse_digits 10 None k with
           | Some n => if n <? 4294967295 then Some n else None
           | None => None
           end
      else None
  end.

Section Defs.
Context {V : Type}.

(** The own properties, in the order in which [Object.entries] and
    [for ... in] list them: the array indices in ascending order, then the
    other names in the order of their creation. *)
Definition t : Type := list (string * V).

Definition empty : t := [].

(** Where a new array index [n] goes: before the first property that is
    no array index or a greater one. *)
Fixpoint insert_index (n : Z) (k : string) (v : V) (o : t) : t :=
  match o with
  | [] => [(k, v)]
  | (k', v') :: o' =>
      match array_index k' with
      | Some n' =>
          if n' <? n then (k', v') :: insert_index n k v o'
          else (k, v) :: o
      | None => (k, v) :: o
      end
  end.

(** [o[k] = v] for an object [v]: assigning to ["__proto__"] sets the
    prototype and makes no property of the object's own; a property that
    exists keeps its place. *)
Definition set (k : string) (v : V) (o : t) : t :=
  if String.eqb k "__proto__" then o
  else if JsMap.has k o then JsMap.set k v o
  else match array_index k with
       | Some n => insert_index n k v o
       | None => o ++ [(k, v)]
       end.

(** [Object.entries(o)] *)
Definition entries (o : t) : list (string * V) := o.
End Defs.
Arguments t : clear implicits.
End JsObject.

(** ** macro-engine.js: actions and macros *)

Inductive ActionType :=
| KEYBOARD_KEY
| KEYBOARD_HOLD
| KEYBOARD_RELEASE
| JOYSTICK_BUTTON_ACTION
| JOYSTICK_AXIS_ACTION
| MOUSE_MOVE
| MOUSE_CLICK
| TIMER_DELAY.

(** The [value] of an action: [null], a button name, a number, or an
    object whose [x] and [y] may be undefined. *)
Inductive ActionValue :=
| VNull
| VStr (s : string)
| VNum (n : Z)
| VPoint (x y : option Z).

Definition truthy (v : ActionValue) : bool :=
  match v with
  | VNull => false
  | VStr s => negb (String.eqb s "")
  | VNum n => negb (n =? 0)
  | VPoint _ _ => true
  end.

Module MacroAction.
Record t := mk {
  actionId : string;
  actionType : ActionType;
  deviceId : option string;
  inputName : string;
  value : ActionValue;
  duration : Z
}.

(** The record [toJSON] builds and [fromJSON] reads; read from a file,
    a field other than the type may be missing. *)
Record json := mkJson {
  j_actionId : option string;
  j_actionType : ActionType;
  j_deviceId : option string;
  j_inputName : option string;
  j_value : ActionValue;
  j_duration : option Z
}.

(** [constructor(actionType, deviceId = null, inputName = '',
    value = null, duration = 0)] *)
Definition new (ty : ActionType) (dev : option string)
    (name : option string) (v : ActionValue) (dur : option Z) : Host t :=
  id <- uuidv4 ;;
  ret {| actionId := id;
         actionType := ty;
         deviceId := dev;
         inputName := or_undefined name "";
         value := v;
         duration := or_undefined dur 0 |}.

Definition toJSON (a : t) : json :=
  {| j_actionId := Some (actionId a);
     j_actionType := actionType a;
     j_deviceId := deviceId a;
     j_inputName := Some (inputName a);
     j_value := value a;
     j_duration := Some (duration a) |}.

Definition fromJSON (data : json) : Host t :=
  action <- new (j_actionType data) (j_deviceId data) (j_inputName data)
                (j_value data) (j_duration data) ;;
  id <- or_uuidv4 (j_actionId data) ;;
  ret {| actionId := id;
         actionType := actionType action;
         deviceId := deviceId action;
         inputName := inputName action;
         value := value action;
         duration := duration action |}.
End MacroAction.

Module Macro.
Record t := mk {
  macroId : string;
  name : string;
  actions : list MacroAction.t;
  repeatCount : Z;   (* 0 = infinite loop *)
  enabled : bool;
  description : string;
  createdAt : Z;
  modifiedAt : Z
}.

Record json := mkJson {
  j_macroId : option string;
  j_name : option string;
  j_actions : option (list MacroAction.json);
  j_repeatCount : option Z;
  j_enabled : option bool;
  j_description : option string;
  j_createdAt : option Z;
  j_modifiedAt : option Z
}.

(** [constructor(name = 'New Macro')] *)
Definition new (now : Z) (nm : option string) : Host t :=
  id <- uuidv4 ;;
  ret {| macroId := id;
         name := or_undefined nm "New Macro";
         actions := [];
         repeatCount := 1;
         enabled := true;
         description := "";
         createdAt := now;
         modifiedAt := now |}.

Definition set_actions (l : list MacroAction.t) (now : Z) (m : t) : t :=
  {| macroId := macroId m; name := name m; actions := l;
     repeatCount := repeatCount m; enabled := enabled m;
     description := description m; createdAt := createdAt m;
     modifiedAt := now |}.

Definition addAction (action : MacroAction.t) (now : Z) (m : t) : t :=
  set_actions (actions m ++ [action]) now m.

Definition removeAction (id : string) (now : Z) (m : t) : t :=
  set_actions
    (filter (fun a => MacroAction.actionId a <> id) (actions m)) now m.

(** [findIndex]: [None] stands for -1. *)
Fixpoint findIndex (id : string) (l : list MacroAction.t) : option nat :=
  match l with
  | [] => None
  | a :: l' =>
      if String.eqb (MacroAction.actionId a) id then Some O
      else S <$> findIndex id l'
  end.

(** The position [splice(start, 0, x)] inserts at in an array of length
    [len]: a negative [start] counts from the end, and both ends clamp. *)
Definition splice_start (start : Z) (len : nat) : nat :=
  if start <? 0 then Z.to_nat (Z.max (Z.of_nat len + start) 0)
  else Nat.min (Z.to_nat start) len.

Definition moveAction (id : string) (newIndex : Z) (now : Z) (m : t) : t :=
  match findIndex id (actions m) with
  | Some actionIndex =>
      match actions m !! actionIndex with
      | Some action =>
          let removed := take actionIndex (actions m)
                         ++ drop (S actionIndex) (actions m) in
          let k := splice_start newIndex (length removed) in
          set_actions (take k removed ++ action :: drop k removed) now m
      | None => m
      end
  | None => m
  end.

Definition toJSON (m : t) : json :=
  {| j_macroId := Some (macroId m);
     j_name := Some (name m);
     j_actions := Some (map MacroAction.toJSON (actions m));
     j_repeatCount := Some (repeatCount m);
     j_enabled := Some (enabled m);
     j_description := Some (description m);
     j_createdAt := Some (createdAt m);
     j_modifiedAt := Some (modifiedAt m) |}.

Definition fromJSON (now : Z) (data : json) : Host t :=
  macro <- new now (j_name data) ;;
  id <- or_uuidv4 (j_macroId data) ;;
  acts <- mapM MacroAction.fromJSON (or_undefined (j_actions data) []) ;;
  ret {| macroId := id;
         name := name macro;
         actions := acts;
         repeatCount := or_num (j_repeatCount data) 1;
         enabled := or_undefined (j_enabled data) true;
         description := or_str (j_description data) "";
         createdAt := or_undefined (j_createdAt data) now;
         modifiedAt := or_undefined (j_modifiedAt data) now |}.
End Macro.

(** ** macro-engine.js: executing one action *)

(** What [_convertKeyName] hands to the injector as the key: a string,
    or, for a name that the object literal [keyMap] inherits from
    [Object.prototype], the member of that name, which is a function or
    (for ["__proto__"]) the prototype itself, and no string. *)
Inductive key_value :=
| KeyName (s : string)
| Inherited (name : string).

Coercion KeyName : string >-> key_value.

(** What the Input Injector (robotjs) is asked to do. *)
Inductive robot_call :=
| keyTap (key : key_value)
| keyToggle (key : key_value) (down : bool)
| mouseClick (button : ActionValue)
| moveMouse (x y : Z).

(** The injector: [None] when [require('robotjs')] failed at load time;
    otherwise a function telling, for the [k]-th entry of the effect log
    and a call, whether the call returns ([true]) or throws ([false]). *)
Definition injector : Type := option (nat -> robot_call -> bool).

(** What a session does to the outside, in order. *)
Inductive effect :=
| Called (c : robot_call)
| Failed (c : robot_call)
| Slept (ms : Z)
| Warned
| Errored.

(** How a JavaScript function leaves: by returning or by throwing; both
    carry the effect log at that point. *)
Inductive completion (A : Type) :=
| Normal (a : A)
| Throw (a : A).
Arguments Normal {A} a.
Arguments Throw {A} a.

(** [toLowerCase] on one code unit below 256: the capitals A to Z, and
    those of Latin-1 (U+00C0 to U+00DE but for the multiplication sign
    U+00D7), go 32 up. *)
Definition lower_ascii (c : ascii) : ascii :=
  let n := nat_of_ascii c in
  if (((65 <=? n) && (n <=? 90))
      || ((192 <=? n) && (n <=? 222) && negb (n =? 215)))%nat
  then ascii_of_nat (n + 32) else c.

Fixpoint toLowerCase (s : string) : string :=
  match s with
  | EmptyString => EmptyString
  | String c s' => String (lower_ascii c) (toLowerCase s')
  end.

Definition keyMap : list (string * string) :=
  [ ("Space", "space"); ("Enter", "enter"); ("Tab", "tab");
    ("Shift", "shift"); ("Control", "control"); ("Alt", "alt");
    ("Escape", "escape"); ("Backspace", "backspace"); ("Delete", "delete");
    ("Home", "home"); ("End", "end"); ("PageUp", "pageup");
    ("PageDown", "pagedown"); ("ArrowUp", "up"); ("ArrowDown", "down");
    ("ArrowLeft", "left"); ("ArrowRight", "right");
    ("CapsLock", "capslock"); ("Meta", "command") ].

(** [keyMap[keyName] || keyName.toLowerCase()]: [keyMap] is an object
    literal, so that a name it does not define itself is looked up in
    [Object.prototype]; what is found there is truthy. *)
Definition _convertKeyName (keyName : string) : key_value :=
  match JsMap.get keyName keyMap with
  | Some k => KeyName k
  | None =>
      if JsObject.inherited keyName then Inherited keyName
      else KeyName (toLowerCase keyName)
  end.

Section ExecuteAction.
Variable robot : injector.

(** One call on the injector, made when the log is [log]. *)
Definition call (r : nat -> robot_call -> bool) (c : robot_call)
    (log : list effect) : completion (list effect) :=
  if r (length log) c then Normal (log ++ [Called c])
  else Throw (log ++ [Failed c]).

Definition _sleep (ms : Z) (log : list effect) : list effect :=
  log ++ [Slept ms].

Definition _executeKeyboardKey (action : MacroAction.t)
    (log : list effect) : completion (list effect) :=
  match robot with
  | None => Normal (log ++ [Warned])
  | Some r =>
      let key := _convertKeyName (MacroAction.inputName action) in
      match call r (keyTap key) log with
      | Normal log' => Normal (_sleep 50 log')
      | Throw log' => Throw log'
      end
  end.

Definition _executeKeyboardHold (action : MacroAction.t)
    (log : list effect) : completion (list effect) :=
  match robot with
  | None => Normal (log ++ [Warned])
  | Some r =>
      let key := _convertKeyName (MacroAction.inputName action) in
      match call r (keyToggle key true) log with
      | Normal log' => Normal (_sleep (MacroAction.duration action) log')
      | Throw log' => Throw log'
      end
  end.

Definition _executeKeyboardRelease (action : MacroAction.t)
    (log : list effect) : completion (list effect) :=
  match robot with
  | None => Normal (log ++ [Warned])
  | Some r =>
      let key := _convertKeyName (MacroAction.inputName action) in
      call r (keyToggle key false) log
  end.

Definition _executeMouseClick (action : MacroAction.t)
    (log : list effect) : completion (list effect) :=
  match robot with
  | None => Normal (log ++ [Warned])
  | Some r =>
      let button := if truthy (MacroAction.value action)
                    then MacroAction.value action else VStr "left" in
      match call r (mouseClick button) log with
      | Normal log' => Normal (_sleep 50 log')
      | Throw log' => Throw log'
      end
  end.

Definition _executeMouseMove (action : MacroAction.t)
    (log : list effect) : completion (list effect) :=
  match robot with
  | None => Normal (log ++ [Warned])
  | Some r =>
      match MacroAction.value action with
      | VPoint (Some x) (Some y) => call r (moveMouse x y) log
      | _ => Normal log
      end
  end.

(** The dispatch inside [try], then the [catch]. *)
Definition dispatch (action : MacroAction.t) (log : list effect)
    : completion (list effect) :=
  match MacroAction.actionType action with
  | TIMER_DELAY => Normal (_sleep (MacroAction.duration action) log)
  | KEYBOARD_KEY => _executeKeyboardKey action log
  | KEYBOARD_HOLD => _executeKeyboardHold action log
  | KEYBOARD_RELEASE => _executeKeyboardRelease action log
  | MOUSE_CLICK => _executeMouseClick action log
  | MOUSE_MOVE => _executeMouseMove action log
  | JOYSTICK_BUTTON_ACTION | JOYSTICK_AXIS_ACTION => Normal log
  end.

Definition _executeAction (action : MacroAction.t) (log : list effect)
    : completion (list effect) :=
  match dispatch action log with
  | Normal log' => Normal log'
  | Throw log' => Normal (log' ++ [Errored])
  end.
End ExecuteAction.

(** ** macro-engine.js: the playback loop *)

(** A playback session as the loop sees it: the [stopped] field of its
    stop flag, the actions it has begun, and its effects. *)
Record session := mkSession {
  stopped : bool;
  begun : list MacroAction.t;
  log : list effect
}.

Definition fresh_session : session :=
  {| stopped := false; begun := []; log := [] |}.

(** How a run of the loop stands when the fuel is spent. *)
Inductive outcome :=
| Returned      (* the loop was left by its condition or a [break] *)
| Running       (* the loop is still going round *)
| Threw.        (* an exception left the loop *)

Section Playback.
Variable robot : injector.

(** The schedule of stop requests: [stop_during k] tells whether the
    stop flag of the session is set by other code (it only ever is set to
    [true]) while the session awaits the [k]-th action it has begun. *)
Variable stop_during : nat -> bool.

(** [await this._executeAction(action)] *)
Definition await_executeAction (action : MacroAction.t) (s : session)
    : completion session :=
  let k := length (begun s) in
  match _executeAction robot action (log s) with
  | Normal l =>
      Normal {| stopped := stopped s || stop_during k;
                begun := begun s ++ [action];
                log := l |}
  | Throw l =>
      Throw {| stopped := stopped s || stop_during k;
               begun := begun s ++ [action];
               log := l |}
  end.

(** [for (const action of macro.actions) { if (stopFlag.stopped) break;
    await this._executeAction(action); }] *)
Fixpoint run_pass (actions : list MacroAction.t) (s : session)
    : completion session :=
  match actions with
  | [] => Normal s
  | action :: rest =>
      if stopped s then Normal s
      else match await_executeAction action s with
           | Normal s' => run_pass rest s'
           | Throw s' => Throw s'
           end
  end.

(** [while (!stopFlag.stopped) { ... }]: one unit of fuel per turn of the
    [while]. *)
Fixpoint playback_while (fuel : nat) (repeatCount : Z)
    (actions : list MacroAction.t) (iteration : Z) (s : session)
    : outcome * session :=
  match fuel with
  | O => (Running, s)
  | S fuel' =>
      if stopped s then (Returned, s)
      else
        let iteration' :=
          if 0 <? repeatCount then iteration + 1 else iteration in
        if (0 <? repeatCount) && (repeatCount <? iteration')
        then (Returned, s)
        else
          match run_pass actions s with
          | Throw s' => (Threw, s')
          | Normal s' =>
              if repeatCount =? 1 then (Returned, s')
              else playback_while fuel' repeatCount actions iteration' s'
          end
  end.

Definition _playbackLoop (fuel : nat) (macro : Macro.t) (s : session)
    : outcome * session :=
  playback_while fuel (Macro.repeatCount macro) (Macro.actions macro) 0 s.
End Playback.

(** ** trigger-engine.js: triggers *)

Inductive TriggerType :=
| KEY_PRESS
| KEY_HOLD
| KEY_DOUBLE_TAP
| KEY_COMBO
| JOYSTICK_BUTTON
| JOYSTICK_AXIS.

Module Trigger.
Record t := mk {
  triggerId : string;
  triggerType : TriggerType;
  macroId : string;
  deviceId : option string;
  inputName : string;
  modifiers : list string;
  axisThreshold : Q;
  holdDuration : Z;
  doubleTapWindow : Z;
  enabled : bool
}.

Record json := mkJson {
  j_triggerId : option string;
  j_triggerType : TriggerType;
  j_macroId : string;
  j_deviceId : option string;
  j_inputName : option string;
  j_modifiers : option (list string);
  j_axisThreshold : option Q;
  j_holdDuration : option Z;
  j_doubleTapWindow : option Z;
  j_enabled : option bool
}.

(** [constructor(triggerType, macroId, deviceId = null, inputName = '')] *)
Definition new (ty : TriggerType) (macro : string) (dev : option string)
    (name : option string) : Host t :=
  id <- uuidv4 ;;
  ret {| triggerId := id;
         triggerType := ty;
         macroId := macro;
         deviceId := dev;
         inputName := or_undefined name "";
         modifiers := [];
         axisThreshold := 0.5;
         holdDuration := 500;
         doubleTapWindow := 300;
         enabled := true |}.

Definition toJSON (tr : t) : json :=
  {| j_triggerId := Some (triggerId tr);
     j_triggerType := triggerType tr;
     j_macroId := macroId tr;
     j_deviceId := deviceId tr;
     j_inputName := Some (inputName tr);
     j_modifiers := Some (modifiers tr);
     j_axisThreshold := Some (axisThreshold tr);
     j_holdDuration := Some (holdDuration tr);
     j_doubleTapWindow := Some (doubleTapWindow tr);
     j_enabled := Some (enabled tr) |}.

Definition fromJSON (data : json) : Host t :=
  trigger <- new (j_triggerType data) (j_macroId data) (j_deviceId data)
                 (j_inputName data) ;;
  id <- or_uuidv4 (j_triggerId data) ;;
  ret {| triggerId := id;
         triggerType := triggerType trigger;
         macroId := macroId trigger;
         deviceId := deviceId trigger;
         inputName := inputName trigger;
         modifiers := or_undefined (j_modifiers data) [];
         axisThreshold := or_rat (j_axisThreshold data) 0.5;
         holdDuration := or_num (j_holdDuration data) 500;
         doubleTapWindow := or_num (j_doubleTapWindow data) 300;
         enabled := or_undefined (j_enabled data) true |}.
End Trigger.

(** ** trigger-engine.js: the engine *)

(** The delay [setTimeout] works with.  The host keeps the delay of a
    timer as a signed 32-bit integer: a delay that is not in
    [1 .. 2^31 - 1] is taken as 1. *)
Definition timer_delay (ms : Z) : Z :=
  if (1 <=? ms) && (ms <=? 2147483647) then ms else 1.

(** A pending [setTimeout] callback of [_setupHoldTimer]: the closure
    captures the trigger and the key; [due] is the time it was armed at
    plus the delay the host makes of the trigger's [holdDuration]. *)
Record hold_timer := mkHoldTimer {
  timer_trigger : Trigger.t;
  timer_key : string;
  due : Z
}.

Module TriggerEngine.
(** The engine's fields; the number of [keydown] and of [keyup]
    listeners that [document] holds for the engine, each a handler bound
    to it; whether the polling interval [gamepadInterval] is set; then the
    host's table of pending timeouts (by handle) and the calls made on the
    macro engine. *)
Record t := mk {
  triggers : JsMap.t Trigger.t;
  monitoring : bool;
  keydownListeners : nat;
  keyupListeners : nat;
  gamepadInterval : bool;
  pressedKeys : gset string;
  keyPressTimes : gmap string (list Z);
  keyHoldTimers : gmap string nat;
  timeouts : gmap nat hold_timer;
  next_handle : nat;
  activated : list Trigger.t
}.

Definition new : t :=
  {| triggers := JsMap.empty; monitoring := false;
     keydownListeners := O; keyupListeners := O; gamepadInterval := false;
     pressedKeys := ∅;
     keyPressTimes := ∅; keyHoldTimers := ∅; timeouts := ∅;
     next_handle := O; activated := [] |}.

Definition set_triggers (m : JsMap.t Trigger.t) (e : t) : t :=
  {| triggers := m; monitoring := monitoring e;
     keydownListeners := keydownListeners e;
     keyupListeners := keyupListeners e;
     gamepadInterval := gamepadInterval e;
     pressedKeys := pressedKeys e; keyPressTimes := keyPressTimes e;
     keyHoldTimers := keyHoldTimers e; timeouts := timeouts e;
     next_handle := next_handle e; activated := activated e |}.

Definition createTrigger (ty : TriggerType) (macro : string)
    (dev : option string) (name : option string) (e : t) : Host (Trigger.t * t) :=
  trigger <- Trigger.new ty macro dev name ;;
  ret (trigger,
       set_triggers (JsMap.set (Trigger.triggerId trigger) trigger (triggers e)) e).

Definition deleteTrigger (id : string) (e : t) : t :=
  if JsMap.has id (triggers e)
  then set_triggers (JsMap.delete id (triggers e)) e
  else e.

Definition getTrigger (id : string) (e : t) : option Trigger.t :=
  JsMap.get id (triggers e).

(** [_startKeyboardMonitoring]: each call binds the two handlers anew
    and adds the bound functions to [document]. *)
Definition _startKeyboardMonitoring (e : t) : t :=
  {| triggers := triggers e; monitoring := monitoring e;
     keydownListeners := S (keydownListeners e);
     keyupListeners := S (keyupListeners e);
     gamepadInterval := gamepadInterval e;
     pressedKeys := pressedKeys e; keyPressTimes := keyPressTimes e;
     keyHoldTimers := keyHoldTimers e; timeouts := timeouts e;
     next_handle := next_handle e; activated := activated e |}.

(** [_stopKeyboardMonitoring]: [removeEventListener] is given the handlers
    bound once more, functions that [document] does not hold, and removes
    no listener. *)
Definition _stopKeyboardMonitoring (e : t) : t := e.

Definition set_gamepadInterval (b : bool) (e : t) : t :=
  {| triggers := triggers e; monitoring := monitoring e;
     keydownListeners := keydownListeners e;
     keyupListeners := keyupListeners e;
     gamepadInterval := b;
     pressedKeys := pressedKeys e; keyPressTimes := keyPressTimes e;
     keyHoldTimers := keyHoldTimers e; timeouts := timeouts e;
     next_handle := next_handle e; activated := activated e |}.

Definition _startGamepadMonitoring (e : t) : t :=
  if negb (gamepadInterval e) then set_gamepadInterval true e else e.

Definition _stopGamepadMonitoring (e : t) : t :=
  if gamepadInterval e then set_gamepadInterval false e else e.

Definition set_monitoring (b : bool) (e : t) : t :=
  {| triggers := triggers e; monitoring := b;
     keydownListeners := keydownListeners e;
     keyupListeners := keyupListeners e;
     gamepadInterval := gamepadInterval e;
     pressedKeys := pressedKeys e; keyPressTimes := keyPressTimes e;
     keyHoldTimers := keyHoldTimers e; timeouts := timeouts e;
     next_handle := next_handle e; activated := activated e |}.

Definition startMonitoring (e : t) : t :=
  if monitoring e then e
  else _startGamepadMonitoring
         (_startKeyboardMonitoring (set_monitoring true e)).

(** [clearTimeout(handle)] *)
Definition clearTimeout (handle : nat) (pending : gmap nat hold_timer)
    : gmap nat hold_timer :=
  delete handle pending.

Definition stopMonitoring (e : t) : t :=
  if negb (monitoring e) then e
  else
    let e1 := _stopGamepadMonitoring
                (_stopKeyboardMonitoring (set_monitoring false e)) in
    {| triggers := triggers e1; monitoring := monitoring e1;
       keydownListeners := keydownListeners e1;
       keyupListeners := keyupListeners e1;
       gamepadInterval := gamepadInterval e1;
       pressedKeys := ∅; keyPressTimes := ∅; keyHoldTimers := ∅;
       timeouts := map_fold (fun _ handle pending => clearTimeout handle pending)
                            (timeouts e1) (keyHoldTimers e1);
       next_handle := next_handle e1; activated := activated e1 |}.

(** [macroEngine.playMacro(trigger.macroId)] is recorded, not run. *)
Definition _activateTrigger (trigger : Trigger.t) (e : t) : t :=
  {| triggers := triggers e; monitoring := monitoring e;
     keydownListeners := keydownListeners e;
     keyupListeners := keyupListeners e;
     gamepadInterval := gamepadInterval e;
     pressedKeys := pressedKeys e; keyPressTimes := keyPressTimes e;
     keyHoldTimers := keyHoldTimers e; timeouts := timeouts e;
     next_handle := next_handle e;
     activated := activated e ++ [trigger] |}.

Definition _checkModifiers (mods : list string) (e : t) : bool :=
  forallb (fun m => bool_decide (m ∈ pressedKeys e)) mods.

Definition _setupHoldTimer (trigger : Trigger.t) (key : string) (now : Z)
    (e : t) : t :=
  let pending :=
    match keyHoldTimers e !! key with
    | Some old => clearTimeout old (timeouts e)
    | None => timeouts e
    end in
  let handle := next_handle e in
  {| triggers := triggers e; monitoring := monitoring e;
     keydownListeners := keydownListeners e;
     keyupListeners := keyupListeners e;
     gamepadInterval := gamepadInterval e;
     pressedKeys := pressedKeys e; keyPressTimes := keyPressTimes e;
     keyHoldTimers := <[key := handle]> (keyHoldTimers e);
     timeouts := <[handle := {| timer_trigger := trigger; timer_key := key;
                                due := now + timer_delay
                                               (Trigger.holdDuration trigger) |}]>
                   pending;
     next_handle := S handle; activated := activated e |}.

(** The host runs the callback of a pending timeout that is due. *)
Definition timeout_fires (handle : nat) (now : Z) (e : t) : t :=
  match timeouts e !! handle with
  | Some tm =>
      if due tm <=? now then
        let e1 := {| triggers := triggers e; monitoring := monitoring e;
                     keydownListeners := keydownListeners e;
                     keyupListeners := keyupListeners e;
                     gamepadInterval := gamepadInterval e;
                     pressedKeys := pressedKeys e;
                     keyPressTimes := keyPressTimes e;
                     keyHoldTimers := keyHoldTimers e;
                     timeouts := delete handle (timeouts e);
                     next_handle := next_handle e;
                     activated := activated e |} in
        let e2 := if bool_decide (timer_key tm ∈ pressedKeys e1)
                  then _activateTrigger (timer_trigger tm) e1 else e1 in
        {| triggers := triggers e2; monitoring := monitoring e2;
           keydownListeners := keydownListeners e2;
           keyupListeners := keyupListeners e2;
           gamepadInterval := gamepadInterval e2;
           pressedKeys := pressedKeys e2; keyPressTimes := keyPressTimes e2;
           keyHoldTimers := delete (timer_key tm) (keyHoldTimers e2);
           timeouts := timeouts e2; next_handle := next_handle e2;
           activated := activated e2 |}
      else e
  | None => e
  end.

Definition _checkDoubleTap (key : string) (window : Z) (e : t) : bool :=
  match keyPressTimes e !! key with
  | None => false
  | Some times =>
      if (length times <? 2)%nat then false
      else match drop (length times - 2) times with
           | [t0; t1] => t1 - t0 <=? window
           | _ => false
           end
  end.

Definition _cleanupPressTimes (key : string) (now : Z) (e : t) : t :=
  match keyPressTimes e !! key with
  | Some times =>
      {| triggers := triggers e; monitoring := monitoring e;
         keydownListeners := keydownListeners e;
         keyupListeners := keyupListeners e;
         gamepadInterval := gamepadInterval e;
         pressedKeys := pressedKeys e;
         keyPressTimes :=
           <[key := filter (fun t => now - t < 1000) times]> (keyPressTimes e);
         keyHoldTimers := keyHoldTimers e; timeouts := timeouts e;
         next_handle := next_handle e; activated := activated e |}
  | None => e
  end.

Section Gated.
(** [deviceManager.shouldProcessDeviceInput] *)
Variable shouldProcessDeviceInput : string -> bool.

(** [trigger.deviceId && !shouldProcessDeviceInput(trigger.deviceId)] *)
Definition gated_out (trigger : Trigger.t) : bool :=
  match Trigger.deviceId trigger with
  | Some (String c s) => negb (shouldProcessDeviceInput (String c s))
  | _ => false
  end.

(** The body of the loop of [_checkKeyTriggers] for one trigger. *)
Definition check_trigger (key : string) (now : Z) (e : t)
    (trigger : Trigger.t) : t :=
  if negb (Trigger.enabled trigger) then e
  else if gated_out trigger then e
  else if negb (String.eqb (Trigger.inputName trigger) key) then e
  else
    match Trigger.triggerType trigger with
    | KEY_PRESS => _activateTrigger trigger e
    | KEY_COMBO =>
        if _checkModifiers (Trigger.modifiers trigger) e
        then _activateTrigger trigger e else e
    | KEY_HOLD => _setupHoldTimer trigger key now e
    | KEY_DOUBLE_TAP =>
        if _checkDoubleTap key (Trigger.doubleTapWindow trigger) e
        then _activateTrigger trigger e else e
    | JOYSTICK_BUTTON | JOYSTICK_AXIS => e
    end.

Definition _checkKeyTriggers (key : string) (now : Z) (e : t) : t :=
  fold_left (check_trigger key now) (JsMap.values (triggers e)) e.

Definition _handleKeyDown (key : string) (now : Z) (e : t) : t :=
  if negb (monitoring e) then e
  else
    let times := default [] (keyPressTimes e !! key) ++ [now] in
    let e1 := {| triggers := triggers e; monitoring := monitoring e;
                 keydownListeners := keydownListeners e;
                 keyupListeners := keyupListeners e;
                 gamepadInterval := gamepadInterval e;
                 pressedKeys := {[key]} ∪ pressedKeys e;
                 keyPressTimes := <[key := times]> (keyPressTimes e);
                 keyHoldTimers := keyHoldTimers e; timeouts := timeouts e;
                 next_handle := next_handle e; activated := activated e |} in
    _checkKeyTriggers key now (_cleanupPressTimes key now e1).

(** [document] dispatches a [keydown] event: every listener that was
    added runs, in the order of adding, and each is [_handleKeyDown] bound
    to the engine; [clock k] is what [Date.now()] gives the [k]-th of
    them. *)
Definition keydown_event (key : string) (clock : nat -> Z) (e : t) : t :=
  fold_left (fun e' k => _handleKeyDown key (clock k) e')
            (seq 0 (keydownListeners e)) e.
End Gated.

Definition _handleKeyUp (key : string) (e : t) : t :=
  if negb (monitoring e) then e
  else
    {| triggers := triggers e; monitoring := monitoring e;
       keydownListeners := keydownListeners e;
       keyupListeners := keyupListeners e;
       gamepadInterval := gamepadInterval e;
       pressedKeys := pressedKeys e ∖ {[key]};
       keyPressTimes := keyPressTimes e;
       keyHoldTimers := delete key (keyHoldTimers e);
       timeouts := match keyHoldTimers e !! key with
                   | Some handle => clearTimeout handle (timeouts e)
                   | None => timeouts e
                   end;
       next_handle := next_handle e; activated := activated e |}.

(** [document] dispatches a [keyup] event: every listener runs. *)
Definition keyup_event (key : string) (e : t) : t :=
  Nat.iter (keyupListeners e) (_handleKeyUp key) e.

(** [getAllTriggers] and [getTriggersForMacro] *)
Definition getAllTriggers (e : t) : list Trigger.t := JsMap.values (triggers e).

Definition getTriggersForMacro (macro : string) (e : t) : list Trigger.t :=
  List.filter (fun tr => String.eqb (Trigger.macroId tr) macro)
              (getAllTriggers e).

(** [trigger.deviceId === deviceId] *)
Definition on_device (deviceId : string) (trigger : Trigger.t) : bool :=
  match Trigger.deviceId trigger with
  | Some d => String.eqb d deviceId
  | None => false
  end.

Definition _checkJoystickButtonTriggers (deviceId : string)
    (buttonIndex : nat) (e : t) : t :=
  fold_left
    (fun e' trigger =>
       if negb (Trigger.enabled trigger) then e'
       else match Trigger.triggerType trigger with
            | JOYSTICK_BUTTON =>
                if on_device deviceId trigger
                   && String.eqb (Trigger.inputName trigger)
                                 ("Button " +:+ decimal buttonIndex)
                then _activateTrigger trigger e' else e'
            | _ => e'
            end)
    (JsMap.values (triggers e)) e.

Definition _checkJoystickAxisTriggers (deviceId : string) (axisIndex : nat)
    (axisValue : Q) (e : t) : t :=
  fold_left
    (fun e' trigger =>
       if negb (Trigger.enabled trigger) then e'
       else match Trigger.triggerType trigger with
            | JOYSTICK_AXIS =>
                if on_device deviceId trigger
                   && includes ("Axis " +:+ decimal axisIndex)
                               (Trigger.inputName trigger)
                then
                  if Qle_bool (Trigger.axisThreshold trigger) (Qabs axisValue)
                  then _activateTrigger trigger e' else e'
                else e'
            | _ => e'
            end)
    (JsMap.values (triggers e)) e.

Section Polled.
Variable shouldProcessDeviceInput : string -> bool.

(** The body of the loop of [_pollGamepads] for slot [i]. *)
Definition poll_gamepad (i : nat) (slot : option Gamepad) (e : t) : t :=
  match slot with
  | None => e
  | Some gamepad =>
      let deviceId := "joystick_" +:+ decimal i in
      if negb (shouldProcessDeviceInput deviceId) then e
      else
        let e1 :=
          for_each (fun j pressed e' =>
                      if pressed : bool
                      then _checkJoystickButtonTriggers deviceId j e'
                      else e')
                   O (buttons gamepad) e in
        for_each (fun j value e' =>
                    _checkJoystickAxisTriggers deviceId j value e')
                 O (axes gamepad) e1
  end.

Definition _pollGamepads (gamepads : list (option Gamepad)) (e : t) : t :=
  if negb (monitoring e) then e
  else for_each poll_gamepad O gamepads e.

(** The interval of [_startGamepadMonitoring] comes round, if it is
    set. *)
Definition interval_tick (gamepads : list (option Gamepad)) (e : t) : t :=
  if gamepadInterval e then _pollGamepads gamepads e else e.
End Polled.

(** [toJSON] fills a plain object, catalogue entry by catalogue entry. *)
Definition toJSON (e : t) : JsObject.t Trigger.json :=
  fold_left (fun o '(id, trigger) => JsObject.set id (Trigger.toJSON trigger) o)
            (triggers e) JsObject.empty.

Definition fromJSON (data : JsObject.t Trigger.json) (e : t) : Host t :=
  loaded <- mapM (fun '(_, triggerData) => Trigger.fromJSON triggerData)
                 (JsObject.entries data) ;;
  ret (set_triggers
         (fold_left (fun m trigger => JsMap.set (Trigger.triggerId trigger) trigger m)
                    loaded JsMap.empty) e).
End TriggerEngine.

(** ** macro-engine.js: the engine and its sessions

    [playMacro] is [async]: a call runs until its first [await], and goes
    on when the host resumes it.  Several calls can be suspended at once,
    so the engine carries its suspended calls.  A stop flag is an object
    shared between [stopFlags], [stopMacro] and the loop of one call: the
    flags live in a store and are named by their address.  The macro is
    taken as it is when [playMacro] is called. *)

(** Where a call of [playMacro] is suspended. *)
Inductive position :=
| AwaitingAction (iteration : Z) (rest : list MacroAction.t)
    (* in [await this._executeAction(action)]; [rest] is what the [for]
       has left to visit *)
| AwaitingLoop  (* [_playbackLoop] has returned; the cleanup is to come *)
| Hung          (* the loop goes round without ever suspending *)
| Finished.

Record task := mkTask {
  task_macro : Macro.t;
  task_flag : nat;
  task_at : position
}.

(** What the sessions do, in order; a session is named by the number of
    its call of [playMacro]. *)
Inductive event :=
| Started (sid : nat)
| Began (sid : nat) (action : MacroAction.t)
| LoopLeft (sid : nat)
| CleanedUp (sid : nat).

(** How far the loop gets before it suspends. *)
Inductive progress :=
| Suspends (action : MacroAction.t) (iteration : Z) (rest : list MacroAction.t)
| Returns
| Spins.

(** The head of the [for]: the next action to await, unless the list is
    exhausted or the flag is set. *)
Definition for_head (flag : bool) (rest : list MacroAction.t)
    : option (MacroAction.t * list MacroAction.t) :=
  match rest with
  | [] => None
  | action :: rest' => if flag then None else Some (action, rest')
  end.

(** From the head of the [while] to the next suspension.  No other code
    runs in between, so the flag is read once. *)
Fixpoint while_head (fuel : nat) (repeatCount : Z)
    (actions : list MacroAction.t) (flag : bool) (iteration : Z) : progress :=
  match fuel with
  | O => Spins
  | S fuel' =>
      if flag then Returns
      else
        let iteration' :=
          if 0 <? repeatCount then iteration + 1 else iteration in
        if (0 <? repeatCount) && (repeatCount <? iteration') then Returns
        else
          match for_head flag actions with
          | Some (action, rest) => Suspends action iteration' rest
          | None =>
              if repeatCount =? 1 then Returns
              else while_head fuel' repeatCount actions flag iteration'
          end
  end.

(** From the return of an awaited action to the next suspension. *)
Definition after_action (fuel : nat) (repeatCount : Z)
    (actions : list MacroAction.t) (flag : bool) (iteration : Z)
    (rest : list MacroAction.t) : progress :=
  match for_head flag rest with
  | Some (action, rest') => Suspends action iteration rest'
  | None =>
      if repeatCount =? 1 then Returns
      else while_head fuel repeatCount actions flag iteration
  end.

Module MacroEngine.
Record t := mk {
  macros : JsMap.t Macro.t;
  activePlaybacks : gset string;
  stopFlags : gmap string nat;
  flags : list bool;
  tasks : list task;
  events : list event
}.

Definition new : t :=
  {| macros := JsMap.empty; activePlaybacks := ∅; stopFlags := ∅;
     flags := []; tasks := []; events := [] |}.

Definition set_macros (m : JsMap.t Macro.t) (e : t) : t :=
  {| macros := m; activePlaybacks := activePlaybacks e;
     stopFlags := stopFlags e; flags := flags e; tasks := tasks e;
     events := events e |}.

Definition getMacro (id : string) (e : t) : option Macro.t :=
  JsMap.get id (macros e).

Definition stopMacro (id : string) (e : t) : t :=
  match stopFlags e !! id with
  | Some flag =>
      {| macros := macros e; activePlaybacks := activePlaybacks e;
         stopFlags := stopFlags e; flags := <[flag := true]> (flags e);
         tasks := tasks e; events := events e |}
  | None => e
  end.

Definition stopAllMacros (e : t) : t :=
  map_fold (fun id _ e' => stopMacro id e') e (stopFlags e).

Definition isMacroPlaying (id : string) (e : t) : bool :=
  bool_decide (id ∈ activePlaybacks e).

Definition createMacro (now : Z) (name : option string) (e : t)
    : Host (Macro.t * t) :=
  macro <- Macro.new now name ;;
  ret (macro, set_macros (JsMap.set (Macro.macroId macro) macro (macros e)) e).

Definition deleteMacro (id : string) (e : t) : t :=
  if JsMap.has id (macros e)
  then let e' := stopMacro id e in
       set_macros (JsMap.delete id (macros e')) e'
  else e.

(** The state of call [sid] after its loop has made [p]. *)
Definition suspend (sid : nat) (macro : Macro.t) (flag : nat)
    (p : progress) (e : t) : t :=
  let '(pos, evs) :=
    match p with
    | Suspends action iteration rest =>
        (AwaitingAction iteration rest, [Began sid action])
    | Returns => (AwaitingLoop, [LoopLeft sid])
    | Spins => (Hung, [])
    end in
  let tk := {| task_macro := macro; task_flag := flag; task_at := pos |} in
  {| macros := macros e; activePlaybacks := activePlaybacks e;
     stopFlags := stopFlags e; flags := flags e;
     tasks := if decide (sid = length (tasks e)) then tasks e ++ [tk]
              else <[sid := tk]> (tasks e);
     events := events e ++ evs |}.

(** [playMacro(macroId)], up to its first suspension. *)
Definition playMacro (fuel : nat) (id : string) (e : t) : t :=
  match getMacro id e with
  | None => e
  | Some macro =>
      if negb (Macro.enabled macro) then e
      else
        let e1 := if bool_decide (id ∈ activePlaybacks e)
                  then stopMacro id e else e in
        let flag := length (flags e1) in
        let sid := length (tasks e1) in
        let e2 := {| macros := macros e1;
                     activePlaybacks := {[id]} ∪ activePlaybacks e1;
                     stopFlags := <[id := flag]> (stopFlags e1);
                     flags := flags e1 ++ [false];
                     tasks := tasks e1;
                     events := events e1 ++ [Started sid] |} in
        suspend sid macro flag
          (while_head fuel (Macro.repeatCount macro) (Macro.actions macro)
                      false 0) e2
  end.

(** The host resumes call [sid]: the awaited action has returned, or the
    awaited loop has, and then the cleanup of [playMacro] runs. *)
Definition resume (fuel : nat) (sid : nat) (e : t) : t :=
  match tasks e !! sid with
  | None => e
  | Some tk =>
      let macro := task_macro tk in
      match task_at tk with
      | AwaitingAction iteration rest =>
          let flag := default false (flags e !! task_flag tk) in
          suspend sid macro (task_flag tk)
            (after_action fuel (Macro.repeatCount macro) (Macro.actions macro)
                          flag iteration rest) e
      | AwaitingLoop =>
          {| macros := macros e;
             activePlaybacks := activePlaybacks e ∖ {[Macro.macroId macro]};
             stopFlags := delete (Macro.macroId macro) (stopFlags e);
             flags := flags e;
             tasks := <[sid := {| task_macro := macro;
                                  task_flag := task_flag tk;
                                  task_at := Finished |}]> (tasks e);
             events := events e ++ [CleanedUp sid] |}
      | Hung | Finished => e
      end
  end.

(** The sessions that are under way: begun and not yet cleaned up. *)
Definition under_way (tk : task) : bool :=
  match task_at tk with
  | Finished => false
  | _ => true
  end.

Definition live (e : t) : list nat :=
  List.filter (fun sid => match tasks e !! sid with
                          | Some tk => under_way tk
                          | None => false
                          end)
              (seq 0 (length (tasks e))).

(** [toJSON] fills a plain object, catalogue entry by catalogue entry. *)
Definition toJSON (e : t) : JsObject.t Macro.json :=
  fold_left (fun o '(id, macro) => JsObject.set id (Macro.toJSON macro) o)
            (macros e) JsObject.empty.

Definition fromJSON (now : Z) (data : JsObject.t Macro.json) (e : t)
    : Host t :=
  loaded <- mapM (fun '(_, macroData) => Macro.fromJSON now macroData)
                 (JsObject.entries data) ;;
  ret (set_macros
         (fold_left (fun m macro => JsMap.set (Macro.macroId macro) macro m)
                    loaded JsMap.empty) e).
End MacroEngine.

(** ** device-manager.js *)

Inductive DeviceType :=
| KEYBOARD
| JOYSTICK
| GAMEPAD
| HID.

Inductive InputType :=
| KeyInput
| ButtonInput
| AxisInput.

Record InputCapability := mkInputCapability {
  cap_name : string;
  inputType : InputType;
  cap_index : option nat;
  valueRange : option (Q * Q)
}.

Record Device := mkDevice {
  dev_deviceId : string;
  dev_name : string;
  deviceType : DeviceType;
  capabilities : list InputCapability;
  isConnected : bool;
  nativeObject : option Gamepad
}.

Module DeviceManager.
Record t := mk {
  devices : JsMap.t Device;
  enabledDevices : gmap string bool
}.

Definition key_capability (name : string) : InputCapability :=
  {| cap_name := name; inputType := KeyInput; cap_index := None;
     valueRange := None |}.

Definition specialKeys : list string :=
  [ "Space"; "Enter"; "Tab"; "Shift"; "Control"; "Alt";
    "Escape"; "Backspace"; "Delete"; "Insert"; "Home"; "End";
    "PageUp"; "PageDown"; "ArrowUp"; "ArrowDown";
    "ArrowLeft"; "ArrowRight"; "PrintScreen"; "ScrollLock";
    "Pause"; "CapsLock"; "NumLock"; "Meta" ].

Definition numpadSpecial : list string :=
  [ "NumpadAdd"; "NumpadSubtract"; "NumpadMultiply"; "NumpadDivide";
    "NumpadEnter"; "NumpadDecimal" ].

Definition _getKeyboardCapabilities : list InputCapability :=
  map (fun i => key_capability (String (ascii_of_nat i) EmptyString))
      (seq 65 26)
  ++ map (fun i => key_capability (decimal i)) (seq 0 10)
  ++ map (fun i => key_capability ("F" +:+ decimal i)) (seq 1 12)
  ++ map key_capability specialKeys
  ++ map (fun i => key_capability ("Numpad" +:+ decimal i)) (seq 0 10)
  ++ map key_capability numpadSpecial.

Definition axisNames : list string :=
  [ "Left Stick X"; "Left Stick Y"; "Right Stick X"; "Right Stick Y";
    "Left Trigger"; "Right Trigger" ].

(** [axisNames[i] || `Axis ${i}`] *)
Definition axis_name (i : nat) : string :=
  match axisNames !! i with
  | Some (String c s) => String c s
  | _ => "Axis " +:+ decimal i
  end.

Definition _getGamepadCapabilities (gamepad : Gamepad)
    : list InputCapability :=
  map (fun i => {| cap_name := "Button " +:+ decimal i; inputType := ButtonInput;
                   cap_index := Some i; valueRange := None |})
      (seq 0 (length (buttons gamepad)))
  ++ map (fun i => {| cap_name := axis_name i; inputType := AxisInput;
                      cap_index := Some i;
                      valueRange := Some ((-1)%Q, 1%Q) |})
         (seq 0 (length (axes gamepad))).

Definition _scanKeyboards (m : t) : t :=
  let keyboardId := "keyboard_0" in
  let keyboard :=
    {| dev_deviceId := keyboardId; dev_name := "System Keyboard";
       deviceType := KEYBOARD; capabilities := _getKeyboardCapabilities;
       isConnected := true; nativeObject := None |} in
  {| devices := JsMap.set keyboardId keyboard (devices m);
     enabledDevices := <[keyboardId := true]> (enabledDevices m) |}.

(** The device that [_scanGamepads] makes of the gamepad in slot [i]. *)
Definition joystick (i : nat) (gamepad : Gamepad) : Device :=
  {| dev_deviceId := "joystick_" +:+ decimal i;
     dev_name := or_str (Some (pad_id gamepad)) ("Joystick " +:+ decimal i);
     deviceType := JOYSTICK;
     capabilities := _getGamepadCapabilities gamepad;
     isConnected := true;
     nativeObject := Some gamepad |}.

(** The body of the loop of [_scanGamepads] for slot [i]. *)
Definition scan_gamepad (i : nat) (slot : option Gamepad) (m : t) : t :=
  match slot with
  | None => m
  | Some gamepad =>
      let deviceId := "joystick_" +:+ decimal i in
      let device := joystick i gamepad in
      {| devices := JsMap.set deviceId device (devices m);
         enabledDevices := <[deviceId := true]> (enabledDevices m) |}
  end.

Definition _scanGamepads (gamepads : list (option Gamepad)) (m : t) : t :=
  for_each scan_gamepad O gamepads m.

(** [_scanDevices], and with it [refreshDevices] and the handlers of the
    gamepad connection events: the table of enabled devices is not
    cleared. *)
Definition _scanDevices (gamepads : list (option Gamepad)) (m : t) : t :=
  _scanGamepads gamepads
    (_scanKeyboards {| devices := JsMap.empty;
                       enabledDevices := enabledDevices m |}).

Definition new (gamepads : list (option Gamepad)) : t :=
  _scanDevices gamepads {| devices := JsMap.empty; enabledDevices := ∅ |}.

Definition refreshDevices (gamepads : list (option Gamepad)) (m : t) : t :=
  _scanDevices gamepads m.

Definition getAllDevices (m : t) : list Device := JsMap.values (devices m).

Definition DeviceType_eqb (a b : DeviceType) : bool :=
  match a, b with
  | KEYBOARD, KEYBOARD | JOYSTICK, JOYSTICK | GAMEPAD, GAMEPAD | HID, HID =>
      true
  | _, _ => false
  end.

Definition getDevicesByType (ty : DeviceType) (m : t) : list Device :=
  List.filter (fun device => DeviceType_eqb (deviceType device) ty)
              (getAllDevices m).

Definition getDeviceById (deviceId : string) (m : t) : option Device :=
  JsMap.get deviceId (devices m).

Definition getDeviceCapabilities (deviceId : string) (m : t)
    : list InputCapability :=
  match getDeviceById deviceId m with
  | Some device => capabilities device
  | None => []
  end.

Definition setDeviceEnabled (deviceId : string) (enabled : bool) (m : t) : t :=
  if JsMap.has deviceId (devices m)
  then {| devices := devices m;
          enabledDevices := <[deviceId := enabled]> (enabledDevices m) |}
  else m.

Definition isDeviceEnabled (deviceId : string) (m : t) : bool :=
  default false (enabledDevices m !! deviceId).

(** [gamepads[index] !== null]: only a slot that holds [null] is not
    connected; an index that is [NaN], negative or past the end reads
    [undefined], which is not [null]. *)
Definition slot_not_null (gamepads : list (option Gamepad))
    (index : option Z) : bool :=
  match index with
  | Some i =>
      if i <? 0 then true
      else match gamepads !! Z.to_nat i with
           | Some None => false
           | _ => true
           end
  | None => true
  end.

Definition isDeviceConnected (gamepads : list (option Gamepad))
    (deviceId : string) (m : t) : bool :=
  match getDeviceById deviceId m with
  | None => false
  | Some device =>
      match deviceType device with
      | JOYSTICK =>
          slot_not_null gamepads (parseInt (split "_" deviceId !! 1%nat))
      | KEYBOARD => true
      | GAMEPAD | HID => false
      end
  end.

Definition shouldProcessDeviceInput (gamepads : list (option Gamepad))
    (deviceId : string) (m : t) : bool :=
  isDeviceConnected gamepads deviceId m && isDeviceEnabled deviceId m.
End DeviceManager.

(** * Vocabulary of the properties *)

(** ** Sessions *)

(** [passes n actions]: the actions of [n] complete passes, in order. *)
Definition passes (n : nat) (actions : list MacroAction.t)
    : list MacroAction.t :=
  concat (replicate n actions).

(** The effect log once [_executeAction] has run on [action], from the
    log [l]. *)
Definition executed (robot : injector) (l : list effect)
    (action : MacroAction.t) : list effect :=
  match _executeAction robot action l with
  | Normal l' => l'
  | Throw l' => l'
  end.

(** What executing [action] does to the outside when every call on the
    injector returns. *)
Definition effects_done (action : MacroAction.t) : list effect :=
  let key := _convertKeyName (MacroAction.inputName action) in
  match MacroAction.actionType action with
  | TIMER_DELAY => [Slept (MacroAction.duration action)]
  | KEYBOARD_KEY => [Called (keyTap key); Slept 50]
  | KEYBOARD_HOLD =>
      [Called (keyToggle key true); Slept (MacroAction.duration action)]
  | KEYBOARD_RELEASE => [Called (keyToggle key false)]
  | MOUSE_CLICK =>
      [Called (mouseClick (if truthy (MacroAction.value action)
                           then MacroAction.value action else VStr "left"));
       Slept 50]
  | MOUSE_MOVE =>
      match MacroAction.value action with
      | VPoint (Some x) (Some y) => [Called (moveMouse x y)]
      | _ => []
      end
  | JOYSTICK_BUTTON_ACTION | JOYSTICK_AXIS_ACTION => []
  end.

(** Two sessions that agree on the flag and on the actions begun. *)
Definition same_course (s1 s2 : session) : Prop :=
  stopped s1 = stopped s2 /\ begun s1 = begun s2.

(** What holds of a session under the schedule [sd]: a request made
    during an action that was begun has set the flag, and no action was
    begun after the one during which a request was made. *)
Definition stop_respected (sd : nat -> bool) (s : session) : Prop :=
  forall i, sd i = true ->
    ((i < length (begun s))%nat -> stopped s = true)
    /\ (length (begun s) <= S i)%nat.

Definition with_repeatCount (count : Z) (m : Macro.t) : Macro.t :=
  {| Macro.macroId := Macro.macroId m; Macro.name := Macro.name m;
     Macro.actions := Macro.actions m; Macro.repeatCount := count;
     Macro.enabled := Macro.enabled m; Macro.description := Macro.description m;
     Macro.createdAt := Macro.createdAt m;
     Macro.modifiedAt := Macro.modifiedAt m |}.

(** Where the loop stands when the [for] is left. *)
Definition after_for (fuel : nat) (R : Z) (actions : list MacroAction.t)
    (flag : bool) (iteration : Z) : progress :=
  if R =? 1 then Returns else while_head fuel R actions flag iteration.

(** A session driven alone, from one suspension to the next: the awaited
    action ends, with the stop flag set or not as the schedule has it, and
    the loop goes on to its next suspension.  [fuel] bounds the turns of the
    [while] that a single stretch may take. *)
Definition solo_step (fuel : nat) (sd : nat -> bool) (R : Z)
    (actions : list MacroAction.t) (ps : progress * session)
    : progress * session :=
  match ps with
  | (Suspends action iteration rest, s) =>
      let s' := {| stopped := stopped s || sd (length (begun s));
                   begun := begun s ++ [action];
                   log := log s |} in
      (after_action fuel R actions (stopped s') iteration rest, s')
  | _ => ps
  end.

(** ** Key-down events *)

Module KeyDown.
Import TriggerEngine.

Section Defs.
Variable shouldProcess : string -> bool.

(** Whether a key-down of [key] activates [trigger] at once, in state
    [e]. *)
Definition fires (key : string) (e : t) (trigger : Trigger.t) : bool :=
  Trigger.enabled trigger
  && negb (gated_out shouldProcess trigger)
  && String.eqb (Trigger.inputName trigger) key
  && match Trigger.triggerType trigger with
     | KEY_PRESS => true
     | KEY_COMBO => _checkModifiers (Trigger.modifiers trigger) e
     | KEY_DOUBLE_TAP =>
         _checkDoubleTap key (Trigger.doubleTapWindow trigger) e
     | KEY_HOLD | JOYSTICK_BUTTON | JOYSTICK_AXIS => false
     end.

(** The triggers a key-down event activates at once. *)
Definition fired (key : string) (now : Z) (e : t) : list Trigger.t :=
  drop (length (activated e))
       (activated (_handleKeyDown shouldProcess key now e)).

(** The triggers one [keydown] event activates, through all the listeners
    that [document] holds. *)
Definition fired_by_event (key : string) (clock : nat -> Z) (e : t)
    : list Trigger.t :=
  drop (length (activated e))
       (activated (keydown_event shouldProcess key clock e)).
End Defs.

(** Checking a trigger changes neither the held keys nor the press
    times, which is all [fires] reads. *)
Definition same_inputs (e e' : t) : Prop :=
  pressedKeys e' = pressedKeys e /\ keyPressTimes e' = keyPressTimes e.

(** The press times on record for [key] after the event: the earlier
    ones and [now], less those a second old or older. *)
Definition recorded (key : string) (now : Z) (e : t) : list Z :=
  filter (fun t => now - t < 1000)
         (default [] (keyPressTimes e !! key) ++ [now]).

(** The state in which the triggers are checked. *)
Definition pressed (key : string) (now : Z) (e : t) : t :=
  {| triggers := triggers e; monitoring := monitoring e;
     keydownListeners := keydownListeners e;
     keyupListeners := keyupListeners e;
     gamepadInterval := gamepadInterval e;
     pressedKeys := {[key]} ∪ pressedKeys e;
     keyPressTimes :=
       <[key := recorded key now e]>
         (<[key := default [] (keyPressTimes e !! key) ++ [now]]>
            (keyPressTimes e));
     keyHoldTimers := keyHoldTimers e; timeouts := timeouts e;
     next_handle := next_handle e; activated := activated e |}.
End KeyDown.

(** ** Sample data

    The macro [combo] is the one of the scenario of the specification:
    tap A, wait 100 ms, tap B. *)

Definition sample_action (id : string) (ty : ActionType) (key : string)
    (ms : Z) : MacroAction.t :=
  {| MacroAction.actionId := id; MacroAction.actionType := ty;
     MacroAction.deviceId := None; MacroAction.inputName := key;
     MacroAction.value := VNull; MacroAction.duration := ms |}.

Definition sample_macro (id : string) (acts : list MacroAction.t)
    (count : Z) : Macro.t :=
  {| Macro.macroId := id; Macro.name := "Combo"; Macro.actions := acts;
     Macro.repeatCount := count; Macro.enabled := true;
     Macro.description := ""; Macro.createdAt := 1000;
     Macro.modifiedAt := 1000 |}.

Definition tapA : MacroAction.t := sample_action "a1" KEYBOARD_KEY "A" 0.
Definition wait100 : MacroAction.t := sample_action "a2" TIMER_DELAY "" 100.
Definition tapB : MacroAction.t := sample_action "a3" KEYBOARD_KEY "B" 0.

Definition combo (count : Z) : Macro.t :=
  sample_macro "m1" [tapA; wait100; tapB] count.

Definition sample_trigger (id : string) (ty : TriggerType) (key : string)
    : Trigger.t :=
  {| Trigger.triggerId := id; Trigger.triggerType := ty;
     Trigger.macroId := "m1"; Trigger.deviceId := Some "keyboard_0";
     Trigger.inputName := key; Trigger.modifiers := [];
     Trigger.axisThreshold := 0.5; Trigger.holdDuration := 500;
     Trigger.doubleTapWindow := 300; Trigger.enabled := true |}.

Definition sample_trigger_window (id : string) (key : string) (window : Z)
    : Trigger.t :=
  {| Trigger.triggerId := id; Trigger.triggerType := KEY_DOUBLE_TAP;
     Trigger.macroId := "m1"; Trigger.deviceId := Some "keyboard_0";
     Trigger.inputName := key; Trigger.modifiers := [];
     Trigger.axisThreshold := 0.5; Trigger.holdDuration := 500;
     Trigger.doubleTapWindow := window; Trigger.enabled := true |}.

(** An engine that is monitoring, with the given triggers registered. *)
Definition listening (trs : list Trigger.t) : TriggerEngine.t :=
  TriggerEngine.startMonitoring
    (TriggerEngine.set_triggers
       (fold_left (fun m tr => JsMap.set (Trigger.triggerId tr) tr m) trs
                  JsMap.empty)
       TriggerEngine.new).

Definition every_device (_ : string) : bool := true.

Definition double_f : Trigger.t := sample_trigger "t1" KEY_DOUBLE_TAP "f".

Definition hold_f : Trigger.t := sample_trigger "t2" KEY_HOLD "f".

(** A hold trigger on "f" with the given [holdDuration]. *)
Definition hold_f_for (ms : Z) : Trigger.t :=
  {| Trigger.triggerId := "t7"; Trigger.triggerType := KEY_HOLD;
     Trigger.macroId := "m1"; Trigger.deviceId := Some "keyboard_0";
     Trigger.inputName := "f"; Trigger.modifiers := [];
     Trigger.axisThreshold := 0.5; Trigger.holdDuration := ms;
     Trigger.doubleTapWindow := 300; Trigger.enabled := true |}.

(** The key goes down at time 0 and stays down; the trigger is deleted
    before its 500 ms have passed. *)
Definition f_held_then_deleted : TriggerEngine.t :=
  TriggerEngine.deleteTrigger "t2"
    (TriggerEngine._handleKeyDown every_device "f" 0 (listening [hold_f])).

Definition some_host : host := {| uuids := fun _ => "fresh"; issued := O |}.

(** A macro that waits 100 ms and taps B, over and over. *)
Definition pulse : Macro.t := sample_macro "m1" [wait100; tapB] 0.

Definition engine_with (m : Macro.t) : MacroEngine.t :=
  MacroEngine.set_macros (JsMap.set (Macro.macroId m) m JsMap.empty)
                         MacroEngine.new.

(** [playMacro("m1")] twice: the second call is made while the first
    session is in its wait. *)
Definition played_twice : MacroEngine.t :=
  MacroEngine.playMacro 2 "m1" (MacroEngine.playMacro 2 "m1" (engine_with pulse)).

(** Then the wait of the first session ends: it finds its flag set, leaves
    its loop, and the cleanup of its [playMacro] runs. *)
Definition first_retired : MacroEngine.t :=
  MacroEngine.resume 2 0 (MacroEngine.resume 2 0 played_twice).

(** ** Key names and hold timers *)

(** A capital letter: A to Z, or one of Latin-1. *)
Definition is_upper (c : ascii) : bool :=
  let n := nat_of_ascii c in
  (((65 <=? n) && (n <=? 90))
   || ((192 <=? n) && (n <=? 222) && negb (n =? 215)))%nat.

(** No capital letter in the string. *)
Fixpoint no_upper (s : string) : bool :=
  match s with
  | EmptyString => true
  | String c s' => negb (is_upper c) && no_upper s'
  end.

(** Every pending timeout is the one on record for its key. *)
Definition hold_timers_wf (e : TriggerEngine.t) : Prop :=
  forall h tm,
    TriggerEngine.timeouts e !! h = Some tm ->
    TriggerEngine.keyHoldTimers e !! timer_key tm = Some h.

(** Whether a key-down of [key] arms the hold timer for [trigger]. *)
Definition arms (shouldProcess : string -> bool) (key : string)
    (trigger : Trigger.t) : bool :=
  Trigger.enabled trigger
  && negb (TriggerEngine.gated_out shouldProcess trigger)
  && String.eqb (Trigger.inputName trigger) key
  && match Trigger.triggerType trigger with
     | KEY_HOLD => true
     | _ => false
     end.

(** ** Catalogues *)

(** A catalogue whose keys are distinct and are the identifiers of their
    entries. *)
Definition keyed {V : Type} (key_of : V -> string) (m : JsMap.t V) : Prop :=
  NoDup (JsMap.keys m) /\ forall k v, In (k, v) m -> k = key_of v.




(** ** Joystick samples *)

(** Whether a sample [v] of axis [j] of the device activates the
    trigger. *)
Definition axis_fires (deviceId : string) (j : nat) (v : Q)
    (tr : Trigger.t) : bool :=
  Trigger.enabled tr
  && match Trigger.triggerType tr with
     | JOYSTICK_AXIS => true
     | _ => false
     end
  && TriggerEngine.on_device deviceId tr
  && includes ("Axis " +:+ decimal j) (Trigger.inputName tr)
  && Qle_bool (Trigger.axisThreshold tr) (Qabs v).

(** Whether button [j] of the device, pressed, activates the trigger. *)
Definition button_fires (deviceId : string) (j : nat) (tr : Trigger.t)
    : bool :=
  Trigger.enabled tr
  && match Trigger.triggerType tr with
     | JOYSTICK_BUTTON => true
     | _ => false
     end
  && TriggerEngine.on_device deviceId tr
  && String.eqb (Trigger.inputName tr) ("Button " +:+ decimal j).

(** [e] with the triggers [new] activated, in that order, and nothing
    else changed. *)
Definition activating (new : list Trigger.t) (e : TriggerEngine.t)
    : TriggerEngine.t :=
  {| TriggerEngine.triggers := TriggerEngine.triggers e;
     TriggerEngine.monitoring := TriggerEngine.monitoring e;
     TriggerEngine.keydownListeners := TriggerEngine.keydownListeners e;
     TriggerEngine.keyupListeners := TriggerEngine.keyupListeners e;
     TriggerEngine.gamepadInterval := TriggerEngine.gamepadInterval e;
     TriggerEngine.pressedKeys := TriggerEngine.pressedKeys e;
     TriggerEngine.keyPressTimes := TriggerEngine.keyPressTimes e;
     TriggerEngine.keyHoldTimers := TriggerEngine.keyHoldTimers e;
     TriggerEngine.timeouts := TriggerEngine.timeouts e;
     TriggerEngine.next_handle := TriggerEngine.next_handle e;
     TriggerEngine.activated := TriggerEngine.activated e ++ new |}.

(** The triggers that one poll of a gamepad in slot [i] activates: for
    each pressed button in turn the button triggers, then for each axis in
    turn the axis triggers. *)
Definition pad_activations (i : nat) (pad : Gamepad) (trs : list Trigger.t)
    : list Trigger.t :=
  let deviceId := "joystick_" +:+ decimal i in
  concat (imap (fun j pressed =>
                  if pressed : bool
                  then List.filter (button_fires deviceId j) trs else [])
               (buttons pad))
  ++ concat (imap (fun j v => List.filter (axis_fires deviceId j v) trs)
                  (axes pad)).

Definition poll_activations (shouldProcess : string -> bool)
    (gamepads : list (option Gamepad)) (trs : list Trigger.t)
    : list Trigger.t :=
  concat (imap (fun i slot =>
                  match slot with
                  | Some pad =>
                      if shouldProcess ("joystick_" +:+ decimal i)
                      then pad_activations i pad trs else []
                  | None => []
                  end)
               gamepads).

Definition axis_trigger (name : string) (threshold : Q) : Trigger.t :=
  {| Trigger.triggerId := "t5"; Trigger.triggerType := JOYSTICK_AXIS;
     Trigger.macroId := "m1"; Trigger.deviceId := Some "joystick_0";
     Trigger.inputName := name; Trigger.modifiers := [];
     Trigger.axisThreshold := threshold; Trigger.holdDuration := 500;
     Trigger.doubleTapWindow := 300; Trigger.enabled := true |}.

Definition button_trigger (name : string) : Trigger.t :=
  {| Trigger.triggerId := "t6"; Trigger.triggerType := JOYSTICK_BUTTON;
     Trigger.macroId := "m1"; Trigger.deviceId := Some "joystick_0";
     Trigger.inputName := name; Trigger.modifiers := [];
     Trigger.axisThreshold := 0.5; Trigger.holdDuration := 500;
     Trigger.doubleTapWindow := 300; Trigger.enabled := true |}.

(** * Properties *)

(** ** The ordered map *)

Lemma JsMap_get_delete {V : Type} (k : string) (m : JsMap.t V) :
  JsMap.get k (JsMap.delete k m) = None.
Proof.
  induction m as [|[k' v'] m IH]; simpl; [reflexivity|].
  destruct (String.eqb k k') eqn:Hk; [exact IH|].
  simpl. rewrite Hk. exact IH.
Qed.

Lemma JsMap_get_delete_ne {V : Type} (k k' : string) (m : JsMap.t V) :
  k <> k' -> JsMap.get k' (JsMap.delete k m) = JsMap.get k' m.
Proof.
  intros Hne. induction m as [|[k0 v0] m IH]; simpl; [reflexivity|].
  destruct (String.eqb_spec k k0) as [<-|Hk0].
  - destruct (String.eqb_spec k' k) as [->|_]; [congruence | exact IH].
  - simpl. rewrite IH. reflexivity.
Qed.

(** ** Moving an action *)

Lemma findIndex_absent (id : string) (l : list MacroAction.t) :
  (forall a, a ∈ l -> MacroAction.actionId a <> id) ->
  Macro.findIndex id l = None.
Proof.
  induction l as [|a l IH]; intros Habs; simpl; [reflexivity|].
  destruct (String.eqb_spec (MacroAction.actionId a) id) as [Heq|_].
  - exfalso. apply (Habs a); [left | exact Heq].
  - rewrite IH; [reflexivity|].
    intros b Hb. apply Habs. right. exact Hb.
Qed.

Lemma findIndex_Some (id : string) (l : list MacroAction.t) (i : nat) :
  Macro.findIndex id l = Some i ->
  exists a, l !! i = Some a /\ MacroAction.actionId a = id.
Proof.
  revert i. induction l as [|a l IH]; intros i; simpl; [discriminate|].
  destruct (String.eqb_spec (MacroAction.actionId a) id) as [Heq|_].
  - intros [= <-]. exists a. split; [reflexivity | exact Heq].
  - destruct (Macro.findIndex id l) as [j|]; simpl; [|discriminate].
    intros [= <-]. destruct (IH j eq_refl) as (b & Hb & Hid).
    exists b. split; assumption.
Qed.

Example moveAction_to_front :
  Macro.actions (Macro.moveAction "a3" 0 2000 (combo 2)) = [tapB; tapA; wait100]
  /\ Macro.modifiedAt (Macro.moveAction "a3" 0 2000 (combo 2)) = 2000.
Proof. split; reflexivity. Qed.

Example moveAction_negative_index :
  Macro.actions (Macro.moveAction "a1" (-1) 2000 (combo 2))
  = [wait100; tapA; tapB].
Proof. reflexivity. Qed.

(** C9. [moveAction] with an [actionId] that no action of the macro has
    leaves the macro as it is: the same action list, and [modifiedAt] is not
    touched. *)
Theorem moveAction_unknown_id (m : Macro.t) (id : string) (newIndex now : Z) :
  (forall a, a ∈ Macro.actions m -> MacroAction.actionId a <> id) ->
  Macro.moveAction id newIndex now m = m.
Proof.
  intros Habs. unfold Macro.moveAction.
  rewrite (findIndex_absent id (Macro.actions m) Habs). reflexivity.
Qed.

Lemma moveAction_unknown_id_witness :
  Macro.moveAction "zz" 1 2000 (combo 2) = combo 2.
Proof.
  apply (moveAction_unknown_id (combo 2) "zz" 1 2000).
  intros a Ha. simpl in Ha.
  repeat (apply elem_of_cons in Ha as [-> | Ha]); try discriminate.
  apply elem_of_nil in Ha. destruct Ha.
Defined.

(** ** One action never throws *)

Lemma _executeAction_returns (robot : injector) (a : MacroAction.t)
    (l : list effect) :
  exists l', _executeAction robot a l = Normal l'.
Proof.
  unfold _executeAction. destruct (dispatch robot a l); eauto.
Qed.

Lemma await_executeAction_returns (robot : injector) (sd : nat -> bool)
    (a : MacroAction.t) (s : session) :
  exists l',
    await_executeAction robot sd a s
    = Normal {| stopped := stopped s || sd (length (begun s));
                begun := begun s ++ [a];
                log := l' |}.
Proof.
  unfold await_executeAction.
  destruct (_executeAction_returns robot a (log s)) as [l' ->]. eauto.
Qed.

(** ** One pass *)

Section PassFacts.
Variable robot : injector.
Variable sd : nat -> bool.

Lemma run_pass_returns (actions : list MacroAction.t) (s : session) :
  exists s', run_pass robot sd actions s = Normal s'.
Proof.
  revert s. induction actions as [|a rest IH]; intros s; simpl; [eauto|].
  destruct (stopped s); [eauto|].
  destruct (await_executeAction_returns robot sd a s) as [l' ->].
  apply IH.
Qed.

Lemma run_pass_stopped (actions : list MacroAction.t) (s : session) :
  stopped s = true -> run_pass robot sd actions s = Normal s.
Proof. intros Hs. destruct actions; simpl; [|rewrite Hs]; reflexivity. Qed.

(** A pass that ends with the flag unset has begun every action. *)
Lemma run_pass_complete (actions : list MacroAction.t) (s s' : session) :
  run_pass robot sd actions s = Normal s' ->
  stopped s' = false ->
  stopped s = false /\ begun s' = begun s ++ actions.
Proof.
  revert s. induction actions as [|a rest IH]; intros s; simpl.
  - intros [= <-] Hs. split; [exact Hs | symmetry; apply app_nil_r].
  - destruct (stopped s) eqn:Hst.
    + intros [= <-] Hs. congruence.
    + destruct (await_executeAction_returns robot sd a s) as [l' ->].
      intros Hrun Hs. destruct (IH _ Hrun Hs) as [_ Hb].
      split; [reflexivity|]. rewrite Hb. simpl. rewrite <- app_assoc.
      reflexivity.
Qed.

Lemma run_pass_grows (actions : list MacroAction.t) (s s' : session) :
  run_pass robot sd actions s = Normal s' ->
  (length (begun s) <= length (begun s'))%nat.
Proof.
  revert s. induction actions as [|a rest IH]; intros s; simpl.
  - intros [= <-]. lia.
  - destruct (stopped s); [intros [= <-]; lia|].
    destruct (await_executeAction_returns robot sd a s) as [l' ->].
    intros Hrun. apply IH in Hrun. simpl in Hrun.
    rewrite length_app in Hrun. simpl in Hrun. lia.
Qed.
End PassFacts.

(** With no stop request, a pass begins every action, in order. *)
Lemma run_pass_undisturbed (robot : injector) (actions : list MacroAction.t)
    (s : session) :
  stopped s = false ->
  exists s', run_pass robot (fun _ => false) actions s = Normal s'
             /\ stopped s' = false /\ begun s' = begun s ++ actions.
Proof.
  revert s. induction actions as [|a rest IH]; intros s Hs; simpl.
  - exists s. rewrite app_nil_r. auto.
  - rewrite Hs.
    destruct (await_executeAction_returns robot (fun _ => false) a s)
      as [l' ->].
    destruct (IH {| stopped := stopped s || false; begun := begun s ++ [a];
                    log := l' |}) as (s' & Hrun & Hst & Hb).
    { simpl. rewrite Hs. reflexivity. }
    exists s'. split; [exact Hrun|]. split; [exact Hst|].
    rewrite Hb. simpl. rewrite <- app_assoc. reflexivity.
Qed.

Lemma passes_S (n : nat) (actions : list MacroAction.t) :
  passes (S n) actions = actions ++ passes n actions.
Proof. reflexivity. Qed.

Lemma length_passes (n : nat) (actions : list MacroAction.t) :
  length (passes n actions) = (n * length actions)%nat.
Proof.
  induction n as [|n IH]; [reflexivity|].
  rewrite passes_S, length_app, IH. simpl. reflexivity.
Qed.

(** The [i]-th action of pass [p] is the [i]-th action of the list. *)
Lemma passes_lookup (n : nat) (actions : list MacroAction.t) (p i : nat) :
  (p < n)%nat -> (i < length actions)%nat ->
  passes n actions !! (p * length actions + i)%nat = actions !! i.
Proof.
  revert p. induction n as [|n IH]; intros p Hp Hi; [lia|].
  rewrite passes_S. destruct p as [|p]; simpl.
  - apply lookup_app_l. exact Hi.
  - rewrite lookup_app_r by lia.
    replace (length actions + p * length actions + i - length actions)%nat
      with (p * length actions + i)%nat by lia.
    apply IH; lia.
Qed.

Lemma count_occ_passes (dec : forall x y : MacroAction.t, {x = y} + {x <> y})
    (n : nat) (actions : list MacroAction.t) (a : MacroAction.t) :
  count_occ dec (passes n actions) a = (n * count_occ dec actions a)%nat.
Proof.
  induction n as [|n IH]; [reflexivity|].
  rewrite passes_S, count_occ_app, IH. simpl. reflexivity.
Qed.

(** ** The loop with a positive repeat count *)

(** From iteration counter [it], the loop makes the [N - it] passes that
    are left and returns. *)
Lemma playback_while_counted (robot : injector) (N : Z)
    (actions : list MacroAction.t) (fuel : nat) :
  1 <= N ->
  forall (it : Z) (s : session),
    0 <= it <= N ->
    stopped s = false ->
    (Z.to_nat (N - it) < fuel)%nat ->
    exists s',
      playback_while robot (fun _ => false) fuel N actions it s = (Returned, s')
      /\ stopped s' = false
      /\ begun s' = begun s ++ passes (Z.to_nat (N - it)) actions.
Proof.
  intros HN. induction fuel as [|fuel IH]; intros it s Hit Hs Hfuel; [lia|].
  simpl. rewrite Hs.
  assert ((0 <? N) = true) as -> by (apply Z.ltb_lt; lia). simpl.
  destruct (Z.ltb_spec N (it + 1)) as [Hover|Hmore].
  - exists s. replace (N - it) with 0 by lia. simpl.
    rewrite app_nil_r. auto.
  - destruct (run_pass_undisturbed robot actions s Hs) as (s1 & -> & Hs1 & Hb1).
    replace (Z.to_nat (N - it)) with (S (Z.to_nat (N - (it + 1)))) by lia.
    rewrite passes_S.
    destruct (Z.eqb_spec N 1) as [->|HN1].
    + exists s1. replace (1 - (it + 1)) with 0 by lia. simpl.
      rewrite app_nil_r. auto.
    + destruct (IH (it + 1) s1) as (s' & Hrun & Hs' & Hb'); [lia|exact Hs1|lia|].
      exists s'. split; [exact Hrun|]. split; [exact Hs'|].
      rewrite Hb', Hb1, <- app_assoc. reflexivity.
Qed.

(** The effects of a pass with no stop request are those of its actions,
    executed one after the other. *)
Lemma run_pass_undisturbed_log (robot : injector)
    (actions : list MacroAction.t) (s : session) :
  stopped s = false ->
  exists s', run_pass robot (fun _ => false) actions s = Normal s'
             /\ stopped s' = false /\ begun s' = begun s ++ actions
             /\ log s' = fold_left (executed robot) actions (log s).
Proof.
  revert s. induction actions as [|a rest IH]; intros s Hs; simpl.
  - exists s. rewrite app_nil_r. auto.
  - rewrite Hs. unfold await_executeAction, executed.
    destruct (_executeAction_returns robot a (log s)) as [l' ->].
    destruct (IH {| stopped := stopped s || false; begun := begun s ++ [a];
                    log := l' |}) as (s' & Hrun & Hst & Hb & Hl).
    { simpl. rewrite Hs. reflexivity. }
    exists s'. split; [exact Hrun|]. split; [exact Hst|].
    split; [|exact Hl].
    rewrite Hb. simpl. rewrite <- app_assoc. reflexivity.
Qed.

Lemma fold_executed_app (robot : injector) (l1 l2 : list MacroAction.t)
    (l : list effect) :
  fold_left (executed robot) (l1 ++ l2) l
  = fold_left (executed robot) l2 (fold_left (executed robot) l1 l).
Proof. apply fold_left_app. Qed.

Lemma playback_while_counted_log (robot : injector) (N : Z)
    (actions : list MacroAction.t) (fuel : nat) :
  1 <= N ->
  forall (it : Z) (s : session),
    0 <= it <= N ->
    stopped s = false ->
    (Z.to_nat (N - it) < fuel)%nat ->
    exists s',
      playback_while robot (fun _ => false) fuel N actions it s = (Returned, s')
      /\ stopped s' = false
      /\ begun s' = begun s ++ passes (Z.to_nat (N - it)) actions
      /\ log s' = fold_left (executed robot)
                            (passes (Z.to_nat (N - it)) actions) (log s).
Proof.
  intros HN. induction fuel as [|fuel IH]; intros it s Hit Hs Hfuel; [lia|].
  simpl. rewrite Hs.
  assert ((0 <? N) = true) as -> by (apply Z.ltb_lt; lia). simpl.
  destruct (Z.ltb_spec N (it + 1)) as [Hover|Hmore].
  - exists s. replace (N - it) with 0 by lia. simpl.
    rewrite app_nil_r. auto.
  - destruct (run_pass_undisturbed_log robot actions s Hs)
      as (s1 & -> & Hs1 & Hb1 & Hl1).
    replace (Z.to_nat (N - it)) with (S (Z.to_nat (N - (it + 1)))) by lia.
    rewrite passes_S, fold_executed_app, <- Hl1.
    destruct (Z.eqb_spec N 1) as [->|HN1].
    + exists s1. replace (1 - (it + 1)) with 0 by lia. simpl.
      rewrite app_nil_r. auto.
    + destruct (IH (it + 1) s1) as (s' & Hrun & Hs' & Hb' & Hl');
        [lia|exact Hs1|lia|].
      exists s'. split; [exact Hrun|]. split; [exact Hs'|].
      split; [|exact Hl'].
      rewrite Hb', Hb1, <- app_assoc. reflexivity.
Qed.

(** With an injector whose every call returns, an action leaves its own
    effects, whatever went before. *)
Lemma executed_done (r : nat -> robot_call -> bool) (l : list effect)
    (a : MacroAction.t) :
  (forall k c, r k c = true) ->
  executed (Some r) l a = l ++ effects_done a.
Proof.
  intros Hr.
  unfold executed, effects_done, _executeAction, dispatch,
    _executeKeyboardKey, _executeKeyboardHold, _executeKeyboardRelease,
    _executeMouseClick, _executeMouseMove, call, _sleep.
  destruct (MacroAction.actionType a); rewrite ?Hr, <- ?app_assoc;
    try reflexivity; try (symmetry; apply app_nil_r).
  destruct (MacroAction.value a) as [| | |[x|] [y|]]; rewrite ?Hr;
    try reflexivity; symmetry; apply app_nil_r.
Qed.

Lemma fold_executed_done (r : nat -> robot_call -> bool)
    (actions : list MacroAction.t) :
  (forall k c, r k c = true) ->
  forall l, fold_left (executed (Some r)) actions l
            = l ++ concat (map effects_done actions).
Proof.
  intros Hr. induction actions as [|a rest IH]; intros l; simpl.
  - symmetry. apply app_nil_r.
  - rewrite IH, (executed_done r l a Hr), <- app_assoc. reflexivity.
Qed.

(** C2. A macro with repeat count [N >= 1] and [K] actions, played with a
    stop flag that is never set: the loop returns, having begun exactly the
    actions of [N] complete passes, each pass in list order; so [N * K]
    actions in all, the one at place [i] of pass [p] is action [i] of the
    list, and each action is executed [N] times as often as it occurs in
    the list.  Whatever the injector does, the effects of the session are
    those of executing these [N * K] actions one after the other, each from
    the log the ones before it left; with an injector whose every call
    returns they are, pass after pass and action after action, the calls
    and pauses of each action. *)
Theorem playback_runs_N_passes (robot : injector) (macro : Macro.t)
    (fuel : nat) :
  1 <= Macro.repeatCount macro ->
  (Z.to_nat (Macro.repeatCount macro) < fuel)%nat ->
  let N := Z.to_nat (Macro.repeatCount macro) in
  let K := length (Macro.actions macro) in
  let r := _playbackLoop robot (fun _ => false) fuel macro fresh_session in
  fst r = Returned
  /\ stopped (snd r) = false
  /\ begun (snd r) = passes N (Macro.actions macro)
  /\ length (begun (snd r)) = (N * K)%nat
  /\ (forall p i, (p < N)%nat -> (i < K)%nat ->
        begun (snd r) !! (p * K + i)%nat = Macro.actions macro !! i)
  /\ (forall dec a, count_occ dec (begun (snd r)) a
                    = (N * count_occ dec (Macro.actions macro) a)%nat)
  /\ log (snd r)
     = fold_left (executed robot) (passes N (Macro.actions macro)) []
  /\ (forall r0, robot = Some r0 -> (forall k c, r0 k c = true) ->
        log (snd r)
        = concat (map effects_done (passes N (Macro.actions macro)))).
Proof.
  intros HN Hfuel N K r.
  destruct (playback_while_counted_log robot (Macro.repeatCount macro)
              (Macro.actions macro) fuel HN 0 fresh_session)
    as (s' & Hrun & Hs' & Hb' & Hl');
    [lia|reflexivity|rewrite Z.sub_0_r; exact Hfuel|].
  rewrite Z.sub_0_r in Hb', Hl'. simpl in Hb', Hl'.
  subst r. unfold _playbackLoop. rewrite Hrun. simpl.
  fold N in Hb', Hl'.
  split; [reflexivity|]. split; [exact Hs'|]. split; [exact Hb'|].
  rewrite Hb'. split; [apply length_passes|].
  split; [intros p i Hp Hi; apply passes_lookup; assumption|].
  split; [intros dec a; apply count_occ_passes|].
  split; [exact Hl'|].
  intros r0 -> Hr0. rewrite Hl'. apply (fold_executed_done r0 _ Hr0 []).
Qed.

Lemma playback_runs_N_passes_witness :
  let r := _playbackLoop (Some (fun _ _ => true)) (fun _ => false) 3
                         (combo 2) fresh_session in
  fst r = Returned
  /\ begun (snd r) = [tapA; wait100; tapB; tapA; wait100; tapB]
  /\ log (snd r)
     = concat (map effects_done [tapA; wait100; tapB; tapA; wait100; tapB]).
Proof.
  destruct (playback_runs_N_passes (Some (fun _ _ => true)) (combo 2) 3)
    as (H1 & _ & H3 & _ & _ & _ & _ & H8).
  - simpl. lia.
  - simpl. lia.
  - split; [exact H1|]. split; [exact H3|].
    apply (H8 (fun _ _ => true) eq_refl). reflexivity.
Defined.

(** The scenario of the specification, with a working injector. *)
Example combo_twice :
  _playbackLoop (Some (fun _ _ => true)) (fun _ => false) 3 (combo 2)
                fresh_session
  = (Returned,
     {| stopped := false;
        begun := [tapA; wait100; tapB; tapA; wait100; tapB];
        log := [Called (keyTap "a"); Slept 50; Slept 100;
                Called (keyTap "b"); Slept 50;
                Called (keyTap "a"); Slept 50; Slept 100;
                Called (keyTap "b"); Slept 50] |}).
Proof. reflexivity. Qed.

(** ** The loop never throws, and does not depend on the injector *)

Lemma playback_while_never_throws (robot : injector) (sd : nat -> bool)
    (fuel : nat) (R : Z) (actions : list MacroAction.t) :
  forall (it : Z) (s : session),
    fst (playback_while robot sd fuel R actions it s) <> Threw.
Proof.
  induction fuel as [|fuel IH]; intros it s; simpl; [discriminate|].
  destruct (stopped s); [discriminate|].
  destruct ((0 <? R) && (R <? (if 0 <? R then it + 1 else it)));
    [discriminate|].
  destruct (run_pass_returns robot sd actions s) as [s' ->].
  destruct (R =? 1); [discriminate|]. apply IH.
Qed.

Lemma run_pass_same_course (r1 r2 : injector) (sd : nat -> bool)
    (actions : list MacroAction.t) :
  forall s1 s2, same_course s1 s2 ->
    exists s1' s2',
      run_pass r1 sd actions s1 = Normal s1'
      /\ run_pass r2 sd actions s2 = Normal s2'
      /\ same_course s1' s2'.
Proof.
  induction actions as [|a rest IH]; intros s1 s2 [Hst Hb]; simpl.
  - exists s1, s2. repeat split; assumption.
  - rewrite <- Hst. destruct (stopped s1) eqn:H1.
    + exists s1, s2. repeat split; congruence.
    + destruct (await_executeAction_returns r1 sd a s1) as [l1 ->].
      destruct (await_executeAction_returns r2 sd a s2) as [l2 ->].
      apply IH. split; simpl; congruence.
Qed.

Lemma playback_while_same_course (r1 r2 : injector) (sd : nat -> bool)
    (fuel : nat) (R : Z) (actions : list MacroAction.t) :
  forall (it : Z) (s1 s2 : session),
    same_course s1 s2 ->
    fst (playback_while r1 sd fuel R actions it s1)
    = fst (playback_while r2 sd fuel R actions it s2)
    /\ same_course (snd (playback_while r1 sd fuel R actions it s1))
                   (snd (playback_while r2 sd fuel R actions it s2)).
Proof.
  induction fuel as [|fuel IH]; intros it s1 s2 Hsame; simpl; [auto|].
  pose proof Hsame as [Hst _]. rewrite <- Hst.
  destruct (stopped s1); [auto|].
  destruct ((0 <? R) && (R <? (if 0 <? R then it + 1 else it))); [auto|].
  destruct (run_pass_same_course r1 r2 sd actions s1 s2 Hsame)
    as (s1' & s2' & -> & -> & Hsame').
  destruct (R =? 1); [auto|]. apply IH. exact Hsame'.
Qed.

(** ** The loop without a repeat limit *)

Section Unbounded.
Variable robot : injector.
Variable R : Z.
Hypothesis no_limit : R <= 0.
Variable actions : list MacroAction.t.

Lemma playback_while_unbounded_step (sd : nat -> bool) (fuel : nat)
    (it : Z) (s : session) :
  playback_while robot sd (S fuel) R actions it s
  = if stopped s then (Returned, s)
    else match run_pass robot sd actions s with
         | Normal s' => playback_while robot sd fuel R actions it s'
         | Throw s' => (Threw, s')
         end.
Proof.
  simpl. destruct (stopped s); [reflexivity|].
  assert ((0 <? R) = false) as -> by (apply Z.ltb_ge; lia). simpl.
  assert ((R =? 1) = false) as -> by (apply Z.eqb_neq; lia).
  reflexivity.
Qed.

(** The iteration counter plays no part. *)
Lemma playback_while_unbounded_it (sd : nat -> bool) (fuel : nat) :
  forall (it it' : Z) (s : session),
    playback_while robot sd fuel R actions it s
    = playback_while robot sd fuel R actions it' s.
Proof.
  induction fuel as [|fuel IH]; intros it it' s; [reflexivity|].
  rewrite !playback_while_unbounded_step.
  destruct (stopped s); [reflexivity|].
  destruct (run_pass robot sd actions s); [apply IH | reflexivity].
Qed.

(** Never stopped, the loop is still running after any number of turns,
    and has made as many complete passes. *)
Lemma playback_while_unbounded_runs (fuel : nat) :
  forall (it : Z) (s : session),
    stopped s = false ->
    exists s',
      playback_while robot (fun _ => false) fuel R actions it s
      = (Running, s')
      /\ stopped s' = false
      /\ begun s' = begun s ++ passes fuel actions.
Proof.
  induction fuel as [|fuel IH]; intros it s Hs.
  - exists s. simpl. rewrite app_nil_r. auto.
  - rewrite playback_while_unbounded_step, Hs.
    destruct (run_pass_undisturbed robot actions s Hs)
      as (s1 & -> & Hs1 & Hb1).
    destruct (IH it s1 Hs1) as (s' & Hrun & Hs' & Hb').
    exists s'. split; [exact Hrun|]. split; [exact Hs'|].
    rewrite Hb', Hb1, passes_S, <- app_assoc. reflexivity.
Qed.

(** The loop returns only with the flag set. *)
Lemma playback_while_unbounded_returned (sd : nat -> bool) (fuel : nat) :
  forall (it : Z) (s : session),
    fst (playback_while robot sd fuel R actions it s) = Returned ->
    stopped (snd (playback_while robot sd fuel R actions it s)) = true.
Proof.
  induction fuel as [|fuel IH]; intros it s; [discriminate|].
  rewrite playback_while_unbounded_step.
  destruct (stopped s) eqn:Hs; [intros _; exact Hs|].
  destruct (run_pass_returns robot sd actions s) as [s' ->]. apply IH.
Qed.

(** While the loop is running, every turn but the last has made a
    complete pass. *)
Lemma playback_while_unbounded_running (sd : nat -> bool) (fuel : nat) :
  forall (it : Z) (s s' : session),
    playback_while robot sd fuel R actions it s = (Running, s') ->
    (length (begun s) + (fuel - 1) * length actions
     <= length (begun s'))%nat.
Proof.
  induction fuel as [|fuel IH]; intros it s s' Hrun.
  - simpl in Hrun. injection Hrun as <-. simpl. lia.
  - rewrite playback_while_unbounded_step in Hrun.
    destruct (stopped s) eqn:Hs; [discriminate|].
    destruct (run_pass robot sd actions s) as [s1|s1] eqn:Hpass;
      [|discriminate].
    destruct fuel as [|fuel].
    + simpl in Hrun. injection Hrun as <-.
      apply run_pass_grows in Hpass. simpl. lia.
    + pose proof (IH it s1 s' Hrun) as Hlen.
      rewrite playback_while_unbounded_step in Hrun.
      destruct (stopped s1) eqn:Hs1; [discriminate|].
      destruct (run_pass_complete robot sd actions s s1 Hpass Hs1)
        as [_ Hb].
      rewrite Hb, length_app in Hlen. simpl in Hlen |- *. lia.
Qed.
End Unbounded.

(** A negative repeat count and the repeat count 0 give the same run. *)
Lemma playback_while_negative (robot : injector) (sd : nat -> bool)
    (R : Z) (actions : list MacroAction.t) (fuel : nat) :
  R < 0 ->
  forall (it : Z) (s : session),
    playback_while robot sd fuel R actions it s
    = playback_while robot sd fuel 0 actions it s.
Proof.
  intros HR. induction fuel as [|fuel IH]; intros it s; [reflexivity|].
  rewrite !playback_while_unbounded_step by lia.
  destruct (stopped s); [reflexivity|].
  destruct (run_pass robot sd actions s); [apply IH | reflexivity].
Qed.

(** ** Stop requests *)

Lemma stop_respected_fresh (sd : nat -> bool) :
  stop_respected sd fresh_session.
Proof. intros i _. simpl. split; lia. Qed.

Lemma run_pass_stop_respected (robot : injector) (sd : nat -> bool)
    (actions : list MacroAction.t) :
  forall s s', stop_respected sd s ->
    run_pass robot sd actions s = Normal s' ->
    stop_respected sd s'.
Proof.
  induction actions as [|a rest IH]; intros s s' Hinv; simpl.
  - intros [= <-]. exact Hinv.
  - destruct (stopped s) eqn:Hs; [intros [= <-]; exact Hinv|].
    destruct (await_executeAction_returns robot sd a s) as [l' ->].
    apply IH. intros i Hi. simpl. rewrite length_app. simpl.
    destruct (Hinv i Hi) as [Hset Hlen].
    destruct (Nat.lt_ge_cases i (length (begun s))) as [Hlt|Hge].
    + rewrite (Hset Hlt) in Hs. discriminate.
    + split; [|lia]. intros Hlt.
      assert (i = length (begun s)) as <- by lia.
      rewrite Hi. apply orb_true_r.
Qed.

Lemma playback_while_stop_respected (robot : injector) (sd : nat -> bool)
    (fuel : nat) (R : Z) (actions : list MacroAction.t) :
  forall (it : Z) (s : session),
    stop_respected sd s ->
    stop_respected sd (snd (playback_while robot sd fuel R actions it s)).
Proof.
  induction fuel as [|fuel IH]; intros it s Hinv; simpl; [exact Hinv|].
  destruct (stopped s); [exact Hinv|].
  destruct ((0 <? R) && (R <? (if 0 <? R then it + 1 else it)));
    [exact Hinv|].
  destruct (run_pass_returns robot sd actions s) as [s' Hpass].
  rewrite Hpass.
  pose proof (run_pass_stop_respected robot sd actions s s' Hinv Hpass).
  destruct (R =? 1); [assumption|]. apply IH. assumption.
Qed.

(** Without a repeat limit and with at least one action, a stop request
    ends the loop. *)
Lemma playback_while_unbounded_stops (robot : injector) (sd : nat -> bool)
    (R : Z) (actions : list MacroAction.t) (k : nat) (it : Z) (s : session) :
  R <= 0 -> actions <> [] -> stop_respected sd s -> sd k = true ->
  fst (playback_while robot sd (k + 3) R actions it s) = Returned.
Proof.
  intros HR Hne Hinv Hk.
  pose proof (playback_while_never_throws robot sd (k + 3) R actions it s)
    as Hthrow.
  pose proof (playback_while_stop_respected robot sd (k + 3) R actions it s Hinv)
    as Hinv'.
  destruct (playback_while robot sd (k + 3) R actions it s) as [o s'] eqn:Hrun.
  simpl in *. destruct o; [reflexivity| |congruence].
  exfalso.
  pose proof (playback_while_unbounded_running robot R HR actions sd (k + 3)
                it s s' Hrun) as Hlen.
  destruct (Hinv' k Hk) as [_ Hle].
  assert (1 <= length actions)%nat by (destruct actions; simpl; [congruence|lia]).
  replace (k + 3 - 1)%nat with (k + 2)%nat in Hlen by lia.
  nia.
Qed.

(** C3. A macro with repeat count 0.  Never stopped, the loop is still
    running after any number of turns, one complete pass per turn.  It
    returns only with the stop flag set.  A stop request made while an
    action is awaited is seen at the next check (before the next action, or
    before the next pass): no action is begun after that one.  And with at
    least one action in the macro, the request does end the loop. *)
Theorem playback_repeat_zero (robot : injector) (macro : Macro.t) :
  Macro.repeatCount macro = 0 ->
  (forall fuel,
     exists s',
       _playbackLoop robot (fun _ => false) fuel macro fresh_session
       = (Running, s')
       /\ begun s' = passes fuel (Macro.actions macro))
  /\ (forall sd fuel,
        fst (_playbackLoop robot sd fuel macro fresh_session) = Returned ->
        stopped (snd (_playbackLoop robot sd fuel macro fresh_session)) = true)
  /\ (forall sd fuel k,
        sd k = true ->
        (length (begun (snd (_playbackLoop robot sd fuel macro fresh_session)))
         <= S k)%nat)
  /\ (forall sd k,
        sd k = true -> Macro.actions macro <> [] ->
        fst (_playbackLoop robot sd (k + 3) macro fresh_session) = Returned).
Proof.
  intros HR. unfold _playbackLoop. rewrite HR.
  split; [|split; [|split]].
  - intros fuel.
    destruct (playback_while_unbounded_runs robot 0 (Z.le_refl 0)
                (Macro.actions macro) fuel 0 fresh_session eq_refl)
      as (s' & Hrun & _ & Hb).
    exists s'. split; [exact Hrun | exact Hb].
  - intros sd fuel.
    apply (playback_while_unbounded_returned robot 0 (Z.le_refl 0)).
  - intros sd fuel k Hk.
    apply (playback_while_stop_respected robot sd fuel 0 (Macro.actions macro)
             0 fresh_session (stop_respected_fresh sd) k Hk).
  - intros sd k Hk Hne.
    apply playback_while_unbounded_stops;
      [lia | exact Hne | apply stop_respected_fresh | exact Hk].
Qed.

Lemma playback_repeat_zero_witness :
  (exists s',
      _playbackLoop None (fun _ => false) 5 (combo 0) fresh_session
      = (Running, s')
      /\ begun s' = passes 5 (Macro.actions (combo 0)))
  /\ fst (_playbackLoop None (fun k => bool_decide (k = 4%nat)) 7 (combo 0)
                        fresh_session) = Returned.
Proof.
  destruct (playback_repeat_zero None (combo 0) eq_refl) as (H1 & _ & _ & H4).
  split; [apply (H1 5%nat)|].
  apply (H4 (fun k => bool_decide (k = 4%nat)) 4%nat);
    [reflexivity | discriminate].
Defined.

(** A stop request during the fifth action (the wait of the second pass):
    the loop returns with five actions begun. *)
Example combo_forever_stopped :
  let r := _playbackLoop None (fun k => bool_decide (k = 4%nat)) 7 (combo 0)
                         fresh_session in
  fst r = Returned /\ stopped (snd r) = true
  /\ begun (snd r) = [tapA; wait100; tapB; tapA; wait100].
Proof. repeat split; reflexivity. Qed.

(** C8. A macro with a negative repeat count is played exactly as with
    repeat count 0: the same run under every schedule of stop requests;
    never stopped, the loop is still running after any number of turns;
    and it returns only with the stop flag set. *)
Theorem playback_negative_repeat (robot : injector) (macro : Macro.t) :
  Macro.repeatCount macro < 0 ->
  (forall sd fuel s,
     _playbackLoop robot sd fuel macro s
     = _playbackLoop robot sd fuel (with_repeatCount 0 macro) s)
  /\ (forall fuel,
        exists s',
          _playbackLoop robot (fun _ => false) fuel macro fresh_session
          = (Running, s')
          /\ begun s' = passes fuel (Macro.actions macro))
  /\ (forall sd fuel,
        fst (_playbackLoop robot sd fuel macro fresh_session) = Returned ->
        stopped (snd (_playbackLoop robot sd fuel macro fresh_session)) = true).
Proof.
  intros HR. unfold _playbackLoop. split; [|split].
  - intros sd fuel s. simpl. apply playback_while_negative. exact HR.
  - intros fuel.
    destruct (playback_while_unbounded_runs robot (Macro.repeatCount macro)
                (Z.lt_le_incl _ _ HR) (Macro.actions macro) fuel 0
                fresh_session eq_refl)
      as (s' & Hrun & _ & Hb).
    exists s'. split; [exact Hrun | exact Hb].
  - intros sd fuel.
    apply (playback_while_unbounded_returned robot (Macro.repeatCount macro)
             (Z.lt_le_incl _ _ HR)).
Qed.

Lemma playback_negative_repeat_witness :
  _playbackLoop None (fun k => bool_decide (k = 4%nat)) 7 (combo (-3))
                fresh_session
  = _playbackLoop None (fun k => bool_decide (k = 4%nat)) 7 (combo 0)
                  fresh_session.
Proof.
  destruct (playback_negative_repeat None (combo (-3))) as (H1 & _).
  - simpl. lia.
  - apply (H1 (fun k => bool_decide (k = 4%nat)) 7%nat fresh_session).
Defined.

(** ** Injector failures *)

(** With no injector, an action that needs one only logs a warning; a call
    that throws leaves the failure and the logged error, and nothing
    else. *)
Lemma _executeAction_unavailable (a : MacroAction.t) (l : list effect) :
  _executeAction None a l
  = match MacroAction.actionType a with
    | TIMER_DELAY => Normal (l ++ [Slept (MacroAction.duration a)])
    | JOYSTICK_BUTTON_ACTION | JOYSTICK_AXIS_ACTION => Normal l
    | _ => Normal (l ++ [Warned])
    end.
Proof.
  unfold _executeAction, dispatch. destruct (MacroAction.actionType a);
    reflexivity.
Qed.

Lemma _executeAction_failing_tap (r : nat -> robot_call -> bool)
    (a : MacroAction.t) (l : list effect) :
  MacroAction.actionType a = KEYBOARD_KEY ->
  r (length l) (keyTap (_convertKeyName (MacroAction.inputName a))) = false ->
  _executeAction (Some r) a l
  = Normal (l ++ [Failed (keyTap (_convertKeyName (MacroAction.inputName a)));
                  Errored]).
Proof.
  intros Hty Hfail.
  unfold _executeAction, dispatch, _executeKeyboardKey, call.
  rewrite Hty, Hfail, <- app_assoc. reflexivity.
Qed.

(** C7. Whatever the injector does, be it absent or failing at any call:
    executing an action returns and never throws; with no injector an
    action that needs one does nothing but log a warning; the loop is never
    left by an exception; and the course of the session, that is how the
    loop stands, the stop flag and the actions begun in order, is the one
    it takes with any other injector, so a failure in one action changes
    nothing for the actions that follow. *)
Theorem injector_failure_contained (robot : injector) :
  (forall a l, exists l', _executeAction robot a l = Normal l')
  /\ (forall a l,
        _executeAction None a l
        = match MacroAction.actionType a with
          | TIMER_DELAY => Normal (l ++ [Slept (MacroAction.duration a)])
          | JOYSTICK_BUTTON_ACTION | JOYSTICK_AXIS_ACTION => Normal l
          | _ => Normal (l ++ [Warned])
          end)
  /\ (forall sd fuel macro,
        fst (_playbackLoop robot sd fuel macro fresh_session) <> Threw)
  /\ (forall robot' sd fuel macro,
        fst (_playbackLoop robot sd fuel macro fresh_session)
        = fst (_playbackLoop robot' sd fuel macro fresh_session)
        /\ stopped (snd (_playbackLoop robot sd fuel macro fresh_session))
           = stopped (snd (_playbackLoop robot' sd fuel macro fresh_session))
        /\ begun (snd (_playbackLoop robot sd fuel macro fresh_session))
           = begun (snd (_playbackLoop robot' sd fuel macro fresh_session))).
Proof.
  split; [|split; [|split]].
  - apply _executeAction_returns.
  - apply _executeAction_unavailable.
  - intros sd fuel macro. apply playback_while_never_throws.
  - intros robot' sd fuel macro. unfold _playbackLoop.
    destruct (playback_while_same_course robot robot' sd fuel
                (Macro.repeatCount macro) (Macro.actions macro) 0
                fresh_session fresh_session) as (Ho & Hst & Hb).
    { split; reflexivity. }
    auto.
Qed.

(** An injector whose every call throws, and none at all: the two passes of
    the scenario are made all the same. *)
Example combo_twice_failing :
  _playbackLoop (Some (fun _ _ => false)) (fun _ => false) 3 (combo 2)
                fresh_session
  = (Returned,
     {| stopped := false;
        begun := [tapA; wait100; tapB; tapA; wait100; tapB];
        log := [Failed (keyTap "a"); Errored; Slept 100;
                Failed (keyTap "b"); Errored;
                Failed (keyTap "a"); Errored; Slept 100;
                Failed (keyTap "b"); Errored] |}).
Proof. reflexivity. Qed.

Example combo_twice_unavailable :
  _playbackLoop None (fun _ => false) 3 (combo 2) fresh_session
  = (Returned,
     {| stopped := false;
        begun := [tapA; wait100; tapB; tapA; wait100; tapB];
        log := [Warned; Slept 100; Warned; Warned; Slept 100; Warned] |}).
Proof. reflexivity. Qed.

(** ** Key-down events *)

Section KeyDownFacts.
Import TriggerEngine KeyDown.
Variable shouldProcess : string -> bool.

Lemma fires_same_inputs (key : string) (e e' : t) (trigger : Trigger.t) :
  same_inputs e e' -> fires shouldProcess key e' trigger = fires shouldProcess key e trigger.
Proof.
  intros [Hp Ht]. unfold fires, _checkModifiers, _checkDoubleTap.
  rewrite Hp, Ht. reflexivity.
Qed.

Lemma check_trigger_spec (key : string) (now : Z) (e : t)
    (trigger : Trigger.t) :
  same_inputs e (check_trigger shouldProcess key now e trigger)
  /\ activated (check_trigger shouldProcess key now e trigger)
     = activated e ++ (if fires shouldProcess key e trigger then [trigger] else []).
Proof.
  unfold check_trigger, fires, same_inputs.
  destruct (Trigger.enabled trigger); simpl;
    [|rewrite app_nil_r; auto].
  destruct (gated_out shouldProcess trigger); simpl;
    [rewrite app_nil_r; auto|].
  destruct (String.eqb (Trigger.inputName trigger) key); simpl;
    [|rewrite app_nil_r; auto].
  destruct (Trigger.triggerType trigger); simpl;
    try (rewrite app_nil_r; auto); auto.
  - destruct (_checkDoubleTap _ _ _); simpl;
      [|rewrite app_nil_r]; auto.
  - destruct (_checkModifiers _ _); simpl;
      [|rewrite app_nil_r]; auto.
Qed.

Lemma fold_check_trigger_spec (key : string) (now : Z)
    (l : list Trigger.t) :
  forall e,
    same_inputs e (fold_left (check_trigger shouldProcess key now) l e)
    /\ activated (fold_left (check_trigger shouldProcess key now) l e)
       = activated e ++ List.filter (fires shouldProcess key e) l.
Proof.
  induction l as [|trigger l IH]; intros e; simpl.
  - rewrite app_nil_r. split; [split|]; reflexivity.
  - destruct (check_trigger_spec key now e trigger) as [Hsame Hact].
    destruct (IH (check_trigger shouldProcess key now e trigger))
      as [[Hp Ht] Hact'].
    destruct Hsame as [Hp0 Ht0].
    split; [split; congruence|].
    rewrite Hact', Hact, <- app_assoc. f_equal.
    rewrite (List.filter_ext _ (fires shouldProcess key e)).
    + destruct (fires shouldProcess key e trigger); reflexivity.
    + intros tr. apply fires_same_inputs. split; assumption.
Qed.

Lemma _handleKeyDown_monitoring (key : string) (now : Z) (e : t) :
  monitoring e = true ->
  _handleKeyDown shouldProcess key now e
  = fold_left (check_trigger shouldProcess key now)
              (JsMap.values (triggers e)) (pressed key now e).
Proof.
  intros Hmon. unfold _handleKeyDown, _checkKeyTriggers, pressed, recorded.
  rewrite Hmon. simpl. unfold _cleanupPressTimes. simpl.
  rewrite lookup_insert_eq. reflexivity.
Qed.

Lemma _handleKeyDown_recorded (key : string) (now : Z) (e : t) :
  monitoring e = true ->
  keyPressTimes (_handleKeyDown shouldProcess key now e) !! key
  = Some (recorded key now e).
Proof.
  intros Hmon. rewrite _handleKeyDown_monitoring by exact Hmon.
  destruct (fold_check_trigger_spec key now (JsMap.values (triggers e))
              (pressed key now e)) as [[_ ->] _].
  simpl. apply lookup_insert_eq.
Qed.

Lemma fired_spec (key : string) (now : Z) (e : t) :
  monitoring e = true ->
  fired shouldProcess key now e
  = List.filter (fires shouldProcess key (pressed key now e)) (JsMap.values (triggers e)).
Proof.
  intros Hmon. unfold fired.
  rewrite _handleKeyDown_monitoring by exact Hmon.
  destruct (fold_check_trigger_spec key now (JsMap.values (triggers e))
              (pressed key now e)) as [_ ->].
  simpl. apply drop_app_length.
Qed.

Lemma pressed_recorded (key : string) (now : Z) (e : t) :
  keyPressTimes (pressed key now e) !! key = Some (recorded key now e).
Proof. simpl. apply lookup_insert_eq. Qed.
End KeyDownFacts.

(** ** Double taps *)

Lemma _checkDoubleTap_last_two (key : string) (window : Z)
    (e : TriggerEngine.t) (older : list Z) (t0 t1 : Z) :
  TriggerEngine.keyPressTimes e !! key = Some (older ++ [t0; t1]) ->
  TriggerEngine._checkDoubleTap key window e = (t1 - t0 <=? window).
Proof.
  intros Htimes. unfold TriggerEngine._checkDoubleTap. rewrite Htimes.
  rewrite length_app. simpl.
  replace (length older + 2 - 2)%nat with (length older) by lia.
  rewrite drop_app_length.
  destruct (Nat.ltb_spec (length older + 2) 2); [lia | reflexivity].
Qed.

Lemma _checkDoubleTap_short (key : string) (window : Z) (e : TriggerEngine.t) :
  (length (default [] (TriggerEngine.keyPressTimes e !! key)) < 2)%nat ->
  TriggerEngine._checkDoubleTap key window e = false.
Proof.
  intros Hlen. unfold TriggerEngine._checkDoubleTap.
  destruct (TriggerEngine.keyPressTimes e !! key) as [times|];
    [|reflexivity].
  simpl in Hlen. apply Nat.ltb_lt in Hlen. rewrite Hlen. reflexivity.
Qed.

(** A history of two or more ends in its two most recent entries. *)
Lemma last_two (times : list Z) :
  (2 <= length times)%nat ->
  exists older t0 t1, times = older ++ [t0; t1].
Proof.
  intros Hlen.
  destruct (drop (length times - 2) times) as [|t0 [|t1 [|t2 rest]]] eqn:Hdrop;
    pose proof (f_equal length Hdrop) as Hl;
    rewrite length_drop in Hl; simpl in Hl; try lia.
  exists (take (length times - 2) times), t0, t1.
  rewrite <- Hdrop. symmetry. apply take_drop.
Qed.

Lemma _checkDoubleTap_iff (key : string) (window : Z) (e : TriggerEngine.t)
    (times : list Z) :
  TriggerEngine.keyPressTimes e !! key = Some times ->
  TriggerEngine._checkDoubleTap key window e = true
  <-> exists older t0 t1, times = older ++ [t0; t1] /\ t1 - t0 <= window.
Proof.
  intros Htimes. split.
  - intros Hcheck.
    destruct (Nat.lt_ge_cases (length times) 2) as [Hshort|Hlong].
    + rewrite _checkDoubleTap_short in Hcheck; [discriminate|].
      rewrite Htimes. exact Hshort.
    + destruct (last_two times Hlong) as (older & t0 & t1 & ->).
      rewrite (_checkDoubleTap_last_two key window e older t0 t1 Htimes)
        in Hcheck.
      exists older, t0, t1. split; [reflexivity | lia].
  - intros (older & t0 & t1 & -> & Hgap).
    rewrite (_checkDoubleTap_last_two key window e older t0 t1 Htimes).
    apply Z.leb_le. exact Hgap.
Qed.

(** C6. A key-down event on the input of a double-tap trigger (the engine
    monitoring, the trigger registered, enabled and not gated out by its
    device): the trigger fires if and only if the press times on record for
    the input end in two timestamps whose gap is at most the trigger's
    [doubleTapWindow].  So with two timestamps on record, a gap equal to
    the window fires and a greater gap does not. *)
Theorem double_tap_fires_iff (shouldProcess : string -> bool)
    (e : TriggerEngine.t) (key : string) (now : Z) (tr : Trigger.t) :
  TriggerEngine.monitoring e = true ->
  In tr (JsMap.values (TriggerEngine.triggers e)) ->
  Trigger.triggerType tr = KEY_DOUBLE_TAP ->
  Trigger.inputName tr = key ->
  Trigger.enabled tr = true ->
  TriggerEngine.gated_out shouldProcess tr = false ->
  let e' := TriggerEngine._handleKeyDown shouldProcess key now e in
  let window := Trigger.doubleTapWindow tr in
  (In tr (KeyDown.fired shouldProcess key now e)
   <-> exists older t0 t1,
         TriggerEngine.keyPressTimes e' !! key = Some (older ++ [t0; t1])
         /\ t1 - t0 <= window)
  /\ (forall older t0 t1,
        TriggerEngine.keyPressTimes e' !! key = Some (older ++ [t0; t1]) ->
        (t1 - t0 = window -> In tr (KeyDown.fired shouldProcess key now e))
        /\ (window < t1 - t0 ->
            ~ In tr (KeyDown.fired shouldProcess key now e))).
Proof.
  intros Hmon Hin Hty Hname Hen Hgate e' window.
  assert (In tr (KeyDown.fired shouldProcess key now e)
          <-> TriggerEngine._checkDoubleTap key window
                (KeyDown.pressed key now e) = true) as Hfired.
  { rewrite fired_spec by exact Hmon.
    rewrite List.filter_In. unfold KeyDown.fires.
    rewrite Hen, Hgate, Hty, Hname, String.eqb_refl. simpl. tauto. }
  assert (TriggerEngine.keyPressTimes e' !! key
          = Some (KeyDown.recorded key now e)) as Hrec
    by (apply _handleKeyDown_recorded; exact Hmon).
  rewrite (_checkDoubleTap_iff key window _ _
             (pressed_recorded key now e)) in Hfired.
  rewrite Hrec. split.
  - rewrite Hfired.
    split; intros (older & t0 & t1 & Heq & Hgap); exists older, t0, t1;
      (split; [congruence | exact Hgap]).
  - intros older t0 t1 [= Heq]. split.
    + intros Hgap. apply Hfired. exists older, t0, t1.
      split; [exact Heq | lia].
    + intros Hgap Hin'. apply Hfired in Hin'.
      destruct Hin' as (older' & t0' & t1' & Heq' & Hgap').
      rewrite Heq in Heq'.
      apply app_inj_2 in Heq' as [_ [= <- <-]]; [lia | reflexivity].
Qed.

Lemma double_tap_fires_iff_witness :
  let e := TriggerEngine._handleKeyDown every_device "f" 1000
             (listening [double_f]) in
  In double_f (KeyDown.fired every_device "f" 1300 e).
Proof.
  intros e.
  destruct (double_tap_fires_iff every_device e "f" 1300 double_f)
    as [Hiff _]; try reflexivity.
  - left. reflexivity.
  - apply Hiff. exists [], 1000, 1300. split; [reflexivity | simpl; lia].
Defined.

Example double_tap_at_the_window :
  let e := TriggerEngine._handleKeyDown every_device "f" 1000
             (listening [double_f]) in
  KeyDown.fired every_device "f" 1300 e = [double_f]
  /\ KeyDown.fired every_device "f" 1301 e = [].
Proof. split; reflexivity. Qed.

(** A press a second old or older is no longer on record: with a window
    of 1500 ms, two presses 1200 ms apart leave one timestamp, and the
    trigger does not fire. *)
Example double_tap_pruned :
  let wide := sample_trigger_window "t3" "g" 1500 in
  let e := TriggerEngine._handleKeyDown every_device "g" 0 (listening [wide]) in
  TriggerEngine.keyPressTimes
    (TriggerEngine._handleKeyDown every_device "g" 1200 e) !! "g"
  = Some [1200]
  /\ KeyDown.fired every_device "g" 1200 e = []
  /\ KeyDown.fired every_device "g" 900 e = [wide].
Proof. repeat split; reflexivity. Qed.

Lemma recorded_first_press (key : string) (now : Z) (e : TriggerEngine.t) :
  default [] (TriggerEngine.keyPressTimes e !! key) = [] ->
  (length (KeyDown.recorded key now e) < 2)%nat.
Proof.
  intros Hempty. unfold KeyDown.recorded. rewrite Hempty. simpl.
  pose proof (length_filter (fun t => now - t < 1000) [now]) as Hlen.
  simpl in Hlen. lia.
Qed.

Lemma stopMonitoring_fields (e : TriggerEngine.t) :
  TriggerEngine.monitoring e = true ->
  TriggerEngine.stopMonitoring e
  = {| TriggerEngine.triggers := TriggerEngine.triggers e;
       TriggerEngine.monitoring := false;
       TriggerEngine.keydownListeners := TriggerEngine.keydownListeners e;
       TriggerEngine.keyupListeners := TriggerEngine.keyupListeners e;
       TriggerEngine.gamepadInterval := false;
       TriggerEngine.pressedKeys := ∅;
       TriggerEngine.keyPressTimes := ∅;
       TriggerEngine.keyHoldTimers := ∅;
       TriggerEngine.timeouts :=
         map_fold (fun _ handle pending =>
                     TriggerEngine.clearTimeout handle pending)
                  (TriggerEngine.timeouts e) (TriggerEngine.keyHoldTimers e);
       TriggerEngine.next_handle := TriggerEngine.next_handle e;
       TriggerEngine.activated := TriggerEngine.activated e |}.
Proof.
  intros Hmon. unfold TriggerEngine.stopMonitoring. rewrite Hmon.
  unfold TriggerEngine._stopGamepadMonitoring,
    TriggerEngine._stopKeyboardMonitoring.
  destruct e as [trs mon kd ku gi pk kpt kht tmo nh act]; simpl.
  destruct gi; reflexivity.
Qed.

Lemma startMonitoring_fields (e : TriggerEngine.t) :
  TriggerEngine.monitoring e = false ->
  TriggerEngine.startMonitoring e
  = {| TriggerEngine.triggers := TriggerEngine.triggers e;
       TriggerEngine.monitoring := true;
       TriggerEngine.keydownListeners :=
         S (TriggerEngine.keydownListeners e);
       TriggerEngine.keyupListeners := S (TriggerEngine.keyupListeners e);
       TriggerEngine.gamepadInterval := true;
       TriggerEngine.pressedKeys := TriggerEngine.pressedKeys e;
       TriggerEngine.keyPressTimes := TriggerEngine.keyPressTimes e;
       TriggerEngine.keyHoldTimers := TriggerEngine.keyHoldTimers e;
       TriggerEngine.timeouts := TriggerEngine.timeouts e;
       TriggerEngine.next_handle := TriggerEngine.next_handle e;
       TriggerEngine.activated := TriggerEngine.activated e |}.
Proof.
  intros Hmon. unfold TriggerEngine.startMonitoring. rewrite Hmon.
  unfold TriggerEngine._startGamepadMonitoring,
    TriggerEngine._startKeyboardMonitoring.
  destruct e as [trs mon kd ku gi pk kpt kht tmo nh act]; simpl.
  destruct gi; reflexivity.
Qed.

(** One run of the handler changes neither the catalogue nor the
    monitoring nor the listeners, and only adds activations. *)
Lemma check_trigger_static (shouldProcess : string -> bool) (key : string)
    (now : Z) (e : TriggerEngine.t) (trigger : Trigger.t) :
  let e' := TriggerEngine.check_trigger shouldProcess key now e trigger in
  TriggerEngine.triggers e' = TriggerEngine.triggers e
  /\ TriggerEngine.monitoring e' = TriggerEngine.monitoring e
  /\ TriggerEngine.keydownListeners e' = TriggerEngine.keydownListeners e.
Proof.
  unfold TriggerEngine.check_trigger.
  destruct (Trigger.enabled trigger); simpl; [|auto].
  destruct (TriggerEngine.gated_out shouldProcess trigger); simpl; [auto|].
  destruct (String.eqb (Trigger.inputName trigger) key); simpl; [|auto].
  destruct (Trigger.triggerType trigger); simpl; auto.
  - destruct (TriggerEngine._checkDoubleTap _ _ _); simpl; auto.
  - destruct (TriggerEngine._checkModifiers _ _); simpl; auto.
Qed.

Lemma fold_check_trigger_static (shouldProcess : string -> bool)
    (key : string) (now : Z) (l : list Trigger.t) :
  forall e,
    let e' := fold_left (TriggerEngine.check_trigger shouldProcess key now)
                        l e in
    TriggerEngine.triggers e' = TriggerEngine.triggers e
    /\ TriggerEngine.monitoring e' = TriggerEngine.monitoring e
    /\ TriggerEngine.keydownListeners e' = TriggerEngine.keydownListeners e.
Proof.
  induction l as [|trigger l IH]; intros e; simpl; [auto|].
  destruct (check_trigger_static shouldProcess key now e trigger)
    as (H1 & H2 & H3).
  destruct (IH (TriggerEngine.check_trigger shouldProcess key now e trigger))
    as (H1' & H2' & H3').
  repeat split; congruence.
Qed.

Lemma _handleKeyDown_static (shouldProcess : string -> bool) (key : string)
    (now : Z) (e : TriggerEngine.t) :
  TriggerEngine.monitoring e = true ->
  let e' := TriggerEngine._handleKeyDown shouldProcess key now e in
  TriggerEngine.triggers e' = TriggerEngine.triggers e
  /\ TriggerEngine.monitoring e' = true
  /\ TriggerEngine.keydownListeners e' = TriggerEngine.keydownListeners e
  /\ TriggerEngine.activated e'
     = TriggerEngine.activated e ++ KeyDown.fired shouldProcess key now e.
Proof.
  intros Hmon e'. subst e'.
  assert (TriggerEngine.activated
            (TriggerEngine._handleKeyDown shouldProcess key now e)
          = TriggerEngine.activated e
            ++ KeyDown.fired shouldProcess key now e) as Hact.
  { rewrite fired_spec by exact Hmon.
    rewrite _handleKeyDown_monitoring by exact Hmon.
    destruct (fold_check_trigger_spec shouldProcess key now
                (JsMap.values (TriggerEngine.triggers e))
                (KeyDown.pressed key now e)) as [_ ->].
    reflexivity. }
  rewrite _handleKeyDown_monitoring in * by exact Hmon.
  destruct (fold_check_trigger_static shouldProcess key now
              (JsMap.values (TriggerEngine.triggers e))
              (KeyDown.pressed key now e)) as (H1 & H2 & H3).
  simpl in H1, H2, H3. rewrite Hmon in H2. auto.
Qed.

(** The runs of the handler for one event only add activations. *)
Lemma keydown_runs_grow (shouldProcess : string -> bool) (key : string)
    (clock : nat -> Z) (l : list nat) :
  forall e,
    TriggerEngine.monitoring e = true ->
    exists more,
      TriggerEngine.activated
        (fold_left (fun e' k =>
                      TriggerEngine._handleKeyDown shouldProcess key
                        (clock k) e') l e)
      = TriggerEngine.activated e ++ more.
Proof.
  induction l as [|k l IH]; intros e Hmon; simpl.
  - exists []. rewrite app_nil_r. reflexivity.
  - destruct (_handleKeyDown_static shouldProcess key (clock k) e Hmon)
      as (_ & Hmon' & _ & Hact).
    destruct (IH _ Hmon') as [more Hmore].
    exists (KeyDown.fired shouldProcess key (clock k) e ++ more).
    rewrite Hmore, Hact, <- app_assoc. reflexivity.
Qed.

(** One run of the handler on an input with no press time on record
    fires no double-tap trigger. *)
Lemma fired_empty_history (shouldProcess : string -> bool)
    (e : TriggerEngine.t) (key : string) (now : Z) (tr : Trigger.t) :
  default [] (TriggerEngine.keyPressTimes e !! key) = [] ->
  Trigger.triggerType tr = KEY_DOUBLE_TAP ->
  ~ In tr (KeyDown.fired shouldProcess key now e).
Proof.
  intros Hempty Hty Hin.
  destruct (TriggerEngine.monitoring e) eqn:Hmon.
  - rewrite fired_spec in Hin by exact Hmon.
    apply List.filter_In in Hin as [_ Hfires].
    unfold KeyDown.fires in Hfires. rewrite Hty in Hfires.
    apply andb_true_iff in Hfires as [_ Hcheck].
    rewrite _checkDoubleTap_short in Hcheck; [discriminate|].
    rewrite pressed_recorded. simpl.
    apply recorded_first_press. exact Hempty.
  - unfold KeyDown.fired, TriggerEngine._handleKeyDown in Hin.
    rewrite Hmon in Hin. simpl in Hin. rewrite drop_all in Hin.
    destruct Hin.
Qed.

(** C10. With fewer than two press times on record for an input, the
    double-tap check is false, and one run of the key-down handler on an
    input with no press time on record fires no double-tap trigger; so
    none fires on the first press after the engine is started for the
    first time, when [document] holds one listener.  But
    [_stopKeyboardMonitoring] removes no listener and every
    [startMonitoring] adds one: once the monitoring was stopped, which
    clears the history, and started again, a single press of the key runs
    the handler twice or more, the second run finds two press times on
    record, and a double-tap trigger on the key, enabled and not gated
    out, with a window that holds the time between the two runs, fires on
    that first press. *)
Theorem double_tap_fires_on_first_press_after_restart :
  (forall e key window,
     (length (default [] (TriggerEngine.keyPressTimes e !! key)) < 2)%nat ->
     TriggerEngine._checkDoubleTap key window e = false)
  /\ (forall shouldProcess e key now tr,
        default [] (TriggerEngine.keyPressTimes e !! key) = [] ->
        Trigger.triggerType tr = KEY_DOUBLE_TAP ->
        ~ In tr (KeyDown.fired shouldProcess key now e))
  /\ (forall shouldProcess e key clock tr,
        TriggerEngine.monitoring e = false ->
        TriggerEngine.keydownListeners e = O ->
        TriggerEngine.keyPressTimes e !! key = None ->
        Trigger.triggerType tr = KEY_DOUBLE_TAP ->
        ~ In tr (KeyDown.fired_by_event shouldProcess key clock
                   (TriggerEngine.startMonitoring e)))
  /\ (forall shouldProcess e key clock tr,
        TriggerEngine.monitoring e = true ->
        (1 <= TriggerEngine.keydownListeners e)%nat ->
        In tr (JsMap.values (TriggerEngine.triggers e)) ->
        Trigger.enabled tr = true ->
        TriggerEngine.gated_out shouldProcess tr = false ->
        Trigger.triggerType tr = KEY_DOUBLE_TAP ->
        Trigger.inputName tr = key ->
        clock 1%nat - clock 0%nat < 1000 ->
        clock 1%nat - clock 0%nat <= Trigger.doubleTapWindow tr ->
        let e' := TriggerEngine.startMonitoring
                    (TriggerEngine.stopMonitoring e) in
        TriggerEngine.keyPressTimes e' = ∅
        /\ TriggerEngine.keydownListeners e'
           = S (TriggerEngine.keydownListeners e)
        /\ In tr (KeyDown.fired_by_event shouldProcess key clock e')).
Proof.
  split; [|split; [|split]].
  - intros e key window. apply _checkDoubleTap_short.
  - intros shouldProcess e key now tr. apply fired_empty_history.
  - intros shouldProcess e key clock tr Hmon Hlis Hkey Hty.
    unfold KeyDown.fired_by_event, TriggerEngine.keydown_event.
    rewrite (startMonitoring_fields e Hmon). simpl. rewrite Hlis. simpl.
    apply (fired_empty_history shouldProcess
             {| TriggerEngine.triggers := TriggerEngine.triggers e;
                TriggerEngine.monitoring := true;
                TriggerEngine.keydownListeners := 1;
                TriggerEngine.keyupListeners :=
                  S (TriggerEngine.keyupListeners e);
                TriggerEngine.gamepadInterval := true;
                TriggerEngine.pressedKeys := TriggerEngine.pressedKeys e;
                TriggerEngine.keyPressTimes := TriggerEngine.keyPressTimes e;
                TriggerEngine.keyHoldTimers := TriggerEngine.keyHoldTimers e;
                TriggerEngine.timeouts := TriggerEngine.timeouts e;
                TriggerEngine.next_handle := TriggerEngine.next_handle e;
                TriggerEngine.activated := TriggerEngine.activated e |}
             key (clock 0%nat) tr); [|exact Hty].
    simpl. rewrite Hkey. reflexivity.
  - intros shouldProcess e key clock tr Hmon Hlis Hin Hen Hgate Hty Hname
           Hnear Hwin e'.
    subst e'. rewrite (stopMonitoring_fields e Hmon).
    rewrite startMonitoring_fields by reflexivity. simpl.
    split; [reflexivity|]. split; [reflexivity|].
    unfold KeyDown.fired_by_event, TriggerEngine.keydown_event. simpl.
    destruct (TriggerEngine.keydownListeners e) as [|n]; [lia|]. simpl.
    set (e0 := {| TriggerEngine.triggers := TriggerEngine.triggers e;
                  TriggerEngine.monitoring := true;
                  TriggerEngine.keydownListeners := S (S n);
                  TriggerEngine.keyupListeners :=
                    S (TriggerEngine.keyupListeners e);
                  TriggerEngine.gamepadInterval := true;
                  TriggerEngine.pressedKeys := ∅;
                  TriggerEngine.keyPressTimes := ∅;
                  TriggerEngine.keyHoldTimers := ∅;
                  TriggerEngine.timeouts :=
                    map_fold (fun _ handle pending =>
                                TriggerEngine.clearTimeout handle pending)
                             (TriggerEngine.timeouts e)
                             (TriggerEngine.keyHoldTimers e);
                  TriggerEngine.next_handle := TriggerEngine.next_handle e;
                  TriggerEngine.activated := TriggerEngine.activated e |}).
    set (e1 := TriggerEngine._handleKeyDown shouldProcess key
                 (clock 0%nat) e0).
    set (e2 := TriggerEngine._handleKeyDown shouldProcess key
                 (clock 1%nat) e1).
    destruct (_handleKeyDown_static shouldProcess key (clock 0%nat) e0
                eq_refl) as (Htr1 & Hmon1 & _ & Hact1).
    fold e1 in Htr1, Hmon1, Hact1.
    destruct (_handleKeyDown_static shouldProcess key (clock 1%nat) e1
                Hmon1) as (_ & Hmon2 & _ & Hact2).
    fold e2 in Hmon2, Hact2.
    destruct (keydown_runs_grow shouldProcess key clock (seq 2 n) e2 Hmon2)
      as [more Hmore].
    rewrite Hmore, Hact2, Hact1. simpl.
    rewrite <- !app_assoc, drop_app_length.
    apply in_or_app. right. apply in_or_app. left.
    rewrite fired_spec by exact Hmon1. apply List.filter_In.
    split; [rewrite Htr1; exact Hin|].
    unfold KeyDown.fires. rewrite Hen, Hgate, Hty, Hname, String.eqb_refl.
    simpl.
    assert (TriggerEngine.keyPressTimes e1 !! key = Some [clock 0%nat])
      as Hrec1.
    { subst e1. rewrite _handleKeyDown_recorded by reflexivity.
      unfold KeyDown.recorded. simpl. rewrite lookup_empty. simpl.
      rewrite filter_cons_True by lia. reflexivity. }
    rewrite (_checkDoubleTap_last_two key _ _ [] (clock 0%nat)
               (clock 1%nat)).
    + apply Z.leb_le. exact Hwin.
    + rewrite pressed_recorded. unfold KeyDown.recorded. rewrite Hrec1.
      simpl. rewrite filter_cons_True by lia.
      rewrite filter_cons_True by lia. reflexivity.
Qed.

Lemma double_tap_fires_on_first_press_after_restart_witness :
  In double_f
     (KeyDown.fired_by_event every_device "f" (fun _ => 1000)
        (TriggerEngine.startMonitoring
           (TriggerEngine.stopMonitoring (listening [double_f])))).
Proof.
  destruct double_tap_fires_on_first_press_after_restart as (_ & _ & _ & H).
  apply (H every_device (listening [double_f]) "f" (fun _ => 1000) double_f);
    first [ reflexivity | left; reflexivity | vm_compute; lia
          | vm_compute; discriminate ].
Defined.

(** The first press after the first start fires nothing; the first press
    after a stop and a start fires the double-tap trigger. *)
Example first_press_after_restart :
  KeyDown.fired_by_event every_device "f" (fun _ => 1000)
    (listening [double_f]) = []
  /\ KeyDown.fired_by_event every_device "f" (fun _ => 1000)
       (TriggerEngine.startMonitoring
          (TriggerEngine.stopMonitoring (listening [double_f])))
     = [double_f].
Proof. split; reflexivity. Qed.

(** ** Deleting a trigger whose hold timer is armed *)

(** [deleteTrigger] changes the catalogue and nothing else: the table of
    hold timers and the pending timeouts stay as they are. *)
Lemma deleteTrigger_keeps_timers (id : string) (e : TriggerEngine.t) :
  TriggerEngine.keyHoldTimers (TriggerEngine.deleteTrigger id e)
  = TriggerEngine.keyHoldTimers e
  /\ TriggerEngine.timeouts (TriggerEngine.deleteTrigger id e)
     = TriggerEngine.timeouts e
  /\ TriggerEngine.pressedKeys (TriggerEngine.deleteTrigger id e)
     = TriggerEngine.pressedKeys e
  /\ TriggerEngine.activated (TriggerEngine.deleteTrigger id e)
     = TriggerEngine.activated e.
Proof.
  unfold TriggerEngine.deleteTrigger.
  destruct (JsMap.has id (TriggerEngine.triggers e)); simpl; auto.
Qed.

Lemma getTrigger_deleteTrigger (id : string) (e : TriggerEngine.t) :
  TriggerEngine.getTrigger id (TriggerEngine.deleteTrigger id e) = None.
Proof.
  unfold TriggerEngine.getTrigger, TriggerEngine.deleteTrigger, JsMap.has.
  destruct (JsMap.get id (TriggerEngine.triggers e)) eqn:Hget; simpl.
  - apply JsMap_get_delete.
  - exact Hget.
Qed.

(** C5, as the code has it.  A hold timer armed for a trigger stays
    pending when the trigger is deleted: the trigger is gone from the
    catalogue, and when the timeout comes due with the key still held, its
    callback activates the deleted trigger. *)
Theorem deleted_hold_trigger_still_fires (e : TriggerEngine.t)
    (handle : nat) (tm : hold_timer) (now : Z) :
  TriggerEngine.timeouts e !! handle = Some tm ->
  due tm <= now ->
  timer_key tm ∈ TriggerEngine.pressedKeys e ->
  let id := Trigger.triggerId (timer_trigger tm) in
  let e' := TriggerEngine.deleteTrigger id e in
  TriggerEngine.getTrigger id e' = None
  /\ TriggerEngine.timeouts e' !! handle = Some tm
  /\ TriggerEngine.activated (TriggerEngine.timeout_fires handle now e')
     = TriggerEngine.activated e ++ [timer_trigger tm].
Proof.
  intros Hpending Hdue Hheld id e'.
  destruct (deleteTrigger_keeps_timers id e) as (_ & Htm & Hkeys & Hact).
  fold e' in Htm, Hkeys, Hact.
  split; [apply getTrigger_deleteTrigger|].
  split; [rewrite Htm; exact Hpending|].
  unfold TriggerEngine.timeout_fires. rewrite Htm, Hpending.
  assert ((due tm <=? now) = true) as -> by (apply Z.leb_le; exact Hdue).
  simpl. rewrite Hkeys, bool_decide_eq_true_2 by exact Hheld.
  simpl. rewrite Hact. reflexivity.
Qed.

Lemma deleted_hold_trigger_still_fires_witness :
  TriggerEngine.getTrigger "t2" f_held_then_deleted = None
  /\ TriggerEngine.activated
       (TriggerEngine.timeout_fires 0 500 f_held_then_deleted)
     = [hold_f].
Proof.
  destruct (deleted_hold_trigger_still_fires
              (TriggerEngine._handleKeyDown every_device "f" 0
                 (listening [hold_f]))
              0%nat
              {| timer_trigger := hold_f; timer_key := "f"; due := 500 |}
              500)
    as (Hgone & _ & Hfires).
  - reflexivity.
  - simpl. lia.
  - vm_compute. set_solver.
  - split; [exact Hgone | exact Hfires].
Defined.

(** Released before the timeout, the key cancels the timer: nothing fires,
    deleted or not. *)
Example hold_released_early :
  let e := TriggerEngine._handleKeyUp "f"
             (TriggerEngine._handleKeyDown every_device "f" 0
                (listening [hold_f])) in
  TriggerEngine.timeouts e = ∅
  /\ TriggerEngine.activated (TriggerEngine.timeout_fires 0 500 e) = [].
Proof. split; reflexivity. Qed.

(** Held for 600 ms, the trigger fires once. *)
Example hold_long_enough :
  let e := TriggerEngine._handleKeyDown every_device "f" 0
             (listening [hold_f]) in
  TriggerEngine.activated (TriggerEngine.timeout_fires 0 400 e) = []
  /\ TriggerEngine.activated (TriggerEngine.timeout_fires 0 500 e) = [hold_f]
  /\ TriggerEngine.timeouts (TriggerEngine.timeout_fires 0 500 e) = ∅.
Proof. repeat split; reflexivity. Qed.

(** ** Saving and loading *)

(** Name the results of the steps of a [Host] computation. *)
Ltac host_steps :=
  unfold bind, ret;
  repeat match goal with
         | |- context [let '(_, _) := ?m in _] => destruct m
         end;
  simpl.





(** C1, as the code has it.  Saved and loaded again, a macro whose repeat
    count is 0 (the unbounded loop) has repeat count 1, and a trigger whose
    hold duration, double-tap window or axis threshold is 0 has the
    default 500, 300 or 0.5 instead: [fromJSON] takes the default for a
    field that is present with value 0, not for an absent field alone. *)
Theorem roundtrip_loses_zero (now : Z) (h : host) :
  (forall m, Macro.repeatCount m = 0 ->
     Macro.repeatCount (fst (Macro.fromJSON now (Macro.toJSON m) h)) = 1)
  /\ (forall tr, Trigger.holdDuration tr = 0 ->
        Trigger.holdDuration (fst (Trigger.fromJSON (Trigger.toJSON tr) h))
        = 500)
  /\ (forall tr, Trigger.doubleTapWindow tr = 0 ->
        Trigger.doubleTapWindow (fst (Trigger.fromJSON (Trigger.toJSON tr) h))
        = 300)
  /\ (forall tr, Trigger.axisThreshold tr = 0%Q ->
        Trigger.axisThreshold (fst (Trigger.fromJSON (Trigger.toJSON tr) h))
        = 0.5%Q).
Proof.
  split; [|split; [|split]].
  - intros m Hzero. unfold Macro.fromJSON, Macro.toJSON. host_steps.
    rewrite Hzero. reflexivity.
  - intros tr Hzero. unfold Trigger.fromJSON, Trigger.toJSON. host_steps.
    rewrite Hzero. reflexivity.
  - intros tr Hzero. unfold Trigger.fromJSON, Trigger.toJSON. host_steps.
    rewrite Hzero. reflexivity.
  - intros tr Hzero. unfold Trigger.fromJSON, Trigger.toJSON. host_steps.
    rewrite Hzero. reflexivity.
Qed.

Lemma roundtrip_loses_zero_witness :
  Macro.repeatCount
    (fst (Macro.fromJSON 2000 (Macro.toJSON (combo 0)) some_host)) = 1.
Proof.
  destruct (roundtrip_loses_zero 2000 some_host) as (H & _).
  apply (H (combo 0)). reflexivity.
Defined.

Example roundtrip_combo_twice :
  fst (Macro.fromJSON 2000 (Macro.toJSON (combo 2)) some_host) = combo 2.
Proof. reflexivity. Qed.

Example roundtrip_combo_forever :
  fst (Macro.fromJSON 2000 (Macro.toJSON (combo 0)) some_host) = combo 1.
Proof. reflexivity. Qed.

(** The same through the catalogue: the entry keeps its id and its actions
    in order, and loses its repeat count. *)
Example catalogue_roundtrip_forever :
  MacroEngine.macros
    (fst (MacroEngine.fromJSON 2000
            (MacroEngine.toJSON (engine_with (combo 0)))
            MacroEngine.new some_host))
  = [("m1", combo 1)].
Proof. reflexivity. Qed.

Example trigger_roundtrip_default :
  fst (Trigger.fromJSON (Trigger.toJSON double_f) some_host) = double_f.
Proof. reflexivity. Qed.

(** ** Playing a macro that is already playing *)

(** A call of [playMacro] on an enabled macro with at least one action
    begins the first action before it returns, and leaves the calls that are
    suspended where they are: a session that is asked to stop has not yet
    seen its flag when the new session begins. *)
Lemma playMacro_begins_at_once (fuel : nat) (id : string) (e : MacroEngine.t)
    (macro : Macro.t) (a : MacroAction.t) (rest : list MacroAction.t) :
  MacroEngine.getMacro id e = Some macro ->
  Macro.enabled macro = true ->
  Macro.actions macro = a :: rest ->
  let e' := MacroEngine.playMacro (S fuel) id e in
  let sid := length (MacroEngine.tasks e) in
  MacroEngine.events e' = MacroEngine.events e ++ [Started sid; Began sid a]
  /\ (forall old, (old < sid)%nat ->
        MacroEngine.tasks e' !! old = MacroEngine.tasks e !! old).
Proof.
  intros Hget Hen Hacts e' sid. subst e'. unfold MacroEngine.playMacro.
  rewrite Hget, Hen. simpl. rewrite Hacts. simpl.
  set (e1 := if bool_decide (id ∈ MacroEngine.activePlaybacks e)
             then MacroEngine.stopMacro id e else e).
  assert (MacroEngine.tasks e1 = MacroEngine.tasks e
          /\ MacroEngine.events e1 = MacroEngine.events e) as [Htasks Hevents].
  { subst e1. destruct (bool_decide _); [|auto].
    unfold MacroEngine.stopMacro.
    destruct (MacroEngine.stopFlags e !! id); auto. }
  assert (((0 <? Macro.repeatCount macro)
           && (Macro.repeatCount macro
               <? (if 0 <? Macro.repeatCount macro then 0 + 1 else 0)))
          = false) as ->.
  { destruct (Z.ltb_spec 0 (Macro.repeatCount macro)); simpl; [|reflexivity].
    apply Z.ltb_ge. lia. }
  unfold MacroEngine.suspend. simpl. rewrite Htasks, Hevents.
  rewrite decide_True by reflexivity. fold sid.
  split; [rewrite <- app_assoc; reflexivity|].
  intros old Hold. apply lookup_app_l. exact Hold.
Qed.

(** The cleanup of a call deletes the entries of its macro id, whichever
    session they belong to. *)
Lemma cleanup_deletes_by_id (fuel : nat) (sid : nat) (e : MacroEngine.t)
    (tk : task) :
  MacroEngine.tasks e !! sid = Some tk ->
  task_at tk = AwaitingLoop ->
  let id := Macro.macroId (task_macro tk) in
  MacroEngine.stopFlags (MacroEngine.resume fuel sid e) !! id = None
  /\ MacroEngine.isMacroPlaying id (MacroEngine.resume fuel sid e) = false.
Proof.
  intros Htk Hat id. unfold MacroEngine.resume, MacroEngine.isMacroPlaying.
  rewrite Htk, Hat. simpl. split; [apply lookup_delete_eq|].
  apply bool_decide_eq_false_2.
  intros [_ Hout]%elem_of_difference. apply Hout, elem_of_singleton.
  reflexivity.
Qed.

(** C4, as the code has it.  The macro [pulse] is played, and played again
    while the first session is in its wait.  The second session begins its
    first action in that very call, while the first session, its flag now
    set, is still suspended in its action: two sessions of one macro are
    under way.  When the first session then sees its flag and retires, its
    cleanup deletes the [activePlaybacks] and [stopFlags] entries, which by
    then are those of the second session: the macro is reported as not
    playing, [stopMacro] no longer reaches the second session, and a third
    call starts a session next to it without stopping it. *)
Theorem replay_overlaps_and_orphans :
  MacroEngine.events played_twice
  = [Started 0; Began 0 wait100; Started 1; Began 1 wait100]
  /\ MacroEngine.live played_twice = [0; 1]%nat
  /\ MacroEngine.flags played_twice = [true; false]
  /\ MacroEngine.events first_retired
     = [Started 0; Began 0 wait100; Started 1; Began 1 wait100;
        LoopLeft 0; CleanedUp 0]
  /\ MacroEngine.live first_retired = [1%nat]
  /\ MacroEngine.isMacroPlaying "m1" first_retired = false
  /\ MacroEngine.stopFlags first_retired !! "m1" = None
  /\ MacroEngine.stopMacro "m1" first_retired = first_retired
  /\ MacroEngine.live (MacroEngine.playMacro 2 "m1" first_retired)
     = [1; 2]%nat
  /\ MacroEngine.flags (MacroEngine.playMacro 2 "m1" first_retired)
     = [true; false; false].
Proof. repeat split; reflexivity. Qed.

(** With a single session, the flag and the cleanup work as meant. *)
Example play_then_stop :
  let e := MacroEngine.resume 2 0
             (MacroEngine.resume 2 0
                (MacroEngine.stopMacro "m1"
                   (MacroEngine.playMacro 2 "m1" (engine_with pulse)))) in
  MacroEngine.events e = [Started 0; Began 0 wait100; LoopLeft 0; CleanedUp 0]
  /\ MacroEngine.live e = []
  /\ MacroEngine.isMacroPlaying "m1" e = false.
Proof. repeat split; reflexivity. Qed.

(** The scenario of the specification, call by call. *)
Example play_combo_twice :
  let resume6 e := Nat.iter 7 (MacroEngine.resume 3 0) e in
  let e := resume6 (MacroEngine.playMacro 3 "m1" (engine_with (combo 2))) in
  MacroEngine.events e
  = [Started 0; Began 0 tapA; Began 0 wait100; Began 0 tapB;
     Began 0 tapA; Began 0 wait100; Began 0 tapB; LoopLeft 0; CleanedUp 0]
  /\ MacroEngine.live e = [].
Proof. repeat split; reflexivity. Qed.

(** ** The loop, suspension by suspension

    [while_head] and [after_action] cut [_playbackLoop] at its [await]s.
    Driven alone, the pieces take the course of the loop. *)

Section Stepwise.
Variable robot : injector.
Variable sd : nat -> bool.
Variable R : Z.
Variable actions : list MacroAction.t.

Lemma after_action_left (F : nat) (flag : bool) (it : Z)
    (rest : list MacroAction.t) :
  for_head flag rest = None ->
  after_action F R actions flag it rest = after_for F R actions flag it.
Proof. intros Hhead. unfold after_action, after_for. rewrite Hhead. reflexivity. Qed.

Lemma run_pass_stepwise (F : nat) (it : Z) (rest : list MacroAction.t) :
  forall s s1 t,
    same_course s t ->
    run_pass robot sd rest s = Normal s1 ->
    exists n t1,
      same_course s1 t1
      /\ Nat.iter n (solo_step F sd R actions)
                  (after_action F R actions (stopped t) it rest, t)
         = (after_for F R actions (stopped t1) it, t1).
Proof.
  induction rest as [|a rest IH]; intros s s1 t Hsame Hpass; simpl in Hpass.
  - injection Hpass as <-. exists O, t. split; [exact Hsame|]. simpl.
    rewrite after_action_left; reflexivity.
  - destruct Hsame as [Hst Hb].
    destruct (stopped s) eqn:Hs.
    + injection Hpass as <-. exists O, t.
      split; [split; congruence|]. simpl.
      rewrite after_action_left; [reflexivity|].
      simpl. rewrite <- Hst. reflexivity.
    + destruct (await_executeAction_returns robot sd a s) as [l' Hawait].
      rewrite Hawait in Hpass.
      set (t2 := {| stopped := stopped t || sd (length (begun t));
                    begun := begun t ++ [a];
                    log := log t |}).
      assert (same_course
                {| stopped := stopped s || sd (length (begun s));
                   begun := begun s ++ [a];
                   log := l' |} t2) as Hsame2
        by (split; simpl; congruence).
      destruct (IH _ s1 t2 Hsame2 Hpass) as (n & t1 & Hsame1 & Hiter).
      exists (S n), t1. split; [exact Hsame1|].
      rewrite Nat.iter_succ_r.
      unfold after_action at 1. simpl. rewrite <- Hst. simpl.
      subst t2. simpl in Hiter. rewrite <- Hst in Hiter. exact Hiter.
Qed.

Lemma for_head_exhausted (l : list MacroAction.t) :
  for_head false l = None -> l = [].
Proof. destruct l; [reflexivity | discriminate]. Qed.

Lemma playback_while_stepwise (F1 : nat) (fuel : nat) :
  forall (F2 : nat) (it : Z) (s s' t : session),
    (fuel <= F1)%nat -> (fuel <= F2)%nat ->
    same_course s t ->
    playback_while robot sd fuel R actions it s = (Returned, s') ->
    exists n t',
      same_course s' t'
      /\ Nat.iter n (solo_step F1 sd R actions)
                  (while_head F2 R actions (stopped t) it, t)
         = (Returns, t').
Proof.
  induction fuel as [|fuel IH]; intros F2 it s s' t HF1 HF2 Hsame Hrun;
    [discriminate|].
  destruct F2 as [|F2]; [lia|].
  pose proof Hsame as [Hst Hb].
  simpl in Hrun |- *. rewrite <- Hst.
  destruct (stopped s) eqn:Hs.
  { injection Hrun as <-. exists O, t. split; [exact Hsame | reflexivity]. }
  destruct ((0 <? R) && (R <? (if 0 <? R then it + 1 else it))).
  { injection Hrun as <-. exists O, t. split; [exact Hsame | reflexivity]. }
  destruct (run_pass robot sd actions s) as [s1|s1] eqn:Hpass;
    [|discriminate].
  destruct (for_head false actions) as [[a rest]|] eqn:Hhead.
  - destruct (run_pass_stepwise F1 (if 0 <? R then it + 1 else it) actions
                s s1 t Hsame Hpass) as (n1 & t1 & Hsame1 & Hiter1).
    assert (after_action F1 R actions (stopped t)
              (if 0 <? R then it + 1 else it) actions
            = Suspends a (if 0 <? R then it + 1 else it) rest) as Hfirst.
    { unfold after_action. rewrite <- Hst, Hhead. reflexivity. }
    rewrite Hfirst in Hiter1. unfold after_for in Hiter1.
    destruct (R =? 1).
    + injection Hrun as <-. exists n1, t1. split; assumption.
    + destruct (IH F1 (if 0 <? R then it + 1 else it) s1 s' t1
                  ltac:(lia) ltac:(lia) Hsame1 Hrun)
        as (n2 & t' & Hsame' & Hiter2).
      exists (n2 + n1)%nat, t'. split; [exact Hsame'|].
      rewrite Nat.iter_add, Hiter1. exact Hiter2.
  - rewrite (for_head_exhausted actions Hhead) in Hpass. simpl in Hpass.
    injection Hpass as <-.
    destruct (R =? 1).
    + injection Hrun as <-. exists O, t. split; [exact Hsame | reflexivity].
    + destruct (IH F2 (if 0 <? R then it + 1 else it) s s' t
                  ltac:(lia) ltac:(lia) Hsame Hrun)
        as (n & t' & Hsame' & Hiter).
      rewrite <- Hst in Hiter. exists n, t'. split; assumption.
Qed.
End Stepwise.

(** When [_playbackLoop] returns, so does the loop driven suspension by
    suspension, with the same flag and the same actions begun. *)
Lemma _playbackLoop_stepwise (robot : injector) (sd : nat -> bool)
    (fuel : nat) (macro : Macro.t) (s' : session) :
  _playbackLoop robot sd fuel macro fresh_session = (Returned, s') ->
  exists n t',
    same_course s' t'
    /\ Nat.iter n (solo_step fuel sd (Macro.repeatCount macro)
                            (Macro.actions macro))
                (while_head fuel (Macro.repeatCount macro)
                            (Macro.actions macro) false 0, fresh_session)
       = (Returns, t').
Proof.
  intros Hrun.
  apply (playback_while_stepwise robot sd (Macro.repeatCount macro)
           (Macro.actions macro) fuel fuel fuel 0 fresh_session s'
           fresh_session);
    [lia | lia | split; reflexivity | exact Hrun].
Qed.

(** * Further properties *)

(** ** Editing the action list *)

Lemma findIndex_first (id : string) (l : list MacroAction.t) (i : nat)
    (a : MacroAction.t) :
  l !! i = Some a ->
  MacroAction.actionId a = id ->
  (forall j b, (j < i)%nat -> l !! j = Some b -> MacroAction.actionId b <> id) ->
  Macro.findIndex id l = Some i.
Proof.
  revert i. induction l as [|b l IH]; intros i Hi Hid Hfirst; [discriminate|].
  simpl. destruct i as [|i].
  - injection Hi as ->. rewrite Hid, String.eqb_refl. reflexivity.
  - destruct (String.eqb_spec (MacroAction.actionId b) id) as [Hb|_].
    + exfalso. apply (Hfirst O b); [lia | reflexivity | exact Hb].
    + rewrite (IH i); [reflexivity | exact Hi | exact Hid |].
      intros j c Hj Hc. apply (Hfirst (S j) c); [lia | exact Hc].
Qed.

Lemma splice_start_le (start : Z) (len : nat) :
  (Macro.splice_start start len <= len)%nat.
Proof.
  unfold Macro.splice_start. destruct (Z.ltb_spec start 0); lia.
Qed.

(** X1. [moveAction] with the id of an action of the macro, the first one
    if several share it: the action ends up at position [newIndex], clamped
    to the list and counted from the end when negative; the other actions
    keep their order; the list is a permutation of the old one, of the same
    length; and [modifiedAt] is set. *)
Theorem moveAction_moves (m : Macro.t) (id : string) (newIndex now : Z)
    (i : nat) (a : MacroAction.t) :
  Macro.actions m !! i = Some a ->
  MacroAction.actionId a = id ->
  (forall j b, (j < i)%nat -> Macro.actions m !! j = Some b ->
               MacroAction.actionId b <> id) ->
  let m' := Macro.moveAction id newIndex now m in
  let k := Macro.splice_start newIndex (length (Macro.actions m) - 1) in
  Macro.actions m' !! k = Some a
  /\ delete k (Macro.actions m') = delete i (Macro.actions m)
  /\ Macro.actions m' ≡ₚ Macro.actions m
  /\ length (Macro.actions m') = length (Macro.actions m)
  /\ Macro.modifiedAt m' = now
  /\ (0 <= newIndex < Z.of_nat (length (Macro.actions m)) ->
      k = Z.to_nat newIndex)
  /\ (Z.of_nat (length (Macro.actions m)) <= newIndex ->
      k = (length (Macro.actions m) - 1)%nat).
Proof.
  intros Hi Hid Hfirst m' k.
  pose proof (lookup_lt_Some _ _ _ Hi) as Hlt.
  assert (length (delete i (Macro.actions m))
          = (length (Macro.actions m) - 1)%nat) as Hlen.
  { rewrite length_delete by eauto. reflexivity. }
  assert (Macro.actions m'
          = take k (delete i (Macro.actions m))
            ++ a :: drop k (delete i (Macro.actions m))) as Hm'.
  { subst m'. unfold Macro.moveAction.
    rewrite (findIndex_first id _ i a Hi Hid Hfirst), Hi. simpl.
    rewrite <- delete_take_drop, Hlen. reflexivity. }
  assert (k <= length (delete i (Macro.actions m)))%nat as Hk
    by (rewrite Hlen; apply splice_start_le).
  assert (length (take k (delete i (Macro.actions m))) = k) as Htake
    by (rewrite length_take; lia).
  assert (Macro.actions m' ≡ₚ Macro.actions m) as Hperm.
  { rewrite Hm', <- Permutation_middle, take_drop.
    rewrite <- (take_drop_middle (Macro.actions m) i a Hi) at 2.
    rewrite <- Permutation_middle, delete_take_drop. reflexivity. }
  split; [|split; [|split; [|split; [|split; [|split]]]]].
  - rewrite Hm'. apply list_lookup_middle. symmetry. exact Htake.
  - rewrite Hm'. rewrite <- Htake at 1. rewrite delete_middle.
    apply take_drop.
  - exact Hperm.
  - apply Permutation_length. exact Hperm.
  - subst m'. unfold Macro.moveAction.
    rewrite (findIndex_first id _ i a Hi Hid Hfirst), Hi. reflexivity.
  - intros Hin. subst k. unfold Macro.splice_start.
    destruct (Z.ltb_spec newIndex 0); lia.
  - intros Hout. subst k. unfold Macro.splice_start.
    destruct (Z.ltb_spec newIndex 0); lia.
Qed.

Lemma moveAction_moves_witness :
  Macro.actions (Macro.moveAction "a2" 5 2000 (combo 2)) !! 2%nat
  = Some wait100.
Proof.
  destruct (moveAction_moves (combo 2) "a2" 5 2000 1 wait100) as (H & _).
  - reflexivity.
  - reflexivity.
  - intros j b Hj Hb. destruct j as [|j]; [|lia].
    injection Hb as <-. discriminate.
  - exact H.
Defined.

(** Where the actions that stay are found: an action with another id
    moves up by the number of removed actions before it. *)
Lemma filter_lookup_kept (id : string) (l : list MacroAction.t) :
  forall (i : nat) (a : MacroAction.t),
    l !! i = Some a ->
    MacroAction.actionId a <> id ->
    filter (fun a => MacroAction.actionId a <> id) l
    !! (i - length (List.filter
                      (fun b => String.eqb (MacroAction.actionId b) id)
                      (take i l)))%nat
    = Some a.
Proof.
  induction l as [|b l IH]; intros i a Hi Ha; [discriminate|].
  destruct i as [|i]; simpl in *.
  - injection Hi as ->. rewrite filter_cons_True by exact Ha. reflexivity.
  - pose proof (List.filter_length_le
                  (fun b => String.eqb (MacroAction.actionId b) id)
                  (take i l)) as Hle.
    pose proof (length_take_le l i) as Htake.
    assert (length (take i l) <= i)%nat as Hi' by (rewrite length_take; lia).
    destruct (String.eqb_spec (MacroAction.actionId b) id) as [Hb|Hb].
    + rewrite filter_cons_False by (intros H; apply H; exact Hb).
      simpl. apply IH; assumption.
    + rewrite filter_cons_True by exact Hb.
      replace (S i - _)%nat
        with (S (i - length (List.filter
                               (fun b => String.eqb (MacroAction.actionId b) id)
                               (take i l))))%nat by lia.
      simpl. apply IH; assumption.
Qed.

Lemma filter_length_removed (id : string) (l : list MacroAction.t) :
  (length (filter (fun a => MacroAction.actionId a <> id) l)
   + length (List.filter (fun b => String.eqb (MacroAction.actionId b) id) l)
   = length l)%nat.
Proof.
  induction l as [|b l IH]; [reflexivity|]. simpl.
  destruct (String.eqb_spec (MacroAction.actionId b) id) as [Hb|Hb].
  - rewrite filter_cons_False by (intros H; apply H; exact Hb). simpl. lia.
  - rewrite filter_cons_True by exact Hb. simpl. lia.
Qed.

(** X2. [removeAction] drops every action with the given id, however many
    there are, and keeps every other action, each occurrence of it, in the
    old order: the list is shorter by the number of actions with the id,
    and an action with another id that was at position [i] is at position
    [i] less the number of removed actions before it.  It sets
    [modifiedAt] in every case: with an id that no action has, the list
    stays as it is and only the timestamp changes, unlike [moveAction]. *)
Theorem removeAction_removes (id : string) (now : Z) (m : Macro.t) :
  let m' := Macro.removeAction id now m in
  let removed :=
    List.filter (fun b => String.eqb (MacroAction.actionId b) id) in
  (forall a, a ∈ Macro.actions m'
             <-> a ∈ Macro.actions m /\ MacroAction.actionId a <> id)
  /\ Macro.actions m' `sublist_of` Macro.actions m
  /\ (length (Macro.actions m') + length (removed (Macro.actions m))
      = length (Macro.actions m))%nat
  /\ (forall i a,
        Macro.actions m !! i = Some a ->
        MacroAction.actionId a <> id ->
        Macro.actions m'
        !! (i - length (removed (take i (Macro.actions m))))%nat
        = Some a)
  /\ Macro.modifiedAt m' = now
  /\ ((forall a, a ∈ Macro.actions m -> MacroAction.actionId a <> id) ->
      Macro.actions m' = Macro.actions m)
  /\ Macro.findIndex id (Macro.actions m') = None.
Proof.
  intros m' removed. subst m' removed. unfold Macro.removeAction. simpl.
  split; [|split; [|split; [|split; [|split; [|split]]]]].
  - intros a. rewrite list_elem_of_filter. tauto.
  - apply sublist_filter.
  - apply filter_length_removed.
  - apply filter_lookup_kept.
  - reflexivity.
  - intros Habs. induction (Macro.actions m) as [|a l IH]; [reflexivity|].
    rewrite filter_cons_True by (apply Habs; left).
    f_equal. apply IH. intros b Hb. apply Habs. right. exact Hb.
  - apply findIndex_absent. intros a Ha.
    apply list_elem_of_filter in Ha as [Hne _]. exact Hne.
Qed.

Lemma removeAction_removes_witness :
  Macro.actions (Macro.removeAction "a9" 5 (combo 2))
  = Macro.actions (combo 2).
Proof.
  destruct (removeAction_removes "a9" 5 (combo 2))
    as (_ & _ & _ & _ & _ & H & _).
  apply H. intros a Ha.
  repeat (apply elem_of_cons in Ha as [->|Ha]; [discriminate|]).
  apply elem_of_nil in Ha. destruct Ha.
Defined.

(** X3. An action appended with [addAction] is the last of the list; and
    when no action had its id before, removing that id again gives back the
    list as it was. *)
Theorem addAction_then_removeAction (action : MacroAction.t) (now now' : Z)
    (m : Macro.t) :
  (forall a, a ∈ Macro.actions m ->
             MacroAction.actionId a <> MacroAction.actionId action) ->
  last (Macro.actions (Macro.addAction action now m)) = Some action
  /\ Macro.findIndex (MacroAction.actionId action)
       (Macro.actions (Macro.addAction action now m))
     = Some (length (Macro.actions m))
  /\ Macro.actions
       (Macro.removeAction (MacroAction.actionId action) now'
          (Macro.addAction action now m))
     = Macro.actions m.
Proof.
  intros Hfresh. unfold Macro.addAction, Macro.removeAction. simpl.
  split; [apply last_snoc|]. split.
  - apply (findIndex_first _ _ _ action).
    + rewrite lookup_app_r by lia. rewrite Nat.sub_diag. reflexivity.
    + reflexivity.
    + intros j b Hj Hb. rewrite lookup_app_l in Hb by exact Hj.
      apply Hfresh. apply list_elem_of_lookup. eauto.
  - rewrite filter_app, filter_cons_False, filter_nil, app_nil_r
      by (intros Hne; apply Hne; reflexivity).
    induction (Macro.actions m) as [|a l IH]; [reflexivity|].
    rewrite filter_cons_True by (apply Hfresh; left).
    f_equal. apply IH. intros b Hb. apply Hfresh. right. exact Hb.
Qed.

Lemma addAction_then_removeAction_witness :
  Macro.actions
    (Macro.removeAction "a9" 3000
       (Macro.addAction (sample_action "a9" TIMER_DELAY "" 5) 2000 (combo 2)))
  = Macro.actions (combo 2).
Proof.
  destruct (addAction_then_removeAction
              (sample_action "a9" TIMER_DELAY "" 5) 2000 3000 (combo 2))
    as (_ & _ & H).
  - intros a Ha. simpl in Ha.
    repeat (apply elem_of_cons in Ha as [-> | Ha]); try discriminate.
    apply elem_of_nil in Ha. destruct Ha.
  - exact H.
Defined.

(** ** What a run can have begun *)

Lemma run_pass_prefix (robot : injector) (sd : nat -> bool)
    (actions : list MacroAction.t) :
  forall s s',
    run_pass robot sd actions s = Normal s' ->
    exists done,
      begun s' = begun s ++ done
      /\ done `prefix_of` actions
      /\ (stopped s' = false -> done = actions).
Proof.
  induction actions as [|a rest IH]; intros s s' Hpass; simpl in Hpass.
  - injection Hpass as <-. exists []. rewrite app_nil_r. auto.
  - destruct (stopped s) eqn:Hs.
    + injection Hpass as <-. exists []. rewrite app_nil_r.
      split; [reflexivity|]. split; [apply prefix_nil | congruence].
    + destruct (await_executeAction_returns robot sd a s) as [l' Hawait].
      rewrite Hawait in Hpass.
      destruct (IH _ _ Hpass) as (done & Hb & Hpre & Hfull).
      exists (a :: done). simpl in Hb. rewrite Hb, <- app_assoc.
      split; [reflexivity|].
      split; [apply prefix_cons; exact Hpre|].
      intros Hs'. rewrite (Hfull Hs'). reflexivity.
Qed.

Lemma passes_le (n n' : nat) (actions : list MacroAction.t) :
  (n <= n')%nat -> passes n actions `prefix_of` passes n' actions.
Proof.
  revert n'. induction n as [|n IH]; intros n' Hle; [apply prefix_nil|].
  destruct n' as [|n']; [lia|].
  rewrite !passes_S. apply prefix_app, IH. lia.
Qed.

(** The actions begun by a run are an initial stretch of [n] passes, when
    [n] is no less than the fuel or, with a repeat limit, than the passes
    that are left. *)
Lemma playback_while_prefix (robot : injector) (sd : nat -> bool)
    (R : Z) (actions : list MacroAction.t) (fuel : nat) :
  forall (it : Z) (s : session) (n : nat),
    (fuel <= n)%nat \/ (1 <= R /\ 0 <= it /\ R - it <= Z.of_nat n) ->
    exists done,
      begun (snd (playback_while robot sd fuel R actions it s))
      = begun s ++ done
      /\ done `prefix_of` passes n actions.
Proof.
  induction fuel as [|fuel IH]; intros it s n Hn; simpl.
  { exists []. rewrite app_nil_r. split; [reflexivity | apply prefix_nil]. }
  destruct (stopped s).
  { exists []. rewrite app_nil_r. split; [reflexivity | apply prefix_nil]. }
  destruct (Z.ltb_spec 0 R) as [Hpos|Hnon]; simpl.
  - destruct (Z.ltb_spec R (it + 1)) as [Hover|Hmore].
    { exists []. rewrite app_nil_r.
      split; [reflexivity | apply prefix_nil]. }
    destruct (run_pass_returns robot sd actions s) as [s1 Hpass].
    rewrite Hpass.
    destruct (run_pass_prefix robot sd actions s s1 Hpass)
      as (done & Hb & Hpre & Hfull).
    destruct n as [|n]; [lia|].
    destruct (R =? 1).
    + exists done. split; [exact Hb|]. rewrite passes_S.
      apply prefix_app_r. exact Hpre.
    + destruct (IH (it + 1) s1 n) as (more & Hb' & Hpre'); [lia|].
      destruct (stopped s1) eqn:Hs1.
      * exists done. split.
        -- rewrite <- Hb. f_equal. f_equal.
           destruct fuel; simpl; [reflexivity | rewrite Hs1; reflexivity].
        -- rewrite passes_S. apply prefix_app_r. exact Hpre.
      * exists (actions ++ more). rewrite Hb', Hb, (Hfull eq_refl), app_assoc.
        split; [reflexivity|]. rewrite passes_S. apply prefix_app.
        exact Hpre'.
  - destruct (run_pass_returns robot sd actions s) as [s1 Hpass].
    rewrite Hpass.
    destruct (run_pass_prefix robot sd actions s s1 Hpass)
      as (done & Hb & Hpre & Hfull).
    destruct n as [|n]; [lia|].
    assert ((R =? 1) = false) as -> by (apply Z.eqb_neq; lia).
    destruct (IH it s1 n) as (more & Hb' & Hpre'); [lia|].
    destruct (stopped s1) eqn:Hs1.
    + exists done. split.
      * rewrite <- Hb. f_equal. f_equal.
        destruct fuel; simpl; [reflexivity | rewrite Hs1; reflexivity].
      * rewrite passes_S. apply prefix_app_r. exact Hpre.
    + exists (actions ++ more). rewrite Hb', Hb, (Hfull eq_refl), app_assoc.
      split; [reflexivity|]. rewrite passes_S. apply prefix_app.
      exact Hpre'.
Qed.

(** X4. Under every schedule of stop requests, with every injector and
    for every repeat count, the actions a session has begun are an initial
    stretch of the sequence of complete passes: none is skipped, repeated
    out of turn or reordered.  With a repeat count [N >= 1] the stretch lies
    within [N] passes, so that at most [N] times the length of the list are
    begun. *)
Theorem playback_begun_prefix (robot : injector) (sd : nat -> bool)
    (fuel : nat) (macro : Macro.t) :
  let r := _playbackLoop robot sd fuel macro fresh_session in
  begun (snd r) `prefix_of` passes fuel (Macro.actions macro)
  /\ (1 <= Macro.repeatCount macro ->
      begun (snd r)
        `prefix_of` passes (Z.to_nat (Macro.repeatCount macro))
                           (Macro.actions macro)
      /\ (length (begun (snd r))
          <= Z.to_nat (Macro.repeatCount macro)
             * length (Macro.actions macro))%nat).
Proof.
  intros r. subst r. unfold _playbackLoop. split.
  - destruct (playback_while_prefix robot sd (Macro.repeatCount macro)
                (Macro.actions macro) fuel 0 fresh_session fuel)
      as (done & -> & Hpre); [left; lia|].
    exact Hpre.
  - intros HN.
    destruct (playback_while_prefix robot sd (Macro.repeatCount macro)
                (Macro.actions macro) fuel 0 fresh_session
                (Z.to_nat (Macro.repeatCount macro)))
      as (done & -> & Hpre); [right; lia|].
    split; [exact Hpre|].
    apply prefix_length in Hpre. rewrite length_passes in Hpre. exact Hpre.
Qed.

Lemma playback_begun_prefix_witness :
  (length (begun (snd (_playbackLoop None (fun k => bool_decide (k = 3%nat)) 9
                         (combo 5) fresh_session)))
   <= 5 * 3)%nat.
Proof.
  destruct (playback_begun_prefix None (fun k => bool_decide (k = 3%nat)) 9
              (combo 5)) as [_ H].
  destruct H as [_ H]; [simpl; lia | exact H].
Defined.

(** ** Key names *)

Lemma lower_ascii_not_upper (c : ascii) : is_upper (lower_ascii c) = false.
Proof. destruct c as [[] [] [] [] [] [] [] []]; reflexivity. Qed.

Lemma lower_ascii_id (c : ascii) : is_upper c = false -> lower_ascii c = c.
Proof.
  destruct c as [[] [] [] [] [] [] [] []]; vm_compute; intros; congruence.
Qed.

Lemma toLowerCase_no_upper (s : string) : no_upper (toLowerCase s) = true.
Proof.
  induction s as [|c s IH]; [reflexivity|].
  simpl. rewrite lower_ascii_not_upper, IH. reflexivity.
Qed.

Lemma toLowerCase_id (s : string) : no_upper s = true -> toLowerCase s = s.
Proof.
  induction s as [|c s IH]; [reflexivity|].
  simpl. intros [Hc Hs]%andb_true_iff.
  rewrite lower_ascii_id, IH; [reflexivity | exact Hs |].
  destruct (is_upper c); [discriminate | reflexivity].
Qed.

Lemma keyMap_values_no_upper (k v : string) :
  JsMap.get k keyMap = Some v -> no_upper v = true.
Proof.
  unfold keyMap. simpl.
  repeat (destruct (String.eqb k _);
          [intros [= <-]; reflexivity|]).
  discriminate.
Qed.

Lemma keyMap_keys_upper (k : string) :
  no_upper k = true -> JsMap.get k keyMap = None.
Proof.
  intros Hk. unfold keyMap. simpl.
  repeat (match goal with
          | |- context [String.eqb k ?x] =>
              destruct (String.eqb_spec k x) as [Heq|_];
              [rewrite Heq in Hk; discriminate|]
          end).
  reflexivity.
Qed.

Lemma inherited_not_in_keyMap (k : string) :
  JsObject.inherited k = true -> JsMap.get k keyMap = None.
Proof.
  unfold JsObject.inherited, JsObject.Object_prototype. cbn [existsb].
  repeat (match goal with
          | |- context [String.eqb k ?x] =>
              destruct (String.eqb_spec k x) as [->|_];
              [intros _; reflexivity|]
          end).
  discriminate.
Qed.

(** X5. What [_convertKeyName] hands to the injector.  For a name that
    [Object.prototype] has a member of (["constructor"], ["toString"],
    ["__proto__"] and the like) it is that member, a function or an
    object, and no string.  For every other name it is a string without a
    capital letter, whether it comes from the table or from lower-casing;
    converting that string once more gives the same string, unless the
    string is itself the name of a member of [Object.prototype], as
    ["constructor"] is, which ["Constructor"] is converted to. *)
Theorem _convertKeyName_canonical (keyName : string) :
  (JsObject.inherited keyName = true ->
   _convertKeyName keyName = Inherited keyName)
  /\ (JsObject.inherited keyName = false ->
      exists s,
        _convertKeyName keyName = KeyName s
        /\ no_upper s = true
        /\ _convertKeyName s
           = if JsObject.inherited s then Inherited s else KeyName s).
Proof.
  split.
  - intros Hin. unfold _convertKeyName.
    rewrite (inherited_not_in_keyMap _ Hin), Hin. reflexivity.
  - intros Hout.
    assert (exists s, _convertKeyName keyName = KeyName s
                      /\ no_upper s = true) as (s & Hs & Hlow).
    { unfold _convertKeyName. rewrite Hout.
      destruct (JsMap.get keyName keyMap) as [v|] eqn:Hget.
      - exists v. split; [reflexivity|].
        apply (keyMap_values_no_upper keyName v Hget).
      - exists (toLowerCase keyName). split; [reflexivity|].
        apply toLowerCase_no_upper. }
    exists s. split; [exact Hs|]. split; [exact Hlow|].
    unfold _convertKeyName. rewrite (keyMap_keys_upper _ Hlow).
    rewrite (toLowerCase_id _ Hlow). reflexivity.
Qed.

Lemma _convertKeyName_canonical_witness :
  exists s,
    _convertKeyName "Constructor" = KeyName s
    /\ no_upper s = true
    /\ _convertKeyName s
       = if JsObject.inherited s then Inherited s else KeyName s.
Proof.
  apply (_convertKeyName_canonical "Constructor"). reflexivity.
Defined.

Example _convertKeyName_samples :
  _convertKeyName "ArrowUp" = "up" /\ _convertKeyName "Meta" = "command"
  /\ _convertKeyName "A" = "a" /\ _convertKeyName "F5" = "f5".
Proof. repeat split; reflexivity. Qed.

(** A name the table inherits, and a name whose lower-cased form it
    inherits. *)
Example _convertKeyName_inherited :
  _convertKeyName "toString" = Inherited "toString"
  /\ _convertKeyName "Constructor" = "constructor"
  /\ _convertKeyName "constructor" = Inherited "constructor".
Proof. repeat split; reflexivity. Qed.

(** ** The trigger catalogue *)

Lemma JsMap_get_set_eq {V : Type} (k : string) (v : V) (m : JsMap.t V) :
  JsMap.get k (JsMap.set k v m) = Some v.
Proof.
  induction m as [|[k' v'] m IH]; simpl.
  - rewrite String.eqb_refl. reflexivity.
  - destruct (String.eqb k k') eqn:Hk; simpl.
    + rewrite String.eqb_refl. reflexivity.
    + rewrite Hk. exact IH.
Qed.

Lemma JsMap_get_set_ne {V : Type} (k k' : string) (v : V) (m : JsMap.t V) :
  k <> k' -> JsMap.get k' (JsMap.set k v m) = JsMap.get k' m.
Proof.
  intros Hne. induction m as [|[k0 v0] m IH]; simpl.
  - destruct (String.eqb_spec k' k); [congruence | reflexivity].
  - destruct (String.eqb_spec k k0) as [<-|Hk0]; simpl.
    + destruct (String.eqb_spec k' k); [congruence | reflexivity].
    + rewrite IH. reflexivity.
Qed.

Lemma JsMap_set_fresh {V : Type} (k : string) (v : V) (m : JsMap.t V) :
  JsMap.get k m = None -> JsMap.set k v m = m ++ [(k, v)].
Proof.
  induction m as [|[k' v'] m IH]; simpl; [reflexivity|].
  destruct (String.eqb k k'); [discriminate|].
  intros Hget. rewrite (IH Hget). reflexivity.
Qed.

Lemma JsMap_delete_absent {V : Type} (k : string) (m : JsMap.t V) :
  JsMap.get k m = None -> JsMap.delete k m = m.
Proof.
  induction m as [|[k' v'] m IH]; simpl; [reflexivity|].
  destruct (String.eqb k k'); [discriminate|].
  intros Hget. rewrite (IH Hget). reflexivity.
Qed.

Lemma JsMap_delete_sublist {V : Type} (k : string) (m : JsMap.t V) :
  JsMap.delete k m `sublist_of` m.
Proof.
  induction m as [|[k' v'] m IH]; simpl; [reflexivity|].
  destruct (String.eqb k k').
  - apply sublist_cons. exact IH.
  - apply sublist_skip. exact IH.
Qed.

(** X6. [createTrigger] registers a trigger with the identifier the host
    hands out and the documented defaults (no modifiers, axis threshold
    0.5, hold duration 500, double-tap window 300, enabled); the trigger
    can be looked up by its id; when the id is new to the catalogue the
    trigger comes last in registration order; and the other triggers are
    as before. *)
Theorem createTrigger_registers (ty : TriggerType) (macro : string)
    (dev : option string) (name : option string) (e : TriggerEngine.t)
    (h : host) :
  let r := TriggerEngine.createTrigger ty macro dev name e h in
  let tr := fst (fst r) in
  let e' := snd (fst r) in
  tr = {| Trigger.triggerId := uuids h (issued h);
          Trigger.triggerType := ty; Trigger.macroId := macro;
          Trigger.deviceId := dev;
          Trigger.inputName := or_undefined name "";
          Trigger.modifiers := []; Trigger.axisThreshold := 0.5;
          Trigger.holdDuration := 500; Trigger.doubleTapWindow := 300;
          Trigger.enabled := true |}
  /\ issued (snd r) = S (issued h)
  /\ TriggerEngine.getTrigger (Trigger.triggerId tr) e' = Some tr
  /\ (forall id, id <> Trigger.triggerId tr ->
        TriggerEngine.getTrigger id e' = TriggerEngine.getTrigger id e)
  /\ (TriggerEngine.getTrigger (Trigger.triggerId tr) e = None ->
      JsMap.values (TriggerEngine.triggers e')
      = JsMap.values (TriggerEngine.triggers e) ++ [tr]).
Proof.
  intros r tr e'. subst r tr e'.
  unfold TriggerEngine.createTrigger, Trigger.new, bind, uuidv4, ret,
    TriggerEngine.getTrigger. simpl.
  split; [reflexivity|]. split; [reflexivity|].
  split; [apply JsMap_get_set_eq|].
  split.
  - intros id Hne. apply JsMap_get_set_ne. congruence.
  - intros Hfresh. rewrite (JsMap_set_fresh _ _ _ Hfresh).
    unfold JsMap.values. rewrite map_app. reflexivity.
Qed.

Lemma createTrigger_registers_witness :
  JsMap.values
    (TriggerEngine.triggers
       (snd (fst (TriggerEngine.createTrigger KEY_PRESS "m1" None (Some "f")
                    (listening [hold_f]) some_host))))
  = [hold_f; fst (fst (TriggerEngine.createTrigger KEY_PRESS "m1" None
                         (Some "f") (listening [hold_f]) some_host))].
Proof.
  destruct (createTrigger_registers KEY_PRESS "m1" None (Some "f")
              (listening [hold_f]) some_host) as (_ & _ & _ & _ & H).
  apply H. reflexivity.
Defined.

(** X7. [deleteTrigger] takes the trigger with the given id out of the
    catalogue and leaves every other trigger in place, in the same
    registration order; with an id that is not registered the engine is
    unchanged. *)
Theorem deleteTrigger_frame (id : string) (e : TriggerEngine.t) :
  TriggerEngine.getTrigger id (TriggerEngine.deleteTrigger id e) = None
  /\ (forall id', id' <> id ->
        TriggerEngine.getTrigger id' (TriggerEngine.deleteTrigger id e)
        = TriggerEngine.getTrigger id' e)
  /\ TriggerEngine.triggers (TriggerEngine.deleteTrigger id e)
       `sublist_of` TriggerEngine.triggers e
  /\ (TriggerEngine.getTrigger id e = None ->
      TriggerEngine.deleteTrigger id e = e).
Proof.
  unfold TriggerEngine.getTrigger, TriggerEngine.deleteTrigger, JsMap.has.
  destruct (JsMap.get id (TriggerEngine.triggers e)) eqn:Hget; simpl.
  - split; [apply JsMap_get_delete|].
    split; [intros id' Hne; apply JsMap_get_delete_ne; congruence|].
    split; [apply JsMap_delete_sublist | discriminate].
  - split; [exact Hget|]. split; [reflexivity|]. split; reflexivity.
Qed.

Lemma deleteTrigger_frame_witness :
  TriggerEngine.deleteTrigger "t9" (listening [hold_f]) = listening [hold_f].
Proof.
  apply (deleteTrigger_frame "t9" (listening [hold_f])). reflexivity.
Defined.

(** ** What a key-down activates *)






(** ** Releasing a key, and stopping *)

(** X10. While monitoring, a key-up on a key whose hold timer is armed
    cancels the timer without firing it: the key is no longer held, the
    timer is off the record and no longer pending, nothing is activated,
    and neither the cancelled timeout nor any other timeout for that key
    activates anything afterwards. *)
Theorem key_up_cancels_hold (e : TriggerEngine.t) (key : string) (h : nat) :
  TriggerEngine.monitoring e = true ->
  TriggerEngine.keyHoldTimers e !! key = Some h ->
  let e' := TriggerEngine._handleKeyUp key e in
  (key ∉ TriggerEngine.pressedKeys e')
  /\ TriggerEngine.keyHoldTimers e' !! key = None
  /\ TriggerEngine.timeouts e' !! h = None
  /\ TriggerEngine.activated e' = TriggerEngine.activated e
  /\ (forall now, TriggerEngine.timeout_fires h now e' = e')
  /\ (forall h' tm now,
        TriggerEngine.timeouts e' !! h' = Some tm ->
        timer_key tm = key ->
        TriggerEngine.activated (TriggerEngine.timeout_fires h' now e')
        = TriggerEngine.activated e).
Proof.
  intros Hmon Hh e'. subst e'. unfold TriggerEngine._handleKeyUp.
  rewrite Hmon, Hh. simpl. unfold TriggerEngine.clearTimeout.
  assert (key ∉ TriggerEngine.pressedKeys e ∖ {[key]}) as Hup.
  { intros [_ Hout]%elem_of_difference. apply Hout, elem_of_singleton.
    reflexivity. }
  split; [exact Hup|].
  split; [apply lookup_delete_eq|].
  split; [apply lookup_delete_eq|].
  split; [reflexivity|].
  split.
  - intros now. unfold TriggerEngine.timeout_fires. simpl.
    rewrite lookup_delete_eq. reflexivity.
  - intros h' tm now Htm Hkey. unfold TriggerEngine.timeout_fires. simpl.
    rewrite Htm. destruct (due tm <=? now); [|reflexivity]. simpl.
    rewrite Hkey, bool_decide_eq_false_2 by exact Hup. reflexivity.
Qed.

Lemma key_up_cancels_hold_witness :
  let e := TriggerEngine._handleKeyDown every_device "f" 0
             (listening [hold_f]) in
  TriggerEngine.timeout_fires 0 500 (TriggerEngine._handleKeyUp "f" e)
  = TriggerEngine._handleKeyUp "f" e.
Proof.
  intros e.
  destruct (key_up_cancels_hold e "f" 0) as (_ & _ & _ & _ & H & _);
    [reflexivity | reflexivity |].
  apply (H 500).
Defined.

Lemma clearTimeout_all (pending : gmap nat hold_timer) (m : gmap string nat) :
  let r := map_fold (fun _ handle p => TriggerEngine.clearTimeout handle p)
                    pending m in
  (forall h, r !! h = None \/ r !! h = pending !! h)
  /\ (forall k h, m !! k = Some h -> r !! h = None).
Proof.
  apply (map_fold_weak_ind
           (fun r (m : gmap string nat) =>
              (forall h, r !! h = None \/ r !! h = pending !! h)
              /\ (forall k h, m !! k = Some h -> r !! h = None))).
  - split; [auto | intros k h Hk; rewrite lookup_empty in Hk; discriminate].
  - intros i x m' r Hi [Hsub Hgone]. unfold TriggerEngine.clearTimeout. split.
    + intros h. destruct (decide (x = h)) as [->|Hne].
      * left. apply lookup_delete_eq.
      * rewrite lookup_delete_ne by exact Hne. apply Hsub.
    + intros k h Hk. destruct (decide (i = k)) as [->|Hne].
      * rewrite lookup_insert_eq in Hk. injection Hk as ->.
        apply lookup_delete_eq.
      * rewrite lookup_insert_ne in Hk by exact Hne.
        destruct (decide (x = h)) as [->|Hxh]; [apply lookup_delete_eq|].
        rewrite lookup_delete_ne by exact Hxh. apply (Hgone k h Hk).
Qed.

(** X11. [stopMonitoring], on an engine that is monitoring, is a full
    reset of the input state: no key is held, no press time and no hold
    timer is on record, every timer that was on record is cancelled, and
    the catalogue is kept.  No timeout activates anything afterwards,
    key events are ignored, and stopping again changes nothing. *)
Theorem stopMonitoring_resets (e : TriggerEngine.t) :
  TriggerEngine.monitoring e = true ->
  let e' := TriggerEngine.stopMonitoring e in
  TriggerEngine.monitoring e' = false
  /\ TriggerEngine.pressedKeys e' = ∅
  /\ TriggerEngine.keyPressTimes e' = ∅
  /\ TriggerEngine.keyHoldTimers e' = ∅
  /\ TriggerEngine.triggers e' = TriggerEngine.triggers e
  /\ (forall key h, TriggerEngine.keyHoldTimers e !! key = Some h ->
                    TriggerEngine.timeouts e' !! h = None)
  /\ (hold_timers_wf e -> TriggerEngine.timeouts e' = ∅)
  /\ (forall h now,
        TriggerEngine.activated (TriggerEngine.timeout_fires h now e')
        = TriggerEngine.activated e)
  /\ TriggerEngine.stopMonitoring e' = e'
  /\ (forall shouldProcess key now,
        TriggerEngine._handleKeyDown shouldProcess key now e' = e'
        /\ TriggerEngine._handleKeyUp key e' = e').
Proof.
  intros Hmon e'. subst e'. rewrite (stopMonitoring_fields e Hmon). simpl.
  destruct (clearTimeout_all (TriggerEngine.timeouts e)
              (TriggerEngine.keyHoldTimers e)) as [Hsub Hgone].
  repeat (split; [reflexivity|]).
  split; [exact Hgone|]. split; [|split; [|split]].
  - intros Hwf. apply map_eq. intros h. rewrite lookup_empty.
    destruct (Hsub h) as [Hnone|Hsame]; [exact Hnone|].
    rewrite Hsame.
    destruct (TriggerEngine.timeouts e !! h) as [tm|] eqn:Htm; [|reflexivity].
    rewrite <- Hsame. apply (Hgone (timer_key tm)). apply Hwf. exact Htm.
  - intros h now. unfold TriggerEngine.timeout_fires. simpl.
    match goal with
    | |- context [map_fold ?f ?b ?m !! h] => destruct (map_fold f b m !! h)
    end; [|reflexivity].
    destruct (due _ <=? now); [|reflexivity]. simpl.
    rewrite bool_decide_eq_false_2 by apply not_elem_of_empty. reflexivity.
  - reflexivity.
  - intros shouldProcess key now. split; reflexivity.
Qed.

Lemma stopMonitoring_resets_witness :
  let e := TriggerEngine._handleKeyDown every_device "f" 0
             (listening [hold_f]) in
  TriggerEngine.timeouts (TriggerEngine.stopMonitoring e) !! 0%nat = None.
Proof.
  intros e.
  destruct (stopMonitoring_resets e) as (_ & _ & _ & _ & _ & H & _);
    [reflexivity|].
  apply (H "f"). reflexivity.
Defined.

(** ** Hold timers *)

Lemma check_trigger_arms (shouldProcess : string -> bool) (key : string)
    (now : Z) (e : TriggerEngine.t) (tr : Trigger.t) :
  arms shouldProcess key tr = true ->
  TriggerEngine.check_trigger shouldProcess key now e tr
  = TriggerEngine._setupHoldTimer tr key now e.
Proof.
  unfold arms, TriggerEngine.check_trigger.
  destruct (Trigger.enabled tr); [|discriminate].
  destruct (TriggerEngine.gated_out shouldProcess tr); [discriminate|].
  destruct (String.eqb (Trigger.inputName tr) key); [|discriminate].
  destruct (Trigger.triggerType tr); simpl; try discriminate. reflexivity.
Qed.

Lemma check_trigger_no_arm (shouldProcess : string -> bool) (key : string)
    (now : Z) (e : TriggerEngine.t) (tr : Trigger.t) :
  arms shouldProcess key tr = false ->
  TriggerEngine.keyHoldTimers
    (TriggerEngine.check_trigger shouldProcess key now e tr)
  = TriggerEngine.keyHoldTimers e
  /\ TriggerEngine.timeouts
       (TriggerEngine.check_trigger shouldProcess key now e tr)
     = TriggerEngine.timeouts e.
Proof.
  unfold arms, TriggerEngine.check_trigger.
  destruct (Trigger.enabled tr); [|auto].
  destruct (TriggerEngine.gated_out shouldProcess tr); [auto|].
  destruct (String.eqb (Trigger.inputName tr) key); [|auto].
  destruct (Trigger.triggerType tr); simpl; try discriminate; auto.
  - destruct (TriggerEngine._checkDoubleTap _ _ _); auto.
  - destruct (TriggerEngine._checkModifiers _ _); auto.
Qed.


Lemma timeout_fires_pending (e : TriggerEngine.t) (h : nat) (tm : hold_timer)
    (t : Z) :
  TriggerEngine.timeouts e !! h = Some tm ->
  (t < due tm -> TriggerEngine.timeout_fires h t e = e)
  /\ (due tm <= t ->
      TriggerEngine.activated (TriggerEngine.timeout_fires h t e)
      = TriggerEngine.activated e
        ++ (if bool_decide (timer_key tm ∈ TriggerEngine.pressedKeys e)
            then [timer_trigger tm] else [])
      /\ TriggerEngine.timeouts (TriggerEngine.timeout_fires h t e)
         = delete h (TriggerEngine.timeouts e)
      /\ TriggerEngine.keyHoldTimers (TriggerEngine.timeout_fires h t e)
         = delete (timer_key tm) (TriggerEngine.keyHoldTimers e)
      /\ TriggerEngine.pressedKeys (TriggerEngine.timeout_fires h t e)
         = TriggerEngine.pressedKeys e).
Proof.
  intros Htm. unfold TriggerEngine.timeout_fires. rewrite Htm. split.
  - intros Hearly.
    assert ((due tm <=? t) = false) as -> by (apply Z.leb_gt; exact Hearly).
    reflexivity.
  - intros Hdue.
    assert ((due tm <=? t) = true) as -> by (apply Z.leb_le; exact Hdue).
    simpl. destruct (bool_decide _); simpl; rewrite ?app_nil_r; auto.
Qed.




(** A hold duration of 3000000000 ms is past what the host's timers hold:
    the timer is due after 1 ms. *)
Example hold_duration_overflows :
  let e := TriggerEngine._handleKeyDown every_device "f" 0
             (listening [hold_f_for 3000000000]) in
  TriggerEngine.activated (TriggerEngine.timeout_fires 0 1 e)
  = [hold_f_for 3000000000].
Proof. reflexivity. Qed.

Lemma hold_timers_wf_eq (e e' : TriggerEngine.t) :
  TriggerEngine.timeouts e' = TriggerEngine.timeouts e ->
  TriggerEngine.keyHoldTimers e' = TriggerEngine.keyHoldTimers e ->
  hold_timers_wf e -> hold_timers_wf e'.
Proof. intros Ht Hk Hwf h tm. rewrite Ht, Hk. apply Hwf. Qed.

Lemma _setupHoldTimer_wf (tr : Trigger.t) (key : string) (now : Z)
    (e : TriggerEngine.t) :
  hold_timers_wf e ->
  hold_timers_wf (TriggerEngine._setupHoldTimer tr key now e).
Proof.
  intros Hwf h tm. unfold TriggerEngine._setupHoldTimer. simpl.
  destruct (decide (TriggerEngine.next_handle e = h)) as [<-|Hne].
  - rewrite lookup_insert_eq. intros [= <-]. simpl. apply lookup_insert_eq.
  - rewrite lookup_insert_ne by exact Hne. intros Hpending.
    assert (TriggerEngine.timeouts e !! h = Some tm
            /\ TriggerEngine.keyHoldTimers e !! key <> Some h) as [Htm Hold].
    { destruct (TriggerEngine.keyHoldTimers e !! key) as [old|];
        [|split; [exact Hpending | discriminate]].
      unfold TriggerEngine.clearTimeout in Hpending.
      destruct (decide (old = h)) as [->|Hoh].
      - rewrite lookup_delete_eq in Hpending. discriminate.
      - rewrite lookup_delete_ne in Hpending by exact Hoh.
        split; [exact Hpending | congruence]. }
    destruct (decide (key = timer_key tm)) as [->|Hk].
    + exfalso. apply Hold, Hwf, Htm.
    + rewrite lookup_insert_ne by exact Hk. apply Hwf, Htm.
Qed.

Lemma check_trigger_wf (shouldProcess : string -> bool) (key : string)
    (now : Z) (e : TriggerEngine.t) (tr : Trigger.t) :
  hold_timers_wf e ->
  hold_timers_wf (TriggerEngine.check_trigger shouldProcess key now e tr).
Proof.
  intros Hwf. destruct (arms shouldProcess key tr) eqn:Harms.
  - rewrite (check_trigger_arms _ _ _ _ _ Harms). apply _setupHoldTimer_wf, Hwf.
  - destruct (check_trigger_no_arm shouldProcess key now e tr Harms)
      as [Hk Ht].
    apply (hold_timers_wf_eq e); assumption.
Qed.

Lemma fold_check_trigger_wf (shouldProcess : string -> bool) (key : string)
    (now : Z) (l : list Trigger.t) :
  forall e, hold_timers_wf e ->
    hold_timers_wf
      (fold_left (TriggerEngine.check_trigger shouldProcess key now) l e).
Proof.
  induction l as [|tr l IH]; intros e Hwf; [exact Hwf|].
  simpl. apply IH, check_trigger_wf, Hwf.
Qed.

(** X13. At most one hold timer is pending for a key.  In a new engine,
    and after every operation of an engine for which it held before
    (key-down, key-up, a timeout coming due, starting and stopping the
    monitoring, deleting a trigger), each pending timeout is the one on
    record for its key; so two pending timeouts are never for the same key:
    re-arming replaces the timer and does not stack a second one. *)
Theorem hold_timers_one_per_key (shouldProcess : string -> bool)
    (e : TriggerEngine.t) :
  hold_timers_wf TriggerEngine.new
  /\ (hold_timers_wf e ->
      (forall key now,
         hold_timers_wf (TriggerEngine._handleKeyDown shouldProcess key now e))
      /\ (forall key, hold_timers_wf (TriggerEngine._handleKeyUp key e))
      /\ (forall h now, hold_timers_wf (TriggerEngine.timeout_fires h now e))
      /\ hold_timers_wf (TriggerEngine.startMonitoring e)
      /\ hold_timers_wf (TriggerEngine.stopMonitoring e)
      /\ (forall id, hold_timers_wf (TriggerEngine.deleteTrigger id e))
      /\ (forall h1 h2 tm1 tm2,
            TriggerEngine.timeouts e !! h1 = Some tm1 ->
            TriggerEngine.timeouts e !! h2 = Some tm2 ->
            timer_key tm1 = timer_key tm2 -> h1 = h2)).
Proof.
  split.
  { intros h tm Htm. simpl in Htm. rewrite lookup_empty in Htm.
    discriminate. }
  intros Hwf. split; [|split; [|split; [|split; [|split; [|split]]]]].
  - intros key now. unfold TriggerEngine._handleKeyDown.
    destruct (TriggerEngine.monitoring e); [|exact Hwf]. simpl.
    apply fold_check_trigger_wf. unfold TriggerEngine._cleanupPressTimes.
    simpl. rewrite lookup_insert_eq.
    apply (hold_timers_wf_eq e); [reflexivity | reflexivity | exact Hwf].
  - intros key. unfold TriggerEngine._handleKeyUp.
    destruct (TriggerEngine.monitoring e); [|exact Hwf]. simpl.
    intros h tm. simpl. intros Hpending.
    assert (TriggerEngine.timeouts e !! h = Some tm
            /\ TriggerEngine.keyHoldTimers e !! key <> Some h) as [Htm Hold].
    { destruct (TriggerEngine.keyHoldTimers e !! key) as [old|];
        [|split; [exact Hpending | discriminate]].
      unfold TriggerEngine.clearTimeout in Hpending.
      destruct (decide (old = h)) as [->|Hoh].
      - rewrite lookup_delete_eq in Hpending. discriminate.
      - rewrite lookup_delete_ne in Hpending by exact Hoh.
        split; [exact Hpending | congruence]. }
    destruct (decide (key = timer_key tm)) as [->|Hk].
    + exfalso. apply Hold, Hwf, Htm.
    + rewrite lookup_delete_ne by exact Hk. apply Hwf, Htm.
  - intros h now.
    destruct (TriggerEngine.timeouts e !! h) as [tm|] eqn:Htm.
    + destruct (timeout_fires_pending e h tm now Htm) as [Hearly Hdue].
      destruct (Z.lt_ge_cases now (due tm)) as [Hlt|Hge].
      * rewrite (Hearly Hlt). exact Hwf.
      * destruct (Hdue Hge) as (_ & Htms & Hkeys & _).
        intros h' tm'. rewrite Htms, Hkeys.
        destruct (decide (h = h')) as [->|Hne];
          [rewrite lookup_delete_eq; discriminate|].
        rewrite lookup_delete_ne by exact Hne. intros Htm'.
        destruct (decide (timer_key tm = timer_key tm')) as [Hk|Hk].
        -- exfalso. apply Hne.
           pose proof (Hwf h tm Htm) as H1. pose proof (Hwf h' tm' Htm') as H2.
           rewrite Hk in H1. congruence.
        -- rewrite lookup_delete_ne by exact Hk. apply Hwf, Htm'.
    + unfold TriggerEngine.timeout_fires. rewrite Htm. exact Hwf.
  - destruct (TriggerEngine.monitoring e) eqn:Hmon.
    + unfold TriggerEngine.startMonitoring. rewrite Hmon. exact Hwf.
    + rewrite (startMonitoring_fields e Hmon). exact Hwf.
  - destruct (TriggerEngine.monitoring e) eqn:Hmon;
      [|unfold TriggerEngine.stopMonitoring; rewrite Hmon; exact Hwf].
    rewrite (stopMonitoring_fields e Hmon).
    destruct (clearTimeout_all (TriggerEngine.timeouts e)
                (TriggerEngine.keyHoldTimers e)) as [Hsub Hgone].
    intros h tm. simpl. intros Hpending. exfalso.
    destruct (Hsub h) as [Hnone|Hsame]; [congruence|].
    rewrite Hsame in Hpending.
    pose proof (Hgone _ _ (Hwf h tm Hpending)). congruence.
  - intros id. apply (hold_timers_wf_eq e); [| |exact Hwf];
      unfold TriggerEngine.deleteTrigger;
      destruct (JsMap.has id (TriggerEngine.triggers e)); reflexivity.
  - intros h1 h2 tm1 tm2 H1 H2 Hk.
    pose proof (Hwf h1 tm1 H1) as R1. pose proof (Hwf h2 tm2 H2) as R2.
    rewrite Hk in R1. congruence.
Qed.

Lemma hold_timers_one_per_key_witness :
  hold_timers_wf
    (TriggerEngine._handleKeyDown every_device "f" 300
       (TriggerEngine._handleKeyDown every_device "f" 0 (listening [hold_f]))).
Proof.
  destruct (hold_timers_one_per_key every_device
              (TriggerEngine._handleKeyDown every_device "f" 0
                 (listening [hold_f]))) as [Hnew Hkept].
  destruct Hkept as (Hdown & _); [|apply Hdown].
  destruct (hold_timers_one_per_key every_device (listening [hold_f]))
    as [_ Hkept0].
  destruct Hkept0 as (Hdown0 & _); [|apply Hdown0].
  apply (hold_timers_wf_eq TriggerEngine.new); [reflexivity | reflexivity|].
  exact Hnew.
Defined.

(** Pressed again before the timeout, the key leaves a single timer, due
    500 ms after the second press. *)
Example hold_rearmed :
  let e := TriggerEngine._handleKeyDown every_device "f" 300
             (TriggerEngine._handleKeyDown every_device "f" 0
                (listening [hold_f])) in
  map_to_list (TriggerEngine.timeouts e)
  = [(1%nat, {| timer_trigger := hold_f; timer_key := "f"; due := 800 |})].
Proof. reflexivity. Qed.

(** ** Stopping a session *)

Lemma after_action_stopped (fuel : nat) (R : Z)
    (actions : list MacroAction.t) (it : Z) (rest : list MacroAction.t) :
  after_action (S fuel) R actions true it rest = Returns.
Proof.
  unfold after_action.
  assert (for_head true rest = None) as -> by (destruct rest; reflexivity).
  destruct (R =? 1); reflexivity.
Qed.

(** X14. A session that is suspended in an action and whose stop flag is
    the one on record for its macro is ended by [stopMacro]: when the
    awaited action returns, the session leaves its loop without beginning
    another action, and its cleanup then removes the macro from
    [activePlaybacks] and [stopFlags]; resumed once more, the finished call
    does nothing. *)
Theorem stopMacro_ends_session (fuel : nat) (e : MacroEngine.t) (sid : nat)
    (tk : task) (it : Z) (rest : list MacroAction.t) :
  MacroEngine.tasks e !! sid = Some tk ->
  task_at tk = AwaitingAction it rest ->
  MacroEngine.stopFlags e !! Macro.macroId (task_macro tk)
  = Some (task_flag tk) ->
  (task_flag tk < length (MacroEngine.flags e))%nat ->
  let id := Macro.macroId (task_macro tk) in
  let e1 := MacroEngine.resume (S fuel) sid (MacroEngine.stopMacro id e) in
  let e2 := MacroEngine.resume (S fuel) sid e1 in
  MacroEngine.events e1 = MacroEngine.events e ++ [LoopLeft sid]
  /\ MacroEngine.events e2
     = MacroEngine.events e ++ [LoopLeft sid; CleanedUp sid]
  /\ MacroEngine.isMacroPlaying id e2 = false
  /\ MacroEngine.stopFlags e2 !! id = None
  /\ (task_at <$> MacroEngine.tasks e2 !! sid) = Some Finished
  /\ (forall fuel', MacroEngine.resume fuel' sid e2 = e2).
Proof.
  intros Htk Hat Hflag Hbound id e1 e2.
  pose proof (lookup_lt_Some _ _ _ Htk) as Hsid.
  assert (e1 = {| MacroEngine.macros := MacroEngine.macros e;
                  MacroEngine.activePlaybacks := MacroEngine.activePlaybacks e;
                  MacroEngine.stopFlags := MacroEngine.stopFlags e;
                  MacroEngine.flags :=
                    <[task_flag tk := true]> (MacroEngine.flags e);
                  MacroEngine.tasks :=
                    <[sid := {| task_macro := task_macro tk;
                                task_flag := task_flag tk;
                                task_at := AwaitingLoop |}]>
                      (MacroEngine.tasks e);
                  MacroEngine.events :=
                    MacroEngine.events e ++ [LoopLeft sid] |}) as He1.
  { subst e1 id. unfold MacroEngine.stopMacro. rewrite Hflag.
    unfold MacroEngine.resume. simpl. rewrite Htk, Hat.
    rewrite list_lookup_insert_eq by exact Hbound. simpl.
    rewrite after_action_stopped. unfold MacroEngine.suspend. simpl.
    rewrite decide_False by lia. reflexivity. }
  assert (e2 = {| MacroEngine.macros := MacroEngine.macros e;
                  MacroEngine.activePlaybacks :=
                    MacroEngine.activePlaybacks e ∖ {[id]};
                  MacroEngine.stopFlags := delete id (MacroEngine.stopFlags e);
                  MacroEngine.flags :=
                    <[task_flag tk := true]> (MacroEngine.flags e);
                  MacroEngine.tasks :=
                    <[sid := {| task_macro := task_macro tk;
                                task_flag := task_flag tk;
                                task_at := Finished |}]>
                      (MacroEngine.tasks e);
                  MacroEngine.events :=
                    MacroEngine.events e ++ [LoopLeft sid; CleanedUp sid] |})
    as He2.
  { subst e2. rewrite He1. unfold MacroEngine.resume. simpl.
    rewrite list_lookup_insert_eq by exact Hsid. simpl.
    rewrite list_insert_insert_eq, <- app_assoc. reflexivity. }
  rewrite He1, He2. simpl.
  split; [reflexivity|]. split; [reflexivity|].
  split.
  { unfold MacroEngine.isMacroPlaying. simpl. apply bool_decide_eq_false_2.
    intros [_ Hout]%elem_of_difference. apply Hout, elem_of_singleton.
    reflexivity. }
  split; [apply lookup_delete_eq|].
  split; [rewrite list_lookup_insert_eq by exact Hsid; reflexivity|].
  intros fuel'. unfold MacroEngine.resume. simpl.
  rewrite list_lookup_insert_eq by exact Hsid. reflexivity.
Qed.

Lemma stopMacro_ends_session_witness :
  MacroEngine.events
    (MacroEngine.resume 1 0
       (MacroEngine.resume 1 0
          (MacroEngine.stopMacro "m1"
             (MacroEngine.playMacro 2 "m1" (engine_with pulse)))))
  = [Started 0; Began 0 wait100; LoopLeft 0; CleanedUp 0].
Proof.
  assert (0 < length (MacroEngine.flags
                        (MacroEngine.playMacro 2 "m1" (engine_with pulse))))%nat
    as Hbound by (vm_compute; lia).
  destruct (stopMacro_ends_session 0
              (MacroEngine.playMacro 2 "m1" (engine_with pulse)) 0
              {| task_macro := pulse; task_flag := 0;
                 task_at := AwaitingAction 0 [tapB] |} 0 [tapB]
              eq_refl eq_refl eq_refl Hbound)
    as (_ & H & _).
  exact H.
Defined.

Lemma stopMacro_fields (id : string) (e : MacroEngine.t) :
  MacroEngine.macros (MacroEngine.stopMacro id e) = MacroEngine.macros e
  /\ MacroEngine.activePlaybacks (MacroEngine.stopMacro id e)
     = MacroEngine.activePlaybacks e
  /\ MacroEngine.stopFlags (MacroEngine.stopMacro id e)
     = MacroEngine.stopFlags e
  /\ MacroEngine.tasks (MacroEngine.stopMacro id e) = MacroEngine.tasks e
  /\ MacroEngine.events (MacroEngine.stopMacro id e) = MacroEngine.events e
  /\ length (MacroEngine.flags (MacroEngine.stopMacro id e))
     = length (MacroEngine.flags e).
Proof.
  unfold MacroEngine.stopMacro.
  destruct (MacroEngine.stopFlags e !! id); simpl; rewrite ?length_insert;
    auto 10.
Qed.

(** A flag that is set stays set, whatever is stopped. *)
Lemma stopMacro_monotone (id : string) (e : MacroEngine.t) (a : nat) :
  MacroEngine.flags e !! a = Some true ->
  MacroEngine.flags (MacroEngine.stopMacro id e) !! a = Some true.
Proof.
  intros Ha. unfold MacroEngine.stopMacro.
  destruct (MacroEngine.stopFlags e !! id) as [b|]; [|exact Ha]. simpl.
  destruct (decide (b = a)) as [->|Hne].
  - rewrite list_lookup_insert_eq by (apply lookup_lt_Some in Ha; exact Ha).
    reflexivity.
  - rewrite list_lookup_insert_ne by exact Hne. exact Ha.
Qed.

(** X15. [stopAllMacros] sets the stop flag on record for every macro
    and changes nothing else: the catalogue, the records [activePlaybacks]
    and [stopFlags], the suspended calls and the flags that are not on
    record are as before.  [stopMacro] with an id that has no flag on
    record does nothing, and stopping twice is stopping once. *)
Theorem stopAllMacros_stops_all (e : MacroEngine.t) :
  (forall id a, MacroEngine.stopFlags e !! id = Some a ->
                (a < length (MacroEngine.flags e))%nat ->
                MacroEngine.flags (MacroEngine.stopAllMacros e) !! a
                = Some true)
  /\ (forall a, (forall id, MacroEngine.stopFlags e !! id <> Some a) ->
                MacroEngine.flags (MacroEngine.stopAllMacros e) !! a
                = MacroEngine.flags e !! a)
  /\ MacroEngine.macros (MacroEngine.stopAllMacros e) = MacroEngine.macros e
  /\ MacroEngine.activePlaybacks (MacroEngine.stopAllMacros e)
     = MacroEngine.activePlaybacks e
  /\ MacroEngine.stopFlags (MacroEngine.stopAllMacros e)
     = MacroEngine.stopFlags e
  /\ MacroEngine.tasks (MacroEngine.stopAllMacros e) = MacroEngine.tasks e
  /\ (forall id, MacroEngine.stopFlags e !! id = None ->
                 MacroEngine.stopMacro id e = e)
  /\ (forall id, MacroEngine.stopMacro id (MacroEngine.stopMacro id e)
                 = MacroEngine.stopMacro id e).
Proof.
  assert (forall m : gmap string nat,
            let r := map_fold (fun id _ e' => MacroEngine.stopMacro id e') e m in
            (MacroEngine.macros r = MacroEngine.macros e
             /\ MacroEngine.activePlaybacks r = MacroEngine.activePlaybacks e
             /\ MacroEngine.stopFlags r = MacroEngine.stopFlags e
             /\ MacroEngine.tasks r = MacroEngine.tasks e
             /\ length (MacroEngine.flags r) = length (MacroEngine.flags e))
            /\ (forall id x a, m !! id = Some x ->
                  MacroEngine.stopFlags e !! id = Some a ->
                  (a < length (MacroEngine.flags e))%nat ->
                  MacroEngine.flags r !! a = Some true)
            /\ (forall a, (forall id, MacroEngine.stopFlags e !! id <> Some a) ->
                  MacroEngine.flags r !! a = MacroEngine.flags e !! a)) as Hfold.
  { intros m.
    apply (map_fold_weak_ind
             (fun r (m : gmap string nat) =>
                (MacroEngine.macros r = MacroEngine.macros e
                 /\ MacroEngine.activePlaybacks r
                    = MacroEngine.activePlaybacks e
                 /\ MacroEngine.stopFlags r = MacroEngine.stopFlags e
                 /\ MacroEngine.tasks r = MacroEngine.tasks e
                 /\ length (MacroEngine.flags r)
                    = length (MacroEngine.flags e))
                /\ (forall id x a, m !! id = Some x ->
                      MacroEngine.stopFlags e !! id = Some a ->
                      (a < length (MacroEngine.flags e))%nat ->
                      MacroEngine.flags r !! a = Some true)
                /\ (forall a,
                      (forall id, MacroEngine.stopFlags e !! id <> Some a) ->
                      MacroEngine.flags r !! a = MacroEngine.flags e !! a))).
    - split; [auto 10|]. split; [|auto].
      intros id x a Hid. rewrite lookup_empty in Hid. discriminate.
    - intros i x m' r Hi ((Hm & Hact & Hsf & Htk & Hlen) & Hset & Hkeep).
      destruct (stopMacro_fields i r) as (Fm & Fa & Fs & Ft & _ & Fl).
      split; [repeat split; congruence|]. split.
      + intros id y a Hid Ha Hbound.
        destruct (decide (i = id)) as [->|Hne].
        * unfold MacroEngine.stopMacro. rewrite Hsf, Ha. simpl.
          apply list_lookup_insert_eq. lia.
        * rewrite lookup_insert_ne in Hid by exact Hne.
          apply stopMacro_monotone. apply (Hset id y a Hid Ha Hbound).
      + intros a Hnone. unfold MacroEngine.stopMacro. rewrite Hsf.
        destruct (MacroEngine.stopFlags e !! i) as [b|] eqn:Hb;
          [|apply Hkeep, Hnone].
        simpl. rewrite list_lookup_insert_ne; [apply Hkeep, Hnone|].
        intros <-. apply (Hnone i Hb). }
  destruct (Hfold (MacroEngine.stopFlags e))
    as ((Hm & Hact & Hsf & Htk & _) & Hset & Hkeep).
  unfold MacroEngine.stopAllMacros.
  split; [intros id a Ha; apply (Hset id a a Ha Ha)|].
  split; [exact Hkeep|].
  repeat (split; [assumption|]).
  split.
  - intros id Hnone. unfold MacroEngine.stopMacro. rewrite Hnone.
    reflexivity.
  - intros id. unfold MacroEngine.stopMacro at 2.
    destruct (MacroEngine.stopFlags e !! id) as [a|] eqn:Ha.
    + unfold MacroEngine.stopMacro. simpl. rewrite Ha.
      rewrite list_insert_insert_eq. reflexivity.
    + unfold MacroEngine.stopMacro. rewrite Ha. reflexivity.
Qed.

Lemma stopAllMacros_stops_all_witness :
  MacroEngine.flags
    (MacroEngine.stopAllMacros
       (MacroEngine.playMacro 2 "m1" (engine_with pulse))) !! 0%nat
  = Some true.
Proof.
  destruct (stopAllMacros_stops_all
              (MacroEngine.playMacro 2 "m1" (engine_with pulse))) as [H _].
  apply (H "m1"); [reflexivity | vm_compute; lia].
Defined.

(** X16. [deleteMacro] first tells the session on record for the macro
    to stop, then takes the macro out of the catalogue and leaves the other
    macros in place; afterwards [playMacro] and [deleteMacro] on that id do
    nothing.  With an id that is not in the catalogue, nothing changes. *)
Theorem deleteMacro_stops_then_removes (id : string) (e : MacroEngine.t) :
  MacroEngine.getMacro id (MacroEngine.deleteMacro id e) = None
  /\ (forall id', id' <> id ->
        MacroEngine.getMacro id' (MacroEngine.deleteMacro id e)
        = MacroEngine.getMacro id' e)
  /\ (forall macro a,
        MacroEngine.getMacro id e = Some macro ->
        MacroEngine.stopFlags e !! id = Some a ->
        (a < length (MacroEngine.flags e))%nat ->
        MacroEngine.flags (MacroEngine.deleteMacro id e) !! a = Some true)
  /\ (forall fuel,
        MacroEngine.playMacro fuel id (MacroEngine.deleteMacro id e)
        = MacroEngine.deleteMacro id e)
  /\ MacroEngine.deleteMacro id (MacroEngine.deleteMacro id e)
     = MacroEngine.deleteMacro id e
  /\ (MacroEngine.getMacro id e = None -> MacroEngine.deleteMacro id e = e).
Proof.
  assert (MacroEngine.getMacro id (MacroEngine.deleteMacro id e) = None)
    as Hgone.
  { unfold MacroEngine.getMacro, MacroEngine.deleteMacro, JsMap.has.
    destruct (JsMap.get id (MacroEngine.macros e)) eqn:Hget; simpl.
    - destruct (stopMacro_fields id e) as (-> & _). apply JsMap_get_delete.
    - exact Hget. }
  split; [exact Hgone|]. split; [|split; [|split; [|split]]].
  - intros id' Hne.
    unfold MacroEngine.getMacro, MacroEngine.deleteMacro, JsMap.has.
    destruct (JsMap.get id (MacroEngine.macros e)); simpl; [|reflexivity].
    destruct (stopMacro_fields id e) as (-> & _).
    apply JsMap_get_delete_ne. congruence.
  - intros macro a Hget Ha Hbound.
    unfold MacroEngine.getMacro in Hget.
    unfold MacroEngine.deleteMacro, JsMap.has. rewrite Hget. simpl.
    unfold MacroEngine.stopMacro. rewrite Ha. simpl.
    apply list_lookup_insert_eq. exact Hbound.
  - intros fuel. unfold MacroEngine.playMacro. rewrite Hgone. reflexivity.
  - unfold MacroEngine.deleteMacro at 1. unfold JsMap.has.
    unfold MacroEngine.getMacro in Hgone. rewrite Hgone. reflexivity.
  - intros Hnone. unfold MacroEngine.getMacro in Hnone.
    unfold MacroEngine.deleteMacro, JsMap.has. rewrite Hnone. reflexivity.
Qed.

Lemma deleteMacro_stops_then_removes_witness :
  MacroEngine.flags
    (MacroEngine.deleteMacro "m1"
       (MacroEngine.playMacro 2 "m1" (engine_with pulse))) !! 0%nat
  = Some true.
Proof.
  destruct (deleteMacro_stops_then_removes "m1"
              (MacroEngine.playMacro 2 "m1" (engine_with pulse)))
    as (_ & _ & H & _).
  apply (H pulse); [reflexivity | reflexivity | vm_compute; lia].
Defined.

(** X17. [playMacro] with an id that is not in the catalogue, or of a
    macro that is disabled, changes nothing.  For an enabled macro it puts a
    new, unset stop flag on record for the id, marks the id as playing and
    adds one call to the suspended calls, the earlier ones staying as they
    were. *)
Theorem playMacro_starts_or_ignores (fuel : nat) (id : string)
    (e : MacroEngine.t) :
  (MacroEngine.getMacro id e = None -> MacroEngine.playMacro fuel id e = e)
  /\ (forall macro,
        MacroEngine.getMacro id e = Some macro ->
        Macro.enabled macro = false ->
        MacroEngine.playMacro fuel id e = e)
  /\ (forall macro,
        MacroEngine.getMacro id e = Some macro ->
        Macro.enabled macro = true ->
        let e' := MacroEngine.playMacro fuel id e in
        MacroEngine.isMacroPlaying id e' = true
        /\ MacroEngine.stopFlags e' !! id
           = Some (length (MacroEngine.flags e))
        /\ MacroEngine.flags e' !! length (MacroEngine.flags e) = Some false
        /\ length (MacroEngine.tasks e') = S (length (MacroEngine.tasks e))
        /\ (task_macro <$> MacroEngine.tasks e' !! length (MacroEngine.tasks e))
           = Some macro
        /\ (forall old, (old < length (MacroEngine.tasks e))%nat ->
              MacroEngine.tasks e' !! old = MacroEngine.tasks e !! old)).
Proof.
  split; [|split].
  - intros Hnone. unfold MacroEngine.playMacro. rewrite Hnone. reflexivity.
  - intros macro Hget Hoff. unfold MacroEngine.playMacro.
    rewrite Hget, Hoff. reflexivity.
  - intros macro Hget Hon e'. subst e'. unfold MacroEngine.playMacro.
    rewrite Hget, Hon. simpl.
    set (e1 := if bool_decide (id ∈ MacroEngine.activePlaybacks e)
               then MacroEngine.stopMacro id e else e).
    assert (MacroEngine.tasks e1 = MacroEngine.tasks e
            /\ length (MacroEngine.flags e1) = length (MacroEngine.flags e))
      as [Htasks Hlen].
    { subst e1. destruct (bool_decide _); [|auto].
      destruct (stopMacro_fields id e) as (_ & _ & _ & Ht & _ & Hl). auto. }
    unfold MacroEngine.suspend, MacroEngine.isMacroPlaying.
    destruct (while_head fuel _ _ false 0); simpl;
      rewrite decide_True by reflexivity; simpl;
      rewrite Htasks, Hlen;
      (split; [apply bool_decide_eq_true_2, elem_of_union_l, elem_of_singleton;
               reflexivity|]);
      (split; [apply lookup_insert_eq|]);
      (split; [rewrite <- Hlen; apply list_lookup_middle; reflexivity|]);
      (split; [rewrite length_app; simpl; lia|]);
      (split; [rewrite lookup_app_r, Nat.sub_diag by lia; reflexivity|]);
      intros old Hold; apply lookup_app_l; exact Hold.
Qed.

Lemma playMacro_starts_or_ignores_witness :
  MacroEngine.playMacro 2 "m7" (engine_with pulse) = engine_with pulse
  /\ MacroEngine.isMacroPlaying "m1"
       (MacroEngine.playMacro 2 "m1" (engine_with pulse)) = true.
Proof.
  destruct (playMacro_starts_or_ignores 2 "m7" (engine_with pulse))
    as (H1 & _).
  destruct (playMacro_starts_or_ignores 2 "m1" (engine_with pulse))
    as (_ & _ & H3).
  split; [apply H1; reflexivity|].
  destruct (H3 pulse eq_refl eq_refl) as (H & _). exact H.
Defined.

(** ** Catalogues and their keys *)

Lemma JsMap_get_None {V : Type} (k : string) (m : JsMap.t V) :
  JsMap.get k m = None <-> ~ In k (JsMap.keys m).
Proof.
  induction m as [|[k' v'] m IH]; simpl; [tauto|].
  destruct (String.eqb_spec k k') as [->|Hne].
  - split; [discriminate | intros H; exfalso; apply H; left; reflexivity].
  - rewrite IH. split; [intros H [Heq|Hin]; [congruence | auto] | tauto].
Qed.

Lemma JsMap_get_In {V : Type} (k : string) (v : V) (m : JsMap.t V) :
  JsMap.get k m = Some v -> In (k, v) m.
Proof.
  induction m as [|[k' v'] m IH]; simpl; [discriminate|].
  destruct (String.eqb_spec k k') as [->|Hne].
  - intros [= ->]. left. reflexivity.
  - intros Hget. right. apply IH, Hget.
Qed.

Lemma JsMap_set_In {V : Type} (k k' : string) (v v' : V) (m : JsMap.t V) :
  In (k', v') (JsMap.set k v m) -> (k', v') = (k, v) \/ In (k', v') m.
Proof.
  induction m as [|[k0 v0] m IH]; simpl.
  - intros [Heq|[]]. left. congruence.
  - destruct (String.eqb k k0); simpl.
    + intros [Heq|Hin]; [left; congruence | right; right; exact Hin].
    + intros [Heq|Hin]; [right; left; exact Heq|].
      destruct (IH Hin); [left | right; right]; assumption.
Qed.

Lemma JsMap_keys_set {V : Type} (k : string) (v : V) (m : JsMap.t V) :
  JsMap.keys (JsMap.set k v m)
  = if JsMap.has k m then JsMap.keys m else JsMap.keys m ++ [k].
Proof.
  unfold JsMap.has, JsMap.keys.
  induction m as [|[k0 v0] m IH]; simpl; [reflexivity|].
  destruct (String.eqb_spec k k0) as [->|Hne]; simpl; [reflexivity|].
  rewrite IH. destruct (JsMap.get k m); reflexivity.
Qed.

Lemma JsMap_set_keyed {V : Type} (key_of : V -> string) (v : V)
    (m : JsMap.t V) :
  keyed key_of m -> keyed key_of (JsMap.set (key_of v) v m).
Proof.
  intros [Hnd Hkey]. split.
  - rewrite JsMap_keys_set. unfold JsMap.has.
    destruct (JsMap.get (key_of v) m) eqn:Hget; [exact Hnd|].
    apply NoDup_app. split; [exact Hnd|]. split; [|apply NoDup_singleton].
    intros k Hk Hk'. apply list_elem_of_singleton in Hk' as ->.
    apply JsMap_get_None in Hget. apply Hget, list_elem_of_In, Hk.
  - intros k' v' Hin.
    destruct (JsMap_set_In _ _ _ _ _ Hin) as [[= -> ->]|Hin'];
      [reflexivity | apply Hkey, Hin'].
Qed.

Lemma JsMap_delete_keyed {V : Type} (key_of : V -> string) (k : string)
    (m : JsMap.t V) :
  keyed key_of m -> keyed key_of (JsMap.delete k m).
Proof.
  intros [Hnd Hkey]. split.
  - assert (JsMap.keys (JsMap.delete k m) `sublist_of` JsMap.keys m) as Hsub
      by (unfold JsMap.keys; apply (fmap_sublist fst), JsMap_delete_sublist).
    eapply sublist_NoDup; eassumption.
  - intros k' v' Hin. apply Hkey.
    apply list_elem_of_In.
    apply (elem_of_sublist (JsMap.delete k m)); [|apply JsMap_delete_sublist].
    apply list_elem_of_In, Hin.
Qed.

Lemma fold_set_keyed {V : Type} (key_of : V -> string) (l : list V) :
  forall m, keyed key_of m ->
    keyed key_of (fold_left (fun m v => JsMap.set (key_of v) v m) l m).
Proof.
  induction l as [|v l IH]; intros m Hm; [exact Hm|].
  simpl. apply IH, JsMap_set_keyed, Hm.
Qed.

Lemma keyed_empty {V : Type} (key_of : V -> string) :
  keyed key_of (@JsMap.empty V).
Proof. split; [apply NoDup_nil_2 | intros k v []]. Qed.

(** X18. Both catalogues are keyed by the identifiers of their entries,
    with no key twice: this holds of a new engine and of what [fromJSON]
    builds from any data, whatever keys the data uses, and it is kept by
    creating and by deleting an entry.  So a macro or trigger looked up by
    an id has that id. *)
Theorem catalogues_keyed_by_id :
  keyed Macro.macroId (MacroEngine.macros MacroEngine.new)
  /\ keyed Trigger.triggerId (TriggerEngine.triggers TriggerEngine.new)
  /\ (forall now data e h,
        keyed Macro.macroId
          (MacroEngine.macros (fst (MacroEngine.fromJSON now data e h))))
  /\ (forall data e h,
        keyed Trigger.triggerId
          (TriggerEngine.triggers (fst (TriggerEngine.fromJSON data e h))))
  /\ (forall e, keyed Macro.macroId (MacroEngine.macros e) ->
        (forall now name h,
           keyed Macro.macroId
             (MacroEngine.macros
                (snd (fst (MacroEngine.createMacro now name e h)))))
        /\ (forall id,
              keyed Macro.macroId
                (MacroEngine.macros (MacroEngine.deleteMacro id e)))
        /\ (forall id macro, MacroEngine.getMacro id e = Some macro ->
                             Macro.macroId macro = id))
  /\ (forall e, keyed Trigger.triggerId (TriggerEngine.triggers e) ->
        (forall ty macro dev name h,
           keyed Trigger.triggerId
             (TriggerEngine.triggers
                (snd (fst (TriggerEngine.createTrigger ty macro dev name e h)))))
        /\ (forall id,
              keyed Trigger.triggerId
                (TriggerEngine.triggers (TriggerEngine.deleteTrigger id e)))
        /\ (forall id tr, TriggerEngine.getTrigger id e = Some tr ->
                          Trigger.triggerId tr = id)).
Proof.
  split; [apply keyed_empty|]. split; [apply keyed_empty|].
  split; [|split; [|split]].
  - intros now data e h. unfold MacroEngine.fromJSON, bind, ret.
    destruct (mapM _ _ h) as [loaded h']. simpl.
    apply fold_set_keyed, keyed_empty.
  - intros data e h. unfold TriggerEngine.fromJSON, bind, ret.
    destruct (mapM _ _ h) as [loaded h']. simpl.
    apply fold_set_keyed, keyed_empty.
  - intros e Hkeyed. split; [|split].
    + intros now name h.
      unfold MacroEngine.createMacro, Macro.new, bind, uuidv4, ret. simpl.
      apply (JsMap_set_keyed Macro.macroId
               {| Macro.macroId := uuids h (issued h);
                  Macro.name := or_undefined name "New Macro";
                  Macro.actions := []; Macro.repeatCount := 1;
                  Macro.enabled := true; Macro.description := "";
                  Macro.createdAt := now; Macro.modifiedAt := now |}).
      exact Hkeyed.
    + intros id. unfold MacroEngine.deleteMacro.
      destruct (JsMap.has id (MacroEngine.macros e)); [|exact Hkeyed]. simpl.
      destruct (stopMacro_fields id e) as (-> & _).
      apply JsMap_delete_keyed, Hkeyed.
    + intros id macro Hget. destruct Hkeyed as [_ Hkey]. symmetry.
      apply Hkey, JsMap_get_In, Hget.
  - intros e Hkeyed. split; [|split].
    + intros ty macro dev name h.
      unfold TriggerEngine.createTrigger, Trigger.new, bind, uuidv4, ret.
      simpl.
      apply (JsMap_set_keyed Trigger.triggerId
               {| Trigger.triggerId := uuids h (issued h);
                  Trigger.triggerType := ty; Trigger.macroId := macro;
                  Trigger.deviceId := dev;
                  Trigger.inputName := or_undefined name "";
                  Trigger.modifiers := []; Trigger.axisThreshold := 0.5;
                  Trigger.holdDuration := 500; Trigger.doubleTapWindow := 300;
                  Trigger.enabled := true |}).
      exact Hkeyed.
    + intros id. unfold TriggerEngine.deleteTrigger.
      destruct (JsMap.has id (TriggerEngine.triggers e)); [|exact Hkeyed].
      simpl. apply JsMap_delete_keyed, Hkeyed.
    + intros id tr Hget. destruct Hkeyed as [_ Hkey]. symmetry.
      apply Hkey, JsMap_get_In, Hget.
Qed.

Lemma catalogues_keyed_by_id_witness :
  keyed Macro.macroId
    (MacroEngine.macros (MacroEngine.deleteMacro "m1" (engine_with pulse))).
Proof.
  destruct catalogues_keyed_by_id as (_ & _ & _ & _ & H & _).
  destruct (H (engine_with pulse)) as (_ & Hdel & _); [|apply Hdel].
  apply (JsMap_set_keyed Macro.macroId pulse), keyed_empty.
Defined.

(** ** Saving and loading a catalogue *)







(** Identifiers that are array indices come back in ascending order, and
    an entry with the identifier ["__proto__"] is not saved. *)
Example catalogue_roundtrip_reordered :
  let two := sample_macro "2" [tapA] 1 in
  let one := sample_macro "1" [tapB] 1 in
  let proto := sample_macro "__proto__" [tapA] 1 in
  let e := MacroEngine.set_macros
             [("2", two); ("__proto__", proto); ("1", one)]
             MacroEngine.new in
  JsMap.keys (JsObject.entries (MacroEngine.toJSON e)) = ["1"; "2"]
  /\ MacroEngine.macros
       (fst (MacroEngine.fromJSON 2000 (MacroEngine.toJSON e)
               MacroEngine.new some_host))
     = [("1", one); ("2", two)].
Proof. split; reflexivity. Qed.

(** ** Joystick polling *)

Lemma activating_nil (e : TriggerEngine.t) : activating [] e = e.
Proof. destruct e. unfold activating. simpl. rewrite app_nil_r. reflexivity. Qed.

Lemma activating_app (a b : list Trigger.t) (e : TriggerEngine.t) :
  activating b (activating a e) = activating (a ++ b) e.
Proof. unfold activating. simpl. rewrite app_assoc. reflexivity. Qed.

Lemma fold_axis_check (deviceId : string) (j : nat) (v : Q)
    (l : list Trigger.t) :
  forall e0 : TriggerEngine.t,
    fold_left
      (fun e' trigger =>
         if negb (Trigger.enabled trigger) then e'
         else match Trigger.triggerType trigger with
              | JOYSTICK_AXIS =>
                  if TriggerEngine.on_device deviceId trigger
                     && includes ("Axis " +:+ decimal j)
                                 (Trigger.inputName trigger)
                  then
                    if Qle_bool (Trigger.axisThreshold trigger) (Qabs v)
                    then TriggerEngine._activateTrigger trigger e' else e'
                  else e'
              | _ => e'
              end) l e0
    = activating (List.filter (axis_fires deviceId j v) l) e0.
Proof.
  induction l as [|tr l IH]; intros e0; simpl;
    [symmetry; apply activating_nil|].
  rewrite IH. unfold axis_fires.
  destruct (Trigger.enabled tr); simpl; [|reflexivity].
  destruct (Trigger.triggerType tr); simpl; try reflexivity.
  destruct (TriggerEngine.on_device deviceId tr); simpl; [|reflexivity].
  destruct (includes _ _); simpl; [|reflexivity].
  destruct (Qle_bool _ _); simpl; [|reflexivity].
  apply (activating_app [tr]).
Qed.

Lemma fold_button_check (deviceId : string) (j : nat) (l : list Trigger.t) :
  forall e0 : TriggerEngine.t,
    fold_left
      (fun e' trigger =>
         if negb (Trigger.enabled trigger) then e'
         else match Trigger.triggerType trigger with
              | JOYSTICK_BUTTON =>
                  if TriggerEngine.on_device deviceId trigger
                     && String.eqb (Trigger.inputName trigger)
                                   ("Button " +:+ decimal j)
                  then TriggerEngine._activateTrigger trigger e' else e'
              | _ => e'
              end) l e0
    = activating (List.filter (button_fires deviceId j) l) e0.
Proof.
  induction l as [|tr l IH]; intros e0; simpl;
    [symmetry; apply activating_nil|].
  rewrite IH. unfold button_fires.
  destruct (Trigger.enabled tr); simpl; [|reflexivity].
  destruct (Trigger.triggerType tr); simpl; try reflexivity.
  destruct (TriggerEngine.on_device deviceId tr); simpl; [|reflexivity].
  destruct (String.eqb _ _); simpl; [|reflexivity].
  apply (activating_app [tr]).
Qed.

Lemma _checkJoystickAxisTriggers_activating (deviceId : string) (j : nat)
    (v : Q) (e : TriggerEngine.t) :
  TriggerEngine._checkJoystickAxisTriggers deviceId j v e
  = activating (List.filter (axis_fires deviceId j v)
                            (JsMap.values (TriggerEngine.triggers e))) e.
Proof. apply fold_axis_check. Qed.

Lemma _checkJoystickButtonTriggers_activating (deviceId : string) (j : nat)
    (e : TriggerEngine.t) :
  TriggerEngine._checkJoystickButtonTriggers deviceId j e
  = activating (List.filter (button_fires deviceId j)
                            (JsMap.values (TriggerEngine.triggers e))) e.
Proof. apply fold_button_check. Qed.

(** A loop whose every turn activates triggers, chosen without regard to
    the activations so far. *)
Lemma for_each_activating {A : Type}
    (f : nat -> A -> TriggerEngine.t -> TriggerEngine.t)
    (g : nat -> A -> list Trigger.t) (e : TriggerEngine.t) :
  (forall k x new, f k x (activating new e) = activating (new ++ g k x) e) ->
  forall (l : list A) (i : nat) (new : list Trigger.t),
    for_each f i l (activating new e)
    = activating (new ++ concat (imap (fun k => g (i + k)%nat) l)) e.
Proof.
  intros Hf l. induction l as [|x l IH]; intros i new; simpl.
  - rewrite app_nil_r. reflexivity.
  - rewrite Hf, IH, <- app_assoc, Nat.add_0_r.
    f_equal. f_equal. f_equal. f_equal.
    apply imap_ext. intros k z _. simpl. f_equal. lia.
Qed.

Lemma poll_gamepad_activating (shouldProcess : string -> bool) (i : nat)
    (slot : option Gamepad) (e : TriggerEngine.t) (new : list Trigger.t) :
  TriggerEngine.poll_gamepad shouldProcess i slot (activating new e)
  = activating
      (new ++ match slot with
              | Some pad =>
                  if shouldProcess ("joystick_" +:+ decimal i)
                  then pad_activations i pad
                         (JsMap.values (TriggerEngine.triggers e))
                  else []
              | None => []
              end) e.
Proof.
  unfold TriggerEngine.poll_gamepad.
  destruct slot as [pad|]; [|rewrite app_nil_r; reflexivity].
  destruct (shouldProcess ("joystick_" +:+ decimal i)); simpl;
    [|rewrite app_nil_r; reflexivity].
  rewrite (for_each_activating _
             (fun j (pressed : bool) =>
                if pressed
                then List.filter (button_fires ("joystick_" +:+ decimal i) j)
                                 (JsMap.values (TriggerEngine.triggers e))
                else []) e).
  - rewrite (for_each_activating _
               (fun j v =>
                  List.filter (axis_fires ("joystick_" +:+ decimal i) j v)
                              (JsMap.values (TriggerEngine.triggers e))) e).
    + unfold pad_activations. simpl. rewrite <- app_assoc. reflexivity.
    + intros k v new'. rewrite _checkJoystickAxisTriggers_activating.
      simpl. apply activating_app.
  - intros k pressed new'. destruct pressed; [|rewrite app_nil_r; reflexivity].
    rewrite _checkJoystickButtonTriggers_activating. simpl.
    apply activating_app.
Qed.

Lemma includes_prefix (sub s : string) :
  String.prefix sub s = true -> includes sub s = true.
Proof. intros H. destruct s; cbn [includes]; rewrite H; reflexivity. Qed.

Lemma prefix_append (sub post : string) :
  String.prefix sub (sub +:+ post) = true.
Proof.
  induction sub as [|c sub IH]; simpl; [destruct post; reflexivity|].
  destruct (ascii_dec c c); [exact IH | congruence].
Qed.

Lemma includes_middle (pre sub post : string) :
  includes sub (pre +:+ (sub +:+ post)) = true.
Proof.
  induction pre as [|c pre IH].
  - change ("" +:+ (sub +:+ post)) with (sub +:+ post).
    apply includes_prefix. apply (prefix_append sub post).
  - change (String c pre +:+ (sub +:+ post))
      with (String c (pre +:+ (sub +:+ post))).
    cbn [includes]. rewrite IH. apply orb_true_r.
Qed.

(** X20. Axis triggers are level-triggered.  Each sample of an axis
    activates, in registration order, every enabled axis trigger of that
    device whose input name contains ["Axis j"] and whose threshold is at
    most the absolute value of the sample, whatever the samples before
    were; so over a stream of samples a trigger fires once for each sample
    at or past its threshold, of either sign.  Nothing else in the engine
    changes.  The name is matched as a substring. *)
Theorem axis_samples_level_triggered (deviceId : string) (j : nat)
    (samples : list Q) (e : TriggerEngine.t) :
  fold_left (fun e' v =>
               TriggerEngine._checkJoystickAxisTriggers deviceId j v e')
            samples e
  = activating
      (concat (map (fun v =>
                      List.filter (axis_fires deviceId j v)
                                  (JsMap.values (TriggerEngine.triggers e)))
                   samples)) e
  /\ (forall tr v,
        axis_fires deviceId j (- v) tr = axis_fires deviceId j v tr)
  /\ (forall tr v pre post,
        Trigger.enabled tr = true ->
        Trigger.triggerType tr = JOYSTICK_AXIS ->
        Trigger.deviceId tr = Some deviceId ->
        Trigger.inputName tr = pre +:+ (("Axis " +:+ decimal j) +:+ post) ->
        (axis_fires deviceId j v tr = true
         <-> (Trigger.axisThreshold tr <= Qabs v)%Q)).
Proof.
  split; [|split].
  - assert (forall new,
              fold_left (fun e' v =>
                           TriggerEngine._checkJoystickAxisTriggers
                             deviceId j v e')
                        samples (activating new e)
              = activating
                  (new ++ concat
                     (map (fun v =>
                             List.filter (axis_fires deviceId j v)
                               (JsMap.values (TriggerEngine.triggers e)))
                          samples)) e) as Hgen.
    { induction samples as [|v samples IH]; intros new; simpl.
      - rewrite app_nil_r. reflexivity.
      - rewrite _checkJoystickAxisTriggers_activating. simpl.
        rewrite activating_app, IH, <- app_assoc. reflexivity. }
    rewrite <- (activating_nil e) at 1. apply Hgen.
  - intros tr v. unfold axis_fires. f_equal.
    unfold Qle_bool. destruct v as [[|p|p] d]; reflexivity.
  - intros tr v pre post Hen Hty Hdev Hname. unfold axis_fires.
    unfold TriggerEngine.on_device.
    rewrite Hen, Hty, Hdev, String.eqb_refl, Hname, includes_middle. simpl.
    apply Qle_bool_iff.
Qed.

Lemma axis_samples_level_triggered_witness :
  axis_fires "joystick_0" 0 (-0.5) (axis_trigger "Axis 0" 0.5) = true.
Proof.
  destruct (axis_samples_level_triggered "joystick_0" 0 [] TriggerEngine.new)
    as (_ & _ & H).
  apply (H (axis_trigger "Axis 0" 0.5) (-0.5)%Q "" ""); try reflexivity.
  vm_compute. discriminate.
Defined.

(** The stream of the specification: two of the four samples are at or
    past 0.5, and the trigger fires twice. *)
Example axis_stream :
  TriggerEngine.activated
    (fold_left (fun e' v =>
                  TriggerEngine._checkJoystickAxisTriggers "joystick_0" 0 v e')
               [0.2; 0.6; 0.7; 0.3]%Q
               (listening [axis_trigger "Axis 0" 0.5]))
  = [axis_trigger "Axis 0" 0.5; axis_trigger "Axis 0" 0.5].
Proof. reflexivity. Qed.

(** A trigger named for axis 10 also answers to the samples of axis 1. *)
Example axis_name_substring :
  TriggerEngine.activated
    (TriggerEngine._checkJoystickAxisTriggers "joystick_0" 1 1
       (listening [axis_trigger "Axis 10" 0.5]))
  = [axis_trigger "Axis 10" 0.5].
Proof. reflexivity. Qed.

Lemma In_concat_imap {A B : Type} (f : nat -> A -> list B) (l : list A)
    (b : B) :
  In b (concat (imap f l)) <-> exists i a, l !! i = Some a /\ In b (f i a).
Proof.
  rewrite in_concat. split.
  - intros (y & Hy & Hb). apply list_elem_of_In in Hy.
    apply elem_of_lookup_imap in Hy as (i & a & -> & Hl). eauto.
  - intros (i & a & Hl & Hb). exists (f i a). split; [|exact Hb].
    apply list_elem_of_In, elem_of_lookup_imap. eauto.
Qed.

Lemma In_pad_activations (i : nat) (pad : Gamepad) (trs : list Trigger.t)
    (tr : Trigger.t) :
  In tr (pad_activations i pad trs)
  <-> In tr trs
      /\ ((exists j, buttons pad !! j = Some true
                     /\ button_fires ("joystick_" +:+ decimal i) j tr = true)
          \/ (exists j v, axes pad !! j = Some v
                          /\ axis_fires ("joystick_" +:+ decimal i) j v tr
                             = true)).
Proof.
  unfold pad_activations. cbv zeta. rewrite in_app_iff, !In_concat_imap.
  split.
  - intros [(j & pressed & Hj & Hin) | (j & v & Hj & Hin)].
    + destruct pressed; [|destruct Hin].
      apply filter_In in Hin as [Hin Hf]. eauto 6.
    + apply filter_In in Hin as [Hin Hf]. eauto 7.
  - intros [Hin [(j & Hj & Hf) | (j & v & Hj & Hf)]].
    + left. exists j, true. split; [exact Hj|]. apply filter_In. auto.
    + right. exists j, v. split; [exact Hj|]. apply filter_In. auto.
Qed.

Lemma In_poll_activations (shouldProcess : string -> bool)
    (gamepads : list (option Gamepad)) (trs : list Trigger.t)
    (tr : Trigger.t) :
  In tr (poll_activations shouldProcess gamepads trs)
  <-> In tr trs
      /\ exists i pad,
           gamepads !! i = Some (Some pad)
           /\ shouldProcess ("joystick_" +:+ decimal i) = true
           /\ ((exists j,
                  buttons pad !! j = Some true
                  /\ button_fires ("joystick_" +:+ decimal i) j tr = true)
               \/ (exists j v,
                     axes pad !! j = Some v
                     /\ axis_fires ("joystick_" +:+ decimal i) j v tr
                        = true)).
Proof.
  unfold poll_activations. rewrite In_concat_imap. split.
  - intros (i & slot & Hi & Hin). destruct slot as [pad|]; [|destruct Hin].
    destruct (shouldProcess ("joystick_" +:+ decimal i)) eqn:Hsp;
      [|destruct Hin].
    apply In_pad_activations in Hin as [Hin Hfire]. eauto 8.
  - intros (Hin & i & pad & Hi & Hsp & Hfire).
    exists i, (Some pad). split; [exact Hi|]. rewrite Hsp.
    apply In_pad_activations. auto.
Qed.

(** What a joystick sample can fire at all. *)
Lemma joystick_fires_only (deviceId : string) (j : nat) (v : Q)
    (tr : Trigger.t) :
  button_fires deviceId j tr = true \/ axis_fires deviceId j v tr = true ->
  Trigger.enabled tr = true
  /\ Trigger.deviceId tr = Some deviceId
  /\ (Trigger.triggerType tr = JOYSTICK_BUTTON
      \/ Trigger.triggerType tr = JOYSTICK_AXIS).
Proof.
  unfold button_fires, axis_fires, TriggerEngine.on_device.
  destruct (Trigger.enabled tr); simpl; [|intros [H|H]; discriminate].
  destruct (Trigger.deviceId tr) as [d|];
    [|destruct (Trigger.triggerType tr); simpl; intros [H|H]; discriminate].
  destruct (String.eqb_spec d deviceId) as [->|Hne];
    [|destruct (Trigger.triggerType tr); simpl; intros [H|H]; discriminate].
  destruct (Trigger.triggerType tr); simpl; intros [H|H];
    try discriminate; auto.
Qed.

(** X21. One poll of the gamepads.  While the engine is not monitoring a
    poll does nothing.  While it is, a poll changes nothing but the
    activations, and it activates, slot by slot, for each gamepad that is
    there and whose device ["joystick_i"] is to be processed: for each
    pressed button in turn the enabled button triggers of that device
    named ["Button j"], then for each axis in turn the enabled axis
    triggers of that device whose sample is at or past their threshold;
    each in registration order.  So a trigger is activated by a poll
    exactly if it is registered and some pressed button or some axis of a
    processed gamepad fires it, and then it is an enabled joystick trigger
    of that gamepad's device: a key trigger, a disabled trigger, and a
    trigger of an empty slot or of a device that is not to be processed
    is never activated by a poll.  Nothing is remembered between polls,
    so a button held over several polls activates its trigger at every
    one of them. *)
Theorem poll_activates_joystick_triggers (shouldProcess : string -> bool)
    (gamepads : list (option Gamepad)) (e : TriggerEngine.t) :
  (TriggerEngine.monitoring e = false ->
   TriggerEngine._pollGamepads shouldProcess gamepads e = e)
  /\ (TriggerEngine.monitoring e = true ->
      TriggerEngine._pollGamepads shouldProcess gamepads e
      = activating
          (poll_activations shouldProcess gamepads
             (JsMap.values (TriggerEngine.triggers e))) e)
  /\ (forall tr,
        In tr (poll_activations shouldProcess gamepads
                 (JsMap.values (TriggerEngine.triggers e)))
        <-> In tr (JsMap.values (TriggerEngine.triggers e))
            /\ exists i pad,
                 gamepads !! i = Some (Some pad)
                 /\ shouldProcess ("joystick_" +:+ decimal i) = true
                 /\ ((exists j,
                        buttons pad !! j = Some true
                        /\ button_fires ("joystick_" +:+ decimal i) j tr
                           = true)
                     \/ (exists j v,
                           axes pad !! j = Some v
                           /\ axis_fires ("joystick_" +:+ decimal i) j v tr
                              = true)))
  /\ (forall deviceId j v tr,
        button_fires deviceId j tr = true \/ axis_fires deviceId j v tr = true ->
        Trigger.enabled tr = true
        /\ Trigger.deviceId tr = Some deviceId
        /\ (Trigger.triggerType tr = JOYSTICK_BUTTON
            \/ Trigger.triggerType tr = JOYSTICK_AXIS)).
Proof.
  split; [|split; [|split]].
  - intros Hmon. unfold TriggerEngine._pollGamepads. rewrite Hmon.
    reflexivity.
  - intros Hmon. unfold TriggerEngine._pollGamepads. rewrite Hmon. simpl.
    rewrite <- (activating_nil e) at 1.
    rewrite (for_each_activating _
               (fun i slot =>
                  match slot with
                  | Some pad =>
                      if shouldProcess ("joystick_" +:+ decimal i)
                      then pad_activations i pad
                             (JsMap.values (TriggerEngine.triggers e))
                      else []
                  | None => []
                  end) e).
    + reflexivity.
    + intros k slot new. apply poll_gamepad_activating.
  - intros tr. apply In_poll_activations.
  - apply joystick_fires_only.
Qed.

Lemma poll_activates_joystick_triggers_witness :
  TriggerEngine._pollGamepads every_device
    [Some {| pad_id := "pad"; buttons := [false; true]; axes := [0.7%Q] |}]
    (listening [button_trigger "Button 1"; axis_trigger "Axis 0" 0.5])
  = activating [button_trigger "Button 1"; axis_trigger "Axis 0" 0.5]
      (listening [button_trigger "Button 1"; axis_trigger "Axis 0" 0.5]).
Proof.
  rewrite (proj1 (proj2 (poll_activates_joystick_triggers every_device
             [Some {| pad_id := "pad"; buttons := [false; true];
                      axes := [0.7%Q] |}]
             (listening [button_trigger "Button 1";
                         axis_trigger "Axis 0" 0.5]))) eq_refl).
  reflexivity.
Defined.

(** A button held over two polls activates its trigger twice. *)
Example button_held_over_two_polls :
  let pads := [Some {| pad_id := "pad"; buttons := [true]; axes := [] |}] in
  TriggerEngine.activated
    (TriggerEngine._pollGamepads every_device pads
       (TriggerEngine._pollGamepads every_device pads
          (listening [button_trigger "Button 0"])))
  = [button_trigger "Button 0"; button_trigger "Button 0"].
Proof. reflexivity. Qed.

(** ** The device manager *)

Lemma split_digits (d : Decimal.uint) :
  split "_" (NilEmpty.string_of_uint d) = [NilEmpty.string_of_uint d].
Proof.
  induction d; cbn [NilEmpty.string_of_uint split]; [reflexivity|..];
    rewrite IHd; reflexivity.
Qed.

Lemma split_deviceId (i : nat) :
  split "_" ("joystick_" +:+ decimal i) !! 1%nat = Some (decimal i).
Proof.
  unfold decimal. simpl.
  change ("" +:+ NilEmpty.string_of_uint (Nat.to_uint i))
    with (NilEmpty.string_of_uint (Nat.to_uint i)).
  rewrite split_digits. reflexivity.
Qed.

Lemma to_uint_not_Nil (i : nat) : Nat.to_uint i <> Decimal.Nil.
Proof.
  intros H. pose proof (Unsigned.of_to i) as Hi. rewrite H in Hi.
  simpl in Hi. subst i. discriminate H.
Qed.

Lemma parse_digits_uint (d : Decimal.uint) :
  forall (o : option Z) (a : nat),
    d <> Decimal.Nil -> default 0 o = Z.of_nat a ->
    parse_digits 10 o (NilEmpty.string_of_uint d)
    = Some (Z.of_nat (Nat.of_uint_acc d a)).
Proof.
  assert (forall (d' : Decimal.uint) (k : nat) (o : option Z) (a : nat),
            (forall o' a', d' <> Decimal.Nil -> default 0 o' = Z.of_nat a' ->
                           parse_digits 10 o' (NilEmpty.string_of_uint d')
                           = Some (Z.of_nat (Nat.of_uint_acc d' a'))) ->
            default 0 o = Z.of_nat a ->
            parse_digits 10 (Some (default 0 o * 10 + Z.of_nat k))
                         (NilEmpty.string_of_uint d')
            = Some (Z.of_nat (Nat.of_uint_acc d' (k + Nat.tail_mul 10 a))))
    as Hstep.
  { intros d' k o a IH Ho.
    assert (default 0 o * 10 + Z.of_nat k
            = Z.of_nat (k + Nat.tail_mul 10 a)) as Hacc
        by (rewrite Nat.tail_mul_spec, Ho; lia).
    destruct (Decimal.uint_eq_dec d' Decimal.Nil) as [->|Hne].
    - simpl. rewrite Hacc. reflexivity.
    - apply IH; [exact Hne | exact Hacc]. }
  induction d as [|d IH|d IH|d IH|d IH|d IH|d IH|d IH|d IH|d IH|d IH];
    intros o a Hne Ho; [congruence|..].
  - exact (Hstep d 0%nat o a IH Ho).
  - exact (Hstep d 1%nat o a IH Ho).
  - exact (Hstep d 2%nat o a IH Ho).
  - exact (Hstep d 3%nat o a IH Ho).
  - exact (Hstep d 4%nat o a IH Ho).
  - exact (Hstep d 5%nat o a IH Ho).
  - exact (Hstep d 6%nat o a IH Ho).
  - exact (Hstep d 7%nat o a IH Ho).
  - exact (Hstep d 8%nat o a IH Ho).
  - exact (Hstep d 9%nat o a IH Ho).
Qed.

Lemma parseInt_uint (d : Decimal.uint) :
  parseInt (Some (NilEmpty.string_of_uint d))
  = parse_digits 10 None (NilEmpty.string_of_uint d).
Proof. destruct d as [|d|d|d|d|d|d|d|d|d|d]; try reflexivity; destruct d; reflexivity. Qed.

(** [parseInt] reads a decimal numeral back. *)
Lemma parseInt_decimal (i : nat) : parseInt (Some (decimal i)) = Some (Z.of_nat i).
Proof.
  unfold decimal. rewrite parseInt_uint.
  rewrite (parse_digits_uint _ None 0%nat (to_uint_not_Nil i) eq_refl).
  change (Nat.of_uint_acc (Nat.to_uint i) 0) with (Nat.of_uint (Nat.to_uint i)).
  rewrite Unsigned.of_to. reflexivity.
Qed.

Lemma decimal_inj (i k : nat) : decimal i = decimal k -> i = k.
Proof.
  unfold decimal. intros H. apply Unsigned.to_uint_inj.
  apply (f_equal NilEmpty.uint_of_string) in H.
  rewrite !NilEmpty.usu in H. congruence.
Qed.

Lemma deviceId_inj (i k : nat) :
  "joystick_" +:+ decimal i = "joystick_" +:+ decimal k -> i = k.
Proof. simpl. intros [= H]. apply decimal_inj, H. Qed.

Lemma scan_gamepad_other (id : string) (l : list (option Gamepad)) :
  forall (i0 : nat) (m : DeviceManager.t),
    (forall k pad, l !! k = Some (Some pad) ->
                   id <> "joystick_" +:+ decimal (i0 + k)) ->
    DeviceManager.getDeviceById id (for_each DeviceManager.scan_gamepad i0 l m)
    = DeviceManager.getDeviceById id m
    /\ DeviceManager.enabledDevices
         (for_each DeviceManager.scan_gamepad i0 l m) !! id
       = DeviceManager.enabledDevices m !! id.
Proof.
  induction l as [|slot l IH]; intros i0 m Hid; simpl; [auto|].
  destruct (IH (S i0) (DeviceManager.scan_gamepad i0 slot m)) as [Hd He].
  { intros k pad Hk. replace (S i0 + k)%nat with (i0 + S k)%nat by lia.
    apply (Hid (S k) pad Hk). }
  rewrite Hd, He. destruct slot as [pad|]; [|auto].
  pose proof (Hid O pad eq_refl) as Hne. rewrite Nat.add_0_r in Hne.
  unfold DeviceManager.getDeviceById. simpl. split.
  - apply JsMap_get_set_ne. congruence.
  - apply lookup_insert_ne. congruence.
Qed.

Lemma scan_gamepad_found (l : list (option Gamepad)) :
  forall (i0 : nat) (m : DeviceManager.t) (k : nat) (pad : Gamepad),
    l !! k = Some (Some pad) ->
    DeviceManager.getDeviceById ("joystick_" +:+ decimal (i0 + k))
      (for_each DeviceManager.scan_gamepad i0 l m)
    = Some (DeviceManager.joystick (i0 + k) pad)
    /\ DeviceManager.enabledDevices
         (for_each DeviceManager.scan_gamepad i0 l m)
       !! ("joystick_" +:+ decimal (i0 + k))
       = Some true.
Proof.
  induction l as [|slot l IH]; intros i0 m k pad Hk; [discriminate|].
  destruct k as [|k]; simpl.
  - injection Hk as ->. rewrite Nat.add_0_r.
    destruct (scan_gamepad_other ("joystick_" +:+ decimal i0) l (S i0)
                (DeviceManager.scan_gamepad i0 (Some pad) m)) as [Hd He].
    { intros k pad' _ Heq. apply deviceId_inj in Heq. lia. }
    rewrite Hd, He. unfold DeviceManager.getDeviceById. simpl. split.
    + apply JsMap_get_set_eq.
    + apply lookup_insert_eq.
  - replace (i0 + S k)%nat with (S i0 + k)%nat by lia.
    apply IH. exact Hk.
Qed.

Lemma has_getDeviceById (id : string) (m : DeviceManager.t) :
  JsMap.has id (DeviceManager.devices m)
  = match DeviceManager.getDeviceById id m with
    | Some _ => true
    | None => false
    end.
Proof. reflexivity. Qed.

(** X22. What a scan of the devices leaves.  Whatever the manager held
    before, after [_scanDevices] (so after [refreshDevices], and at
    construction) the keyboard ["keyboard_0"] is registered and enabled,
    and its input is processed; each gamepad found in a slot [i] is
    registered as the joystick ["joystick_i"] with that gamepad's
    capabilities and is enabled, also if it had been disabled before the
    scan; its input is processed at a later time unless slot [i] of the
    gamepads then holds [null] (a slot past the end of the array is not
    [null]).  For a slot that was empty or past the end at the scan no
    joystick is registered, and no input of such a device is processed,
    whatever the table of enabled devices still says. *)
Theorem scan_registers_devices (gamepads : list (option Gamepad))
    (m : DeviceManager.t) :
  let m' := DeviceManager._scanDevices gamepads m in
  (DeviceManager.isDeviceEnabled "keyboard_0" m' = true
   /\ forall later,
        DeviceManager.shouldProcessDeviceInput later "keyboard_0" m' = true)
  /\ (forall i pad,
        gamepads !! i = Some (Some pad) ->
        DeviceManager.getDeviceById ("joystick_" +:+ decimal i) m'
        = Some (DeviceManager.joystick i pad)
        /\ DeviceManager.isDeviceEnabled ("joystick_" +:+ decimal i) m' = true
        /\ forall later,
             DeviceManager.shouldProcessDeviceInput later
               ("joystick_" +:+ decimal i) m'
             = match later !! i with
               | Some None => false
               | _ => true
               end)
  /\ (forall i,
        (forall pad, gamepads !! i <> Some (Some pad)) ->
        DeviceManager.getDeviceById ("joystick_" +:+ decimal i) m' = None
        /\ forall later,
             DeviceManager.shouldProcessDeviceInput later
               ("joystick_" +:+ decimal i) m' = false).
Proof.
  cbv zeta. unfold DeviceManager._scanDevices, DeviceManager._scanGamepads.
  split; [|split].
  - destruct (scan_gamepad_other "keyboard_0" gamepads O
                (DeviceManager._scanKeyboards
                   {| DeviceManager.devices := JsMap.empty;
                      DeviceManager.enabledDevices :=
                        DeviceManager.enabledDevices m |})) as [Hd He].
    { intros k pad _. discriminate. }
    assert (DeviceManager.isDeviceEnabled "keyboard_0"
              (for_each DeviceManager.scan_gamepad O gamepads
                 (DeviceManager._scanKeyboards
                    {| DeviceManager.devices := JsMap.empty;
                       DeviceManager.enabledDevices :=
                         DeviceManager.enabledDevices m |})) = true) as Hen.
    { unfold DeviceManager.isDeviceEnabled. rewrite He. simpl.
      rewrite lookup_insert_eq. reflexivity. }
    split; [exact Hen|]. intros later.
    unfold DeviceManager.shouldProcessDeviceInput,
      DeviceManager.isDeviceConnected.
    rewrite Hen, Hd. reflexivity.
  - intros i pad Hi.
    destruct (scan_gamepad_found gamepads O
                (DeviceManager._scanKeyboards
                   {| DeviceManager.devices := JsMap.empty;
                      DeviceManager.enabledDevices :=
                        DeviceManager.enabledDevices m |}) i pad Hi)
      as [Hd He].
    simpl in Hd, He.
    assert (DeviceManager.isDeviceEnabled ("joystick_" +:+ decimal i)
              (for_each DeviceManager.scan_gamepad O gamepads
                 (DeviceManager._scanKeyboards
                    {| DeviceManager.devices := JsMap.empty;
                       DeviceManager.enabledDevices :=
                         DeviceManager.enabledDevices m |})) = true) as Hen.
    { unfold DeviceManager.isDeviceEnabled. rewrite He. reflexivity. }
    split; [exact Hd|]. split; [exact Hen|]. intros later.
    unfold DeviceManager.shouldProcessDeviceInput,
      DeviceManager.isDeviceConnected.
    rewrite Hen, Hd, andb_true_r. simpl deviceType. cbv iota.
    rewrite split_deviceId, parseInt_decimal.
    unfold DeviceManager.slot_not_null.
    destruct (Z.ltb_spec (Z.of_nat i) 0) as [Hneg|_]; [lia|].
    rewrite Nat2Z.id. reflexivity.
  - intros i Hi.
    destruct (scan_gamepad_other ("joystick_" +:+ decimal i) gamepads O
                (DeviceManager._scanKeyboards
                   {| DeviceManager.devices := JsMap.empty;
                      DeviceManager.enabledDevices :=
                        DeviceManager.enabledDevices m |})) as [Hd _].
    { intros k pad Hk Heq. apply deviceId_inj in Heq. simpl in Heq.
      subst k. exact (Hi pad Hk). }
    assert (DeviceManager.getDeviceById ("joystick_" +:+ decimal i)
              (for_each DeviceManager.scan_gamepad O gamepads
                 (DeviceManager._scanKeyboards
                    {| DeviceManager.devices := JsMap.empty;
                       DeviceManager.enabledDevices :=
                         DeviceManager.enabledDevices m |})) = None) as Hnone.
    { rewrite Hd. reflexivity. }
    split; [exact Hnone|]. intros later.
    unfold DeviceManager.shouldProcessDeviceInput,
      DeviceManager.isDeviceConnected.
    rewrite Hnone. reflexivity.
Qed.

Lemma scan_registers_devices_witness :
  DeviceManager.shouldProcessDeviceInput [None; None] "joystick_1"
    (DeviceManager._scanDevices
       [None; Some {| pad_id := "pad"; buttons := [false]; axes := [] |}]
       (DeviceManager.new []))
  = false.
Proof.
  destruct (scan_registers_devices
              [None; Some {| pad_id := "pad"; buttons := [false];
                             axes := [] |}]
              (DeviceManager.new [])) as (_ & H & _).
  destruct (H 1%nat {| pad_id := "pad"; buttons := [false]; axes := [] |}
              eq_refl) as (_ & _ & Hlater).
  exact (Hlater [None; None]).
Defined.

Lemma shouldProcess_unknown (gamepads : list (option Gamepad)) (id : string)
    (m : DeviceManager.t) :
  DeviceManager.getDeviceById id m = None ->
  DeviceManager.shouldProcessDeviceInput gamepads id m = false.
Proof.
  intros H. unfold DeviceManager.shouldProcessDeviceInput,
              DeviceManager.isDeviceConnected.
  rewrite H. reflexivity.
Qed.

Lemma getDeviceById_setDeviceEnabled (id id' : string) (b : bool)
    (m : DeviceManager.t) :
  DeviceManager.getDeviceById id' (DeviceManager.setDeviceEnabled id b m)
  = DeviceManager.getDeviceById id' m.
Proof.
  unfold DeviceManager.setDeviceEnabled.
  destruct (JsMap.has id (DeviceManager.devices m)); reflexivity.
Qed.

Lemma isDeviceConnected_setDeviceEnabled (gamepads : list (option Gamepad))
    (id id' : string) (b : bool) (m : DeviceManager.t) :
  DeviceManager.isDeviceConnected gamepads id'
    (DeviceManager.setDeviceEnabled id b m)
  = DeviceManager.isDeviceConnected gamepads id' m.
Proof.
  unfold DeviceManager.isDeviceConnected.
  rewrite getDeviceById_setDeviceEnabled. reflexivity.
Qed.

Lemma shouldProcess_setDeviceEnabled (gamepads : list (option Gamepad))
    (id : string) (b : bool) (m : DeviceManager.t) :
  DeviceManager.shouldProcessDeviceInput gamepads id
    (DeviceManager.setDeviceEnabled id b m)
  = DeviceManager.isDeviceConnected gamepads id m && b.
Proof.
  unfold DeviceManager.shouldProcessDeviceInput.
  rewrite isDeviceConnected_setDeviceEnabled.
  unfold DeviceManager.isDeviceConnected, DeviceManager.setDeviceEnabled.
  rewrite has_getDeviceById.
  destruct (DeviceManager.getDeviceById id m) as [device|]; [|reflexivity].
  f_equal. unfold DeviceManager.isDeviceEnabled. simpl.
  rewrite lookup_insert_eq. reflexivity.
Qed.

(** X23. Enabling and disabling a device.  Input of a device is
    processed exactly if the device is connected and enabled.  After
    [setDeviceEnabled id b] the input of [id] is processed exactly if the
    device is connected and [b] holds, whatever was set before: the last
    setting counts, a disabled device is not processed, and enabling
    again restores processing for a connected device.  The setting of
    one device changes neither which devices are registered or connected
    nor whether any other device is processed.  For an identifier that
    is not registered the call changes nothing, and input of an
    unregistered device is never processed. *)
Theorem setDeviceEnabled_gates (gamepads : list (option Gamepad))
    (id : string) (b : bool) (m : DeviceManager.t) :
  DeviceManager.shouldProcessDeviceInput gamepads id
    (DeviceManager.setDeviceEnabled id b m)
  = DeviceManager.isDeviceConnected gamepads id m && b
  /\ (forall other,
        DeviceManager.getDeviceById other
          (DeviceManager.setDeviceEnabled id b m)
        = DeviceManager.getDeviceById other m
        /\ DeviceManager.isDeviceConnected gamepads other
             (DeviceManager.setDeviceEnabled id b m)
           = DeviceManager.isDeviceConnected gamepads other m)
  /\ (forall other,
        other <> id ->
        DeviceManager.shouldProcessDeviceInput gamepads other
          (DeviceManager.setDeviceEnabled id b m)
        = DeviceManager.shouldProcessDeviceInput gamepads other m)
  /\ (forall b',
        DeviceManager.setDeviceEnabled id b
          (DeviceManager.setDeviceEnabled id b' m)
        = DeviceManager.setDeviceEnabled id b m)
  /\ (DeviceManager.getDeviceById id m = None ->
      DeviceManager.setDeviceEnabled id b m = m
      /\ DeviceManager.shouldProcessDeviceInput gamepads id m = false).
Proof.
  split; [apply shouldProcess_setDeviceEnabled|].
  split; [intros other; split;
          [apply getDeviceById_setDeviceEnabled
          |apply isDeviceConnected_setDeviceEnabled]|].
  split; [|split].
  - intros other Hne. unfold DeviceManager.shouldProcessDeviceInput.
    rewrite isDeviceConnected_setDeviceEnabled. f_equal.
    unfold DeviceManager.setDeviceEnabled, DeviceManager.isDeviceEnabled.
    destruct (JsMap.has id (DeviceManager.devices m)); [|reflexivity].
    simpl. rewrite lookup_insert_ne by congruence. reflexivity.
  - intros b'. unfold DeviceManager.setDeviceEnabled.
    destruct (JsMap.has id (DeviceManager.devices m)) eqn:Hhas; simpl;
      rewrite Hhas; [|reflexivity].
    rewrite insert_insert_eq. reflexivity.
  - intros Hnone. split; [|apply shouldProcess_unknown, Hnone].
    unfold DeviceManager.setDeviceEnabled. rewrite has_getDeviceById, Hnone.
    reflexivity.
Qed.

Lemma setDeviceEnabled_gates_witness :
  DeviceManager.setDeviceEnabled "joystick_3" true (DeviceManager.new []) 
  = DeviceManager.new []
  /\ DeviceManager.shouldProcessDeviceInput [] "joystick_3"
       (DeviceManager.new []) = false.
Proof.
  apply (setDeviceEnabled_gates [] "joystick_3" true (DeviceManager.new [])).
  reflexivity.
Defined.

(** X24. A device whose input is not to be processed is silent.  Let
    [id] be a device, not the empty string, whose input the device
    manager says is not to be processed: it is disabled, not registered,
    or not connected.  Then no trigger bound to [id] is activated by a
    key-down event, none has a hold timer armed for it by the event, and
    none is activated by a poll of the gamepads, whatever the state of
    the engine and whatever the event.  A trigger whose device is the
    empty string or missing is not gated at all. *)
Theorem unprocessed_device_is_silent (gamepads : list (option Gamepad))
    (dm : DeviceManager.t) (id : string) (e : TriggerEngine.t)
    (tr : Trigger.t) :
  id <> "" ->
  Trigger.deviceId tr = Some id ->
  DeviceManager.shouldProcessDeviceInput gamepads id dm = false ->
  let shouldProcess :=
    fun d => DeviceManager.shouldProcessDeviceInput gamepads d dm in
  (forall key now,
     ~ In tr (KeyDown.fired shouldProcess key now e)
     /\ arms shouldProcess key tr = false)
  /\ ~ In tr (poll_activations shouldProcess gamepads
                (JsMap.values (TriggerEngine.triggers e)))
  /\ (forall tr',
        Trigger.deviceId tr' = None \/ Trigger.deviceId tr' = Some "" ->
        TriggerEngine.gated_out shouldProcess tr' = false).
Proof.
  intros Hid Hdev Hoff shouldProcess.
  assert (TriggerEngine.gated_out shouldProcess tr = true) as Hgated.
  { unfold TriggerEngine.gated_out. rewrite Hdev.
    destruct id as [|c s]; [congruence|].
    subst shouldProcess. simpl. rewrite Hoff. reflexivity. }
  split; [|split].
  - intros key now. split.
    + destruct (TriggerEngine.monitoring e) eqn:Hmon.
      * rewrite fired_spec by exact Hmon. rewrite List.filter_In.
        unfold KeyDown.fires. rewrite Hgated.
        rewrite andb_false_r. simpl. intros [_ H]. discriminate.
      * unfold KeyDown.fired, TriggerEngine._handleKeyDown.
        rewrite Hmon. simpl. rewrite drop_all. intros [].
    + unfold arms. rewrite Hgated, andb_false_r. reflexivity.
  - rewrite In_poll_activations.
    intros (_ & i & pad & _ & Hsp & Hfire).
    assert (Trigger.deviceId tr = Some ("joystick_" +:+ decimal i)) as Hdev'.
    { destruct Hfire as [(j & _ & Hf) | (j & v & _ & Hf)].
      - apply (joystick_fires_only _ j 0%Q tr). left. exact Hf.
      - apply (joystick_fires_only _ j v tr). right. exact Hf. }
    rewrite Hdev in Hdev'. injection Hdev' as ->.
    subst shouldProcess. simpl in Hsp. congruence.
  - intros tr' [H|H]; unfold TriggerEngine.gated_out; rewrite H; reflexivity.
Qed.

Lemma unprocessed_device_is_silent_witness :
  ~ In (sample_trigger "t1" KEY_PRESS "f")
       (KeyDown.fired
          (fun d =>
             DeviceManager.shouldProcessDeviceInput [] d
               (DeviceManager.setDeviceEnabled "keyboard_0" false
                  (DeviceManager.new [])))
          "f" 0 (listening [sample_trigger "t1" KEY_PRESS "f"])).
Proof.
  assert ("keyboard_0" <> "") as Hid by discriminate.
  apply (unprocessed_device_is_silent []
           (DeviceManager.setDeviceEnabled "keyboard_0" false
              (DeviceManager.new []))
           "keyboard_0" (listening [sample_trigger "t1" KEY_PRESS "f"])
           (sample_trigger "t1" KEY_PRESS "f") Hid eq_refl eq_refl).
Defined.

Lemma prefix_append_l (a b : string) :
  forall s, String.prefix (a +:+ b) s = true -> String.prefix a s = true.
Proof.
  induction a as [|c a IH]; intros s; [destruct s; reflexivity|].
  change (String c a +:+ b) with (String c (a +:+ b)).
  destruct s as [|c' s]; simpl; [discriminate|].
  destruct (ascii_dec c c'); [apply IH | discriminate].
Qed.

Lemma includes_append_false (a b s : string) :
  includes a s = false -> includes (a +:+ b) s = false.
Proof.
  induction s as [|c s IH]; cbn [includes]; rewrite !orb_false_iff;
    intros [Hp Hi]; (split; [|auto]);
    (destruct (String.prefix (a +:+ b) _) eqn:E;
     [apply prefix_append_l in E; congruence | reflexivity]).
Qed.

Lemma prefix_refl (s : string) : String.prefix s s = true.
Proof.
  induction s as [|c s IH]; simpl; [reflexivity|].
  destruct (ascii_dec c c); [exact IH | congruence].
Qed.

(** X25. The names the device manager gives the inputs of a gamepad,
    taken as the input name of a trigger.  Each capability of a gamepad is
    a button or an axis of it, with its index.  A trigger named after
    button [k] is fired by the samples of button [k] and of no other
    button.  A trigger named after one of the first six axes (["Left
    Stick X"] to ["Right Trigger"]) is fired by no sample of any axis,
    since samples are matched against ["Axis j"]; a trigger named after
    a later axis [k] (["Axis k"]) is fired by each sample of axis [k] at
    or past its threshold. *)
Theorem capability_names_as_trigger_names (pad : Gamepad)
    (cap : InputCapability) :
  In cap (DeviceManager._getGamepadCapabilities pad) ->
  forall (deviceId : string) (tr : Trigger.t),
    Trigger.inputName tr = cap_name cap ->
    match inputType cap, cap_index cap with
    | ButtonInput, Some k =>
        (k < length (buttons pad))%nat
        /\ (forall j, button_fires deviceId j tr = true -> j = k)
        /\ (Trigger.enabled tr = true ->
            Trigger.triggerType tr = JOYSTICK_BUTTON ->
            Trigger.deviceId tr = Some deviceId ->
            button_fires deviceId k tr = true)
    | AxisInput, Some k =>
        (k < length (axes pad))%nat
        /\ if (k <? 6)%nat
           then forall j v, axis_fires deviceId j v tr = false
           else forall v,
                  Trigger.enabled tr = true ->
                  Trigger.triggerType tr = JOYSTICK_AXIS ->
                  Trigger.deviceId tr = Some deviceId ->
                  (axis_fires deviceId k v tr = true
                   <-> (Trigger.axisThreshold tr <= Qabs v)%Q)
    | _, _ => False
    end.
Proof.
  intros Hin deviceId tr Hname.
  unfold DeviceManager._getGamepadCapabilities in Hin.
  apply in_app_iff in Hin as [Hin|Hin];
    apply in_map_iff in Hin as (k & <- & Hk); apply in_seq in Hk;
    simpl in *.
  - split; [lia|]. split.
    + intros j Hf. unfold button_fires in Hf.
      apply andb_true_iff in Hf as [_ Hf]. apply String.eqb_eq in Hf.
      rewrite Hname in Hf. symmetry. apply decimal_inj.
      change ("Button " +:+ decimal k)
        with (String "B" (String "u" (String "t" (String "t" (String "o"
               (String "n" (String " " (decimal k))))))))
        in Hf.
      change ("Button " +:+ decimal j)
        with (String "B" (String "u" (String "t" (String "t" (String "o"
               (String "n" (String " " (decimal j))))))))
        in Hf.
      congruence.
    + intros Hen Hty Hdev. unfold button_fires, TriggerEngine.on_device.
      rewrite Hen, Hty, Hdev, Hname, !String.eqb_refl. reflexivity.
  - split; [lia|]. destruct (Nat.ltb_spec k 6) as [Hlt|Hge].
    + intros j v. unfold axis_fires. rewrite Hname.
      rewrite (includes_append_false "Axis " (decimal j)).
      * rewrite andb_false_r. reflexivity.
      * do 6 (destruct k as [|k]; [reflexivity|]). lia.
    + intros v Hen Hty Hdev. unfold axis_fires, TriggerEngine.on_device.
      rewrite Hen, Hty, Hdev, Hname, String.eqb_refl.
      assert (DeviceManager.axis_name k = "Axis " +:+ decimal k) as ->.
      { unfold DeviceManager.axis_name.
        rewrite (lookup_ge_None_2 DeviceManager.axisNames k) by (simpl; lia).
        reflexivity. }
      rewrite includes_prefix by apply prefix_refl. simpl.
      apply Qle_bool_iff.
Qed.

Lemma capability_names_as_trigger_names_witness :
  axis_fires "joystick_0" 0 1 (axis_trigger "Left Stick X" 0.5) = false.
Proof.
  apply (capability_names_as_trigger_names
           {| pad_id := "pad"; buttons := []; axes := [0%Q] |}
           {| cap_name := "Left Stick X"; inputType := AxisInput;
              cap_index := Some O; valueRange := Some ((-1)%Q, 1%Q) |}
           ltac:(left; reflexivity) "joystick_0"
           (axis_trigger "Left Stick X" 0.5) eq_refl).
Defined.
